(** * Architecture graph: delta merge engine, integrity validator,
      layout assignment, change summarizer and delta parser.

    Shallow embedding of [lib/types.ts], [lib/graph-utils.ts],
    [lib/prompts.ts] and the [parseAndValidateDelta] helper of the chat
    route.  JavaScript [Set]s of ids are [gset string], the [Map] built
    from the update list is a [gmap string NodeUpdate], arrays are lists
    ([push] appends at the end), optional fields are [option]s, numbers
    are IEEE 754 binary64 values.

    The file has four parts: the program, the vocabulary the properties
    are stated in, sample inputs, and the properties with their proofs. *)

From Stdlib Require Import ZArith DecimalString DecimalNat DecimalFacts SpecFloat.
From stdpp Require Import ssreflect gmap strings list fin_maps fin_sets.

Set Warnings "-clear-no-such-hyp,-level-tolerance,-rewrite-rw".
Local Open Scope string_scope.
Local Open Scope list_scope.

(** ** Numbers *)

(** A JavaScript number is an IEEE 754 binary64 value: 53 bits of
    precision, exponents below 1024, two zeros, two infinities and NaN.
    Sums and products round to the nearest value, ties to even. *)
Definition number := spec_float.

#[global] Instance number_eq_dec : EqDecision number.
Proof. solve_decision. Defined.

(** An integer literal, an array index or an array length as a number. *)
Definition Number_of_Z (z : Z) : number := binary_normalize 53 1024 z 0 false.

(** [a + b], [a * b], [a === b] and [a < b] on numbers. *)
Definition Number_add : number → number → number := SFadd 53 1024.
Definition Number_mul : number → number → number := SFmul 53 1024.
Definition Number_eq : number → number → bool := SFeqb.
Definition Number_lt : number → number → bool := SFltb.

Arguments Number_of_Z : simpl never.
Arguments Number_add : simpl never.
Arguments Number_mul : simpl never.
Arguments Number_eq : simpl never.
Arguments Number_lt : simpl never.

(** One step of [Math.max]: [NaN] when an argument is [NaN]; [+0] is
    larger than [-0]; otherwise the larger of the two. *)
Definition Math_max_step (highest x : number) : number :=
  match highest, x with
  | S754_nan, _ | _, S754_nan => S754_nan
  | S754_zero true, S754_zero false => x
  | _, _ => if Number_lt highest x then x else highest
  end.

(** [Math.max(x1, ..., xn)], [-Infinity] for no argument. *)
Definition Math_max (xs : list number) : number :=
  foldl Math_max_step (S754_infinity true) xs.

(** ** Data model ([lib/types.ts]) *)

Inductive NodeKind := service | class | module | api | queue | db.
Inductive EdgeKind := calls | depends_on | publishes | consumes | queries.

#[global] Instance NodeKind_eq_dec : EqDecision NodeKind.
Proof. solve_decision. Defined.
#[global] Instance EdgeKind_eq_dec : EqDecision EdgeKind.
Proof. solve_decision. Defined.

(** Canvas coordinates. *)
Record Position := mkPosition { pos_x : number; pos_y : number }.

Record GraphNodeData := mkData {
  summary : option string;
  methods : option (list string);
  fields : option (list string);
  filePath : option string;
}.

Record GraphNode := mkNode {
  node_id : string;
  node_kind : NodeKind;
  node_label : string;
  node_position : Position;
  node_data : GraphNodeData;
}.

Record GraphEdgeData := mkEdgeData { description : option string }.

Record GraphEdge := mkEdge {
  edge_id : string;
  edge_source : string;
  edge_target : string;
  edge_kind : EdgeKind;
  edge_data : option GraphEdgeData;
}.

Record GraphMeta := mkMeta { projectId : string; updatedAt : string }.

Record GraphState := mkState {
  nodes : list GraphNode;
  edges : list GraphEdge;
  meta : GraphMeta;
}.

Record NodeUpdate := mkUpdate {
  upd_id : string;
  upd_label : option string;
  upd_kind : option NodeKind;
  upd_data : option GraphNodeData;
}.

Record GraphDelta := mkDelta {
  addNodes : option (list GraphNode);
  updateNodes : option (list NodeUpdate);
  removeNodeIds : option (list string);
  addEdges : option (list GraphEdge);
  removeEdgeIds : option (list string);
}.

#[global] Instance Position_eq_dec : EqDecision Position.
Proof. solve_decision. Defined.
#[global] Instance GraphNodeData_eq_dec : EqDecision GraphNodeData.
Proof. solve_decision. Defined.
#[global] Instance GraphNode_eq_dec : EqDecision GraphNode.
Proof. solve_decision. Defined.
#[global] Instance GraphEdgeData_eq_dec : EqDecision GraphEdgeData.
Proof. solve_decision. Defined.
#[global] Instance GraphEdge_eq_dec : EqDecision GraphEdge.
Proof. solve_decision. Defined.

(** The delta [{}]: every operation field absent. *)
Definition emptyDelta : GraphDelta := mkDelta None None None None None.

(** [x ?? y] *)
Definition nullish {A} (o : option A) (d : A) : A :=
  match o with Some v => v | None => d end.

(** [cond && l.length > 0] on an optional array: the array when the
    guarded block runs. *)
Definition present {A} (o : option (list A)) : option (list A) :=
  match o with
  | Some (a :: l) => Some (a :: l)
  | _ => None
  end.

(** ** Merge engine ([mergeGraphDelta], [lib/graph-utils.ts]) *)

Definition node_ids (ns : list GraphNode) : list string := node_id <$> ns.
Definition edge_ids (es : list GraphEdge) : list string := edge_id <$> es.

(** [new Set(xs)] *)
Definition Set_of (xs : list string) : gset string := list_to_set xs.

(** [new Map(entries)]: later entries overwrite earlier ones. *)
Definition Map_of (us : list NodeUpdate) : gmap string NodeUpdate :=
  foldl (λ m u, <[upd_id u := u]> m) ∅ us.

(** Step 1: remove nodes and the edges that touch them. *)
Definition removeNodesStep (rm : option (list string))
    (st : list GraphNode * list GraphEdge) : list GraphNode * list GraphEdge :=
  match present rm with
  | Some ids =>
      let removeSet := Set_of ids in
      (filter (λ n, node_id n ∉ removeSet) (st.1),
       filter (λ e, (edge_source e ∉ removeSet) ∧ (edge_target e ∉ removeSet)) (st.2))
  | None => st
  end.

(** Step 2: remove edges by id. *)
Definition removeEdgesStep (rm : option (list string))
    (es : list GraphEdge) : list GraphEdge :=
  match present rm with
  | Some ids =>
      let removeSet := Set_of ids in
      filter (λ e, edge_id e ∉ removeSet) es
  | None => es
  end.

(** Step 3: one iteration of the [for ... of delta.addNodes] loop; the
    state is the array [nodes] and the set [existingIds]. *)
Definition addNode_iter (acc : list GraphNode * gset string) (newNode : GraphNode)
    : list GraphNode * gset string :=
  if decide (node_id newNode ∈ acc.2) then acc
  else (acc.1 ++ [newNode], {[node_id newNode]} ∪ acc.2).

Definition addNodesStep (adds : option (list GraphNode))
    (ns : list GraphNode) : list GraphNode :=
  match present adds with
  | Some news =>
      let existingIds := Set_of (node_ids ns) in
      (foldl addNode_iter (ns, existingIds) news).1
  | None => ns
  end.

(** Step 4: the object spread [{...node.data, ...update.data}]. *)
Definition spread_data (old : GraphNodeData) (upd : option GraphNodeData) : GraphNodeData :=
  match upd with
  | None => old
  | Some u =>
      {| summary := match summary u with Some v => Some v | None => summary old end;
         methods := match methods u with Some v => Some v | None => methods old end;
         fields := match fields u with Some v => Some v | None => fields old end;
         filePath := match filePath u with Some v => Some v | None => filePath old end |}
  end.

Definition applyUpdate (update : NodeUpdate) (node : GraphNode) : GraphNode :=
  {| node_id := node_id node;
     node_kind := nullish (upd_kind update) (node_kind node);
     node_label := nullish (upd_label update) (node_label node);
     node_position := node_position node;
     node_data := spread_data (node_data node) (upd_data update) |}.

Definition updateNode (updateMap : gmap string NodeUpdate) (node : GraphNode) : GraphNode :=
  match updateMap !! node_id node with
  | None => node
  | Some update => applyUpdate update node
  end.

Definition updateNodesStep (upds : option (list NodeUpdate))
    (ns : list GraphNode) : list GraphNode :=
  match present upds with
  | Some us => let updateMap := Map_of us in updateNode updateMap <$> ns
  | None => ns
  end.

(** Step 5: one iteration of the [for ... of delta.addEdges] loop; the
    state is the array [edges] and the set [existingEdgeIds]. The
    [console.warn] of the else branch has no effect on the result. *)
Definition addEdge_iter (nodeIds : gset string)
    (acc : list GraphEdge * gset string) (newEdge : GraphEdge)
    : list GraphEdge * gset string :=
  if decide (edge_source newEdge ∈ nodeIds ∧ edge_target newEdge ∈ nodeIds) then
    if decide (edge_id newEdge ∈ acc.2) then acc
    else (acc.1 ++ [newEdge], {[edge_id newEdge]} ∪ acc.2)
  else acc.

Definition addEdgesStep (adds : option (list GraphEdge))
    (ns : list GraphNode) (es : list GraphEdge) : list GraphEdge :=
  match present adds with
  | Some news =>
      let nodeIds := Set_of (node_ids ns) in
      let existingEdgeIds := Set_of (edge_ids es) in
      (foldl (addEdge_iter nodeIds) (es, existingEdgeIds) news).1
  | None => es
  end.

(** [now] is the value of [new Date().toISOString()] at the call. *)
Definition mergeGraphDelta (now : string) (state : GraphState) (delta : GraphDelta)
    : GraphState :=
  let nodes0 := nodes state in
  let edges0 := edges state in
  let '(nodes1, edges1) := removeNodesStep (removeNodeIds delta) (nodes0, edges0) in
  let edges2 := removeEdgesStep (removeEdgeIds delta) edges1 in
  let nodes3 := addNodesStep (addNodes delta) nodes1 in
  let nodes4 := updateNodesStep (updateNodes delta) nodes3 in
  let edges5 := addEdgesStep (addEdges delta) nodes4 edges2 in
  {| nodes := nodes4;
     edges := edges5;
     meta := {| projectId := projectId (meta state); updatedAt := now |} |}.

(** ** Layout assignment ([autoLayoutNodes], [lib/graph-utils.ts]) *)

Definition SPACING_X : number := Number_of_Z 250.
Definition SPACING_Y : number := Number_of_Z 150.
Definition COLS : Z := 4.

(** The callback of [nodes.map((node, index) => ...)].  [index] is an
    array index, an integer below [2^32]: on such a number
    [index % COLS] is the remainder and [Math.floor(index / COLS)] the
    quotient, both without rounding.  [x !== 0] is the negation of
    [x === 0]; the products and the sums are those of numbers. *)
Definition layoutNode (startX startY : number) (index : nat) (node : GraphNode)
    : GraphNode :=
  if negb (Number_eq (pos_x (node_position node)) (Number_of_Z 0))
     || negb (Number_eq (pos_y (node_position node)) (Number_of_Z 0))
  then node
  else
    let col := Number_of_Z (Z.rem (Z.of_nat index) COLS) in
    let row := Number_of_Z (Z.div (Z.of_nat index) COLS) in
    {| node_id := node_id node;
       node_kind := node_kind node;
       node_label := node_label node;
       node_position := {| pos_x := Number_add startX (Number_mul col SPACING_X);
                           pos_y := Number_add startY (Number_mul row SPACING_Y) |};
       node_data := node_data node |}.

Definition autoLayoutNodes (ns : list GraphNode) (startX startY : number)
    : list GraphNode :=
  imap (layoutNode startX startY) ns.

(** ** Integrity validator ([validateGraphState], [lib/graph-utils.ts]) *)

Record Validation := mkValidation { valid : bool; errors : list string }.

(** One iteration of a duplicate-id loop: the state is the array
    [errors] and the set of ids seen so far. *)
Definition dup_iter (msg : string) (acc : list string * gset string) (i : string)
    : list string * gset string :=
  ((if decide (i ∈ acc.2) then acc.1 ++ [msg +:+ i] else acc.1), {[i]} ∪ acc.2).

Definition nodeDup_iter (acc : list string * gset string) (node : GraphNode) :=
  dup_iter "Duplicate node ID: " acc (node_id node).

Definition edgeDup_iter (acc : list string * gset string) (edge : GraphEdge) :=
  dup_iter "Duplicate edge ID: " acc (edge_id edge).

(** One iteration of the edge reference loop. *)
Definition ref_iter (nodeIds : gset string) (errs : list string) (edge : GraphEdge)
    : list string :=
  let errs :=
    if decide (edge_source edge ∉ nodeIds)
    then errs ++ ["Edge " +:+ edge_id edge +:+ " references non-existent source node: "
                    +:+ edge_source edge]
    else errs in
  if decide (edge_target edge ∉ nodeIds)
  then errs ++ ["Edge " +:+ edge_id edge +:+ " references non-existent target node: "
                  +:+ edge_target edge]
  else errs.

Definition validateGraphState (state : GraphState) : Validation :=
  let errs : list string := [] in
  let nodeIds := Set_of (node_ids (nodes state)) in
  let seenNodeIds : gset string := ∅ in
  let errs := (foldl nodeDup_iter (errs, seenNodeIds) (nodes state)).1 in
  let seenEdgeIds : gset string := ∅ in
  let errs := (foldl edgeDup_iter (errs, seenEdgeIds) (edges state)).1 in
  let errs := foldl (ref_iter nodeIds) errs (edges state) in
  {| valid := bool_decide (length errs = 0); errors := errs |}.

(** ** Change summarizer ([generateChangeSummary], [lib/prompts.ts]) *)

Definition NodeKind_str (k : NodeKind) : string :=
  match k with
  | service => "service" | class => "class" | module => "module"
  | api => "api" | queue => "queue" | db => "db"
  end.

Definition EdgeKind_str (k : EdgeKind) : string :=
  match k with
  | calls => "calls" | depends_on => "depends_on" | publishes => "publishes"
  | consumes => "consumes" | queries => "queries"
  end.

(** The one-character string holding a double quote. *)
Definition dquote : string := String (Ascii.ascii_of_nat 34) EmptyString.

(** [`${n}`] for an array length. *)
Definition num (n : nat) : string := NilZero.string_of_uint (Nat.to_uint n).

(** [parts.join(sep)] *)
Fixpoint join (sep : string) (parts : list string) : string :=
  match parts with
  | [] => EmptyString
  | [p] => p
  | p :: rest => p +:+ sep +:+ join sep rest
  end.

Definition nodeLabel (n : GraphNode) : string :=
  dquote +:+ node_label n +:+ dquote +:+ " (" +:+ NodeKind_str (node_kind n) +:+ ")".

Definition edgeLabel (e : GraphEdge) : string :=
  edge_source e +:+ " â†’ " +:+ edge_target e +:+ " (" +:+ EdgeKind_str (edge_kind e) +:+ ")".

Definition generateChangeSummary (delta : GraphDelta) : string :=
  let parts : list string := [] in
  let parts :=
    match present (addNodes delta) with
    | Some l =>
        let labels := join ", " (nodeLabel <$> l) in
        parts ++ ["Added " +:+ num (length l) +:+ " node(s): " +:+ labels]
    | None => parts
    end in
  let parts :=
    match present (updateNodes delta) with
    | Some l =>
        let ids := join ", " (upd_id <$> l) in
        parts ++ ["Updated " +:+ num (length l) +:+ " node(s): " +:+ ids]
    | None => parts
    end in
  let parts :=
    match present (removeNodeIds delta) with
    | Some l => parts ++ ["Removed " +:+ num (length l) +:+ " node(s): " +:+ join ", " l]
    | None => parts
    end in
  let parts :=
    match present (addEdges delta) with
    | Some l =>
        let edges := join ", " (edgeLabel <$> l) in
        parts ++ ["Added " +:+ num (length l) +:+ " edge(s): " +:+ edges]
    | None => parts
    end in
  let parts :=
    match present (removeEdgeIds delta) with
    | Some l => parts ++ ["Removed " +:+ num (length l) +:+ " edge(s): " +:+ join ", " l]
    | None => parts
    end in
  if decide (length parts = 0) then "No changes were made to the graph."
  else join ". " parts +:+ ".".

(** ** Delta parser ([parseAndValidateDelta], chat route and demo mode) *)

(** The response text is a JavaScript string: a sequence of UTF-16 code
    units. *)

Definition text := list N.

(** A text from an ASCII literal. *)
Definition lit (s : string) : text := Ascii.N_of_ascii <$> String.list_ascii_of_string s.

Definition LBRACE : N := 123.
Definition RBRACE : N := 125.
Definition BACKTICK : N := 96.

(** The fence markers [```json] and [```]. *)
Definition fenceJson : text := [BACKTICK; BACKTICK; BACKTICK] ++ lit "json".
Definition fence : text := [BACKTICK; BACKTICK; BACKTICK].

(** White space and line terminators, the characters [trim] removes. *)
Definition isWhiteSpace (c : N) : bool :=
  ((c =? 9) || (c =? 10) || (c =? 11) || (c =? 12) || (c =? 13) || (c =? 32)
   || (c =? 160) || (c =? 5760) || ((8192 <=? c) && (c <=? 8202))
   || (c =? 8232) || (c =? 8233) || (c =? 8239) || (c =? 8287)
   || (c =? 12288) || (c =? 65279))%N.

Fixpoint trimStart (s : text) : text :=
  match s with
  | c :: r => if isWhiteSpace c then trimStart r else s
  | [] => []
  end.

Definition trimEnd (s : text) : text := reverse (trimStart (reverse s)).

Definition trim (s : text) : text := trimEnd (trimStart s).

Fixpoint startsWith (s p : text) {struct p} : bool :=
  match p, s with
  | [], _ => true
  | a :: p', b :: s' => (a =? b)%N && startsWith s' p'
  | _ :: _, [] => false
  end.

Definition endsWith (s p : text) : bool := startsWith (reverse s) (reverse p).

(** [s.slice(n)] and [s.slice(0, -n)] for [n] within the length. *)
Definition sliceFrom (n : nat) (s : text) : text := drop n s.
Definition sliceDropEnd (n : nat) (s : text) : text := take (length s - n) s.

Definition stripLeadingFence (cleaned : text) : text :=
  if startsWith cleaned fenceJson then sliceFrom 7 cleaned
  else if startsWith cleaned fence then sliceFrom 3 cleaned
  else cleaned.

Definition stripTrailingFence (cleaned : text) : text :=
  if endsWith cleaned fence then sliceDropEnd 3 cleaned else cleaned.

(** The text handed to [JSON.parse]. *)
Definition cleanResponse (response : text) : text :=
  trim (stripTrailingFence (stripLeadingFence (trim response))).

(** [[\s\S]*\}] from a position: the star takes everything and gives
    back one character at a time until a closing brace follows, so the
    match is the longest run that ends in [}]. *)
Fixpoint matchToLastBrace (s : text) : option text :=
  match s with
  | [] => None
  | c :: r =>
      match matchToLastBrace r with
      | Some m => Some (c :: m)
      | None => if (c =? RBRACE)%N then Some [c] else None
      end
  end.

(** [cleaned.match(/\{[\s\S]*\}/)]: start positions are tried from the
    left; [jsonMatch[0]] is the matched text. *)
Fixpoint matchBraces (s : text) : option text :=
  match s with
  | [] => None
  | c :: r =>
      if (c =? LBRACE)%N then
        match matchToLastBrace r with
        | Some m => Some (c :: m)
        | None => matchBraces r
        end
      else matchBraces r
  end.

Inductive ParseResult :=
  | Parsed (delta : GraphDelta)
  | NoJsonFound            (* Error('Could not find valid JSON in response') *)
  | JsonSyntaxError        (* the SyntaxError of the second JSON.parse *)
  | InvalidGraphDelta (message : string).

Section Parser.
(** [JSON.parse] and [GraphDeltaSchema.safeParse] belong to the
    JavaScript runtime and to the schema library: the parser is
    modelled over any pair of them. [None] is a thrown SyntaxError,
    [inl] a failed validation with its message. *)
Context {JSON : Type}.
Variable JSON_parse : text → option JSON.
Variable safeParse : JSON → string + GraphDelta.

Definition validateDelta (parsed : JSON) : ParseResult :=
  match safeParse parsed with
  | inr data => Parsed data
  | inl message => InvalidGraphDelta ("Invalid GraphDelta: " +:+ message)
  end.

Definition parseAndValidateDelta (response : text) : ParseResult :=
  let cleaned := trim response in
  let cleaned := stripLeadingFence cleaned in
  let cleaned := stripTrailingFence cleaned in
  let cleaned := trim cleaned in
  match JSON_parse cleaned with
  | Some parsed => validateDelta parsed
  | None =>
      match matchBraces cleaned with
      | Some jsonMatch =>
          match JSON_parse jsonMatch with
          | Some parsed => validateDelta parsed
          | None => JsonSyntaxError
          end
      | None => NoJsonFound
      end
  end.
End Parser.

(** ** Empty state ([createEmptyGraphState], [lib/types.ts]) *)

(** [now] is the value of [new Date().toISOString()] at the call. *)
Definition createEmptyGraphState (now : string) (projectId : string) : GraphState :=
  {| nodes := [];
     edges := [];
     meta := {| projectId := projectId; updatedAt := now |} |}.

(** ** Prompt size cap ([trimGraphStateForPrompt], [lib/prompts.ts]) *)

Definition MAX_NODES : nat := 50.
Definition MAX_EDGES : nat := 100.

(** [nodes.slice(0, MAX_NODES)] is [take]; the [console.warn] calls have
    no effect on the result. *)
Definition trimGraphStateForPrompt (state : GraphState) : GraphState :=
  let nodes0 := nodes state in
  let edges0 := edges state in
  let '(nodes1, edges1) :=
    if decide (MAX_NODES < length nodes0) then
      let nodes1 := take MAX_NODES nodes0 in
      let nodeIds := Set_of (node_ids nodes1) in
      (nodes1,
       filter (λ e, (edge_source e ∈ nodeIds) ∧ (edge_target e ∈ nodeIds)) edges0)
    else (nodes0, edges0) in
  let edges2 :=
    if decide (MAX_EDGES < length edges1) then take MAX_EDGES edges1 else edges1 in
  {| nodes := nodes1; edges := edges2; meta := meta state |}.

(** ** Applying a parsed delta (chat route and [processChatClientSide]) *)

(** A call that spreads an array, [f(...xs)], passes one argument per
    element; the engine throws a [RangeError] when there are more than it
    can pass.  [argumentLimit] is that bound; [None] is the thrown
    error. *)
Definition spread {A B} (argumentLimit : nat) (f : list A → B) (xs : list A)
    : option B :=
  if decide (length xs ≤ argumentLimit)%nat then Some (f xs) else None.

(** [existingNodesCount > 0 ? Math.max(...ys) + 150 : 100] *)
Definition chatStartY (argumentLimit : nat) (state : GraphState) : option number :=
  let existingNodesCount := length (nodes state) in
  if decide (0 < existingNodesCount)%nat then
    y ← spread argumentLimit Math_max ((λ n, pos_y (node_position n)) <$> nodes state);
    Some (Number_add y (Number_of_Z 150))
  else Some (Number_of_Z 100).

(** [delta.addNodes = autoLayoutNodes(delta.addNodes, 100, startY)] under
    its guard. *)
Definition layoutNewNodes (argumentLimit : nat) (state : GraphState)
    (delta : GraphDelta) : option GraphDelta :=
  match present (addNodes delta) with
  | Some l =>
      startY ← chatStartY argumentLimit state;
      Some (mkDelta (Some (autoLayoutNodes l (Number_of_Z 100) startY))
              (updateNodes delta) (removeNodeIds delta) (addEdges delta)
              (removeEdgeIds delta))
  | None => Some delta
  end.

Record ChatResponse := mkChatResponse {
  assistantMessage : string;
  graphState : GraphState;
}.

(** Layout, merge, validation (its result is only logged) and summary:
    the block both chat handlers run on a parsed delta.  [None]: the
    block throws. *)
Definition applyChatDelta (argumentLimit : nat) (now : string) (state : GraphState)
    (delta : GraphDelta) : option ChatResponse :=
  delta ← layoutNewNodes argumentLimit state delta;
  let newState := mergeGraphDelta now state delta in
  let validation := validateGraphState newState in
  Some {| assistantMessage := generateChangeSummary delta; graphState := newState |}.

(** ** Canvas handlers ([GraphCanvas.tsx]) *)

(** [handleLabelChange]: the state handed to [onGraphChange]. *)
Definition handleLabelChange (now : string) (currentState : GraphState)
    (nodeId newLabel : string) : GraphState :=
  let updatedNodes :=
    (λ node,
       if decide (node_id node = nodeId)
       then {| node_id := node_id node; node_kind := node_kind node;
               node_label := newLabel; node_position := node_position node;
               node_data := node_data node |}
       else node) <$> nodes currentState in
  {| nodes := updatedNodes;
     edges := edges currentState;
     meta := {| projectId := projectId (meta currentState); updatedAt := now |} |}.

(** A React Flow node as the canvas builds it (the [onLabelChange]
    callback is left out). *)
Record ArchitectureNodeData := mkFlowData {
  flow_label : string;
  flow_kind : NodeKind;
  flow_summary : option string;
  flow_methods : option (list string);
  flow_fields : option (list string);
  flow_filePath : option string;
}.

Record ArchitectureNode := mkFlowNode {
  flow_id : string;
  flow_type : string;
  flow_position : Position;
  flow_data : ArchitectureNodeData;
}.

(** [graphState.nodes.map((node): ArchitectureNode => ...)] *)
Definition toFlowNodes (graphState : GraphState) : list ArchitectureNode :=
  (λ node,
     {| flow_id := node_id node;
        flow_type := "architecture";
        flow_position := node_position node;
        flow_data :=
          {| flow_label := node_label node;
             flow_kind := node_kind node;
             flow_summary := summary (node_data node);
             flow_methods := methods (node_data node);
             flow_fields := fields (node_data node);
             flow_filePath := filePath (node_data node) |} |}) <$> nodes graphState.

(** The debounced position save of [handleNodesChange]: the state
    handed to [onGraphChange]; [currentNodes.find] takes the first match. *)
Definition savePositions (now : string) (graphState : GraphState)
    (currentNodes : list ArchitectureNode) : GraphState :=
  let updatedGraphNodes :=
    (λ gNode,
       match list_find (λ n, flow_id n = node_id gNode) currentNodes with
       | Some (_, rfNode) =>
           {| node_id := node_id gNode; node_kind := node_kind gNode;
              node_label := node_label gNode; node_position := flow_position rfNode;
              node_data := node_data gNode |}
       | None => gNode
       end) <$> nodes graphState in
  {| nodes := updatedGraphNodes;
     edges := edges graphState;
     meta := {| projectId := projectId (meta graphState); updatedAt := now |} |}.

(** [onConnect]: the state handed to [onGraphChange]; [nowMs] is
    [Date.now()], [source] and [target] the ends of the connection. *)
Definition onConnect (nowMs : N) (now : string) (currentState : GraphState)
    (source target : string) : GraphState :=
  let newEdgeId := "edge-" +:+ NilZero.string_of_uint (N.to_uint nowMs) in
  let newGraphEdge :=
    {| edge_id := newEdgeId; edge_source := source; edge_target := target;
       edge_kind := depends_on; edge_data := None |} in
  {| nodes := nodes currentState;
     edges := edges currentState ++ [newGraphEdge];
     meta := {| projectId := projectId (meta currentState); updatedAt := now |} |}.

(** ** Chat route after the model call ([POST /api/chat]) *)

(** The two kinds of response of this part of the route: a body with a
    message and a state, and the answer of the outer [catch],
    [{ error: 'Internal server error' }] with status 500. *)
Inductive ChatReply :=
  | Answer (body : ChatResponse)
  | InternalServerError.

(** What the route hands back and what it writes to the graph table
    ([None]: nothing is written). The database calls are taken to
    succeed. *)
Record ChatOutcome := mkChatOutcome {
  reply : ChatReply;
  persisted : option GraphState;
}.

Section ChatRoute.
(** [syntaxErrorMessage] is the message of the [SyntaxError] that
    [JSON.parse] throws on a text. *)
Context {JSON : Type}.
Variable JSON_parse : text → option JSON.
Variable safeParse : JSON → string + GraphDelta.
Variable syntaxErrorMessage : text → string.

(** [parseError.message] *)
Definition parseErrorMessage (llmResponse : text) (failure : ParseResult) : string :=
  match failure with
  | Parsed _ => EmptyString
  | NoJsonFound => "Could not find valid JSON in response"
  | JsonSyntaxError =>
      match matchBraces (cleanResponse llmResponse) with
      | Some jsonMatch => syntaxErrorMessage jsonMatch
      | None => EmptyString
      end
  | InvalidGraphDelta message => message
  end.

Definition chatAfterLLM (argumentLimit : nat) (now : string)
    (canonicalState : GraphState) (llmResponse : text) : ChatOutcome :=
  match parseAndValidateDelta JSON_parse safeParse llmResponse with
  | Parsed delta =>
      match applyChatDelta argumentLimit now canonicalState delta with
      | Some r => {| reply := Answer r; persisted := Some (graphState r) |}
      | None => {| reply := InternalServerError; persisted := None |}
      end
  | failure =>
      {| reply :=
           Answer
             {| assistantMessage :=
                  "I couldn't parse the AI response properly. Please try rephrasing your request. (Error: "
                  +:+ parseErrorMessage llmResponse failure +:+ ")";
                graphState := canonicalState |};
         persisted := None |}
  end.
End ChatRoute.

(** ** Browser storage ([LocalStorageAdapter]; demo mode flag, [lib/demo-mode.ts]) *)

(** The browser as the storage code sees it: whether [window] is
    defined, and [localStorage] ([None]: every access throws; otherwise
    reads and writes succeed). *)
Record Browser := mkBrowser {
  window_defined : bool;
  localStorage : option (gmap string string);
}.

(** The browser and the adapter's [inMemoryStorage] map. *)
Record World := mkWorld {
  browser : Browser;
  inMemoryStorage : gmap string string;
}.

Definition STORAGE_KEY : string := "xyflow-architecture-graph".
Definition DEFAULT_PROJECT_ID : string := "default-project".
Definition DEMO_MODE_KEY : string := "xyflow-demo-mode".

(** The probe writes and removes the key [__test__]. *)
Definition isLocalStorageAvailable (b : Browser) : bool * Browser :=
  match localStorage b with
  | Some m =>
      (true, mkBrowser (window_defined b)
               (Some (delete "__test__" (<["__test__" := "test"]> m))))
  | None => (false, b)
  end.

(** [true]: [localStorage] is returned; [false]: [null]. *)
Definition getStorage (b : Browser) : bool * Browser :=
  if window_defined b then isLocalStorageAvailable b else (false, b).

Section Storage.
(** [JSON.stringify] and [JSON.parse] at the type of graph states
    ([None]: [JSON.parse] throws). *)
Variable JSON_stringify : GraphState → string.
Variable JSON_parseState : string → option GraphState.

Definition getGraphState (now : string) (w : World) : GraphState * World :=
  let '(storage, b) := getStorage (browser w) in
  let data :=
    if storage then localStorage b ≫= (λ m, m !! STORAGE_KEY)
    else inMemoryStorage w !! STORAGE_KEY in
  let w := mkWorld b (inMemoryStorage w) in
  match data with
  | Some d =>
      if decide (d = EmptyString) then (createEmptyGraphState now DEFAULT_PROJECT_ID, w)
      else
        match JSON_parseState d with
        | Some state => (state, w)
        | None => (createEmptyGraphState now DEFAULT_PROJECT_ID, w)
        end
  | None => (createEmptyGraphState now DEFAULT_PROJECT_ID, w)
  end.

Definition saveGraphState (state : GraphState) (w : World) : World :=
  let '(storage, b) := getStorage (browser w) in
  let data := JSON_stringify state in
  if storage then
    mkWorld (mkBrowser (window_defined b) (<[STORAGE_KEY := data]> <$> localStorage b))
      (inMemoryStorage w)
  else mkWorld b (<[STORAGE_KEY := data]> (inMemoryStorage w)).

Definition clearGraphState (w : World) : World :=
  let '(storage, b) := getStorage (browser w) in
  if storage then
    mkWorld (mkBrowser (window_defined b) (delete STORAGE_KEY <$> localStorage b))
      (inMemoryStorage w)
  else mkWorld b (delete STORAGE_KEY (inMemoryStorage w)).
End Storage.

(** [envDemoMode] is [process.env.NEXT_PUBLIC_DEMO_MODE]. *)
Definition isDemoModeEnabled (envDemoMode : option string) (b : Browser) : bool :=
  if window_defined b then
    if decide (envDemoMode = Some "true") then true
    else
      match localStorage b with
      | Some m => bool_decide (m !! DEMO_MODE_KEY = Some "true")
      | None => false
      end
  else false.

Definition setDemoMode (enabled : bool) (b : Browser) : Browser :=
  if window_defined b then
    match localStorage b with
    | Some m =>
        if enabled then mkBrowser (window_defined b) (Some (<[DEMO_MODE_KEY := "true"]> m))
        else mkBrowser (window_defined b) (Some (delete DEMO_MODE_KEY m))
    | None => b
    end
  else b.

(** ** Model client from the environment ([lib/llm/index.ts],
       [OpenAICompatibleClient]) *)

Record ProcessEnv := mkEnv {
  LLM_PROVIDER : option string;
  LLM_API_KEY : option string;
  LLM_BASE_URL : option string;
  LLM_MODEL : option string;
}.

(** [v || d] on an environment variable. *)
Definition orElse (v : option string) (d : string) : string :=
  match v with
  | Some s => if decide (s = EmptyString) then d else s
  | None => d
  end.

Record LLMProviderConfig := mkConfig {
  cfg_provider : string;
  cfg_apiKey : string;
  cfg_baseURL : string;
  cfg_model : string;
}.

Record OpenAICompatibleClient := mkClient {
  client_apiKey : string;
  client_baseURL : string;
  client_model : string;
}.

(** The character [/]. *)
Definition SLASH : Ascii.ascii := Ascii.ascii_of_nat 47.

(** [s.replace(/\/$/, '')]: a slash that ends the text is dropped. *)
Fixpoint stripTrailingSlash (s : string) : string :=
  match s with
  | EmptyString => EmptyString
  | String c EmptyString => if decide (c = SLASH) then EmptyString else s
  | String c r => String c (stripTrailingSlash r)
  end.

(** The constructor of [OpenAICompatibleClient]. *)
Definition newOpenAICompatibleClient (config : LLMProviderConfig)
    : OpenAICompatibleClient :=
  {| client_apiKey := cfg_apiKey config;
     client_baseURL := stripTrailingSlash (cfg_baseURL config);
     client_model := cfg_model config |}.

(** The address [complete] posts to. *)
Definition endpoint (client : OpenAICompatibleClient) : string :=
  client_baseURL client +:+ "/chat/completions".

(** [inl] is the message of the thrown [Error]. *)
Definition createLLMClient (config : LLMProviderConfig)
    : string + OpenAICompatibleClient :=
  if decide (cfg_provider config = "openai-compatible")
  then inr (newOpenAICompatibleClient config)
  else inl ("Unsupported LLM provider: " +:+ cfg_provider config).

Definition getLLMClientFromEnv (env : ProcessEnv) : string + OpenAICompatibleClient :=
  let provider := orElse (LLM_PROVIDER env) "openai-compatible" in
  let apiKey := orElse (LLM_API_KEY env) EmptyString in
  let baseURL := orElse (LLM_BASE_URL env) "https://api.openai.com/v1" in
  let model := orElse (LLM_MODEL env) "gpt-4o-mini" in
  if decide (apiKey = EmptyString)
  then inl "LLM_API_KEY environment variable is required"
  else createLLMClient (mkConfig provider apiKey baseURL model).

(** * Specification vocabulary *)

(** Intermediate results of a merge: the node array after steps 1 and 3
    (the working node set the updates meet), after steps 1, 3 and 4 (the
    node set step 5 checks edges against), and the edge array after
    steps 1 and 2. *)
Definition nodesAfterAdd (state : GraphState) (delta : GraphDelta) : list GraphNode :=
  addNodesStep (addNodes delta)
    (removeNodesStep (removeNodeIds delta) (nodes state, edges state)).1.

Definition nodesAfterUpdate (state : GraphState) (delta : GraphDelta) : list GraphNode :=
  updateNodesStep (updateNodes delta) (nodesAfterAdd state delta).

Definition edgesAfterRemove (state : GraphState) (delta : GraphDelta) : list GraphEdge :=
  removeEdgesStep (removeEdgeIds delta)
    (removeNodesStep (removeNodeIds delta) (nodes state, edges state)).2.

(** [accept key ok seen news] lists, in order, the entries of [news] an
    append loop keeps: those that satisfy the condition [ok] and whose key is
    neither in [seen] nor the key of an entry kept earlier. *)
Section Accept.
Context {A : Type} (key : A → string) (ok : A → Prop) `{!∀ a, Decision (ok a)}.

Fixpoint accept (seen : gset string) (news : list A) : list A :=
  match news with
  | [] => []
  | a :: r =>
      if decide (ok a ∧ key a ∉ seen) then a :: accept ({[key a]} ∪ seen) r
      else accept seen r
  end.
End Accept.

(** The conditions of the two append loops: none for nodes, both endpoints
    among the node ids for edges. *)
Definition anyNode (_ : GraphNode) : Prop := True.

Definition endpointsIn (nodeIds : gset string) (e : GraphEdge) : Prop :=
  edge_source e ∈ nodeIds ∧ edge_target e ∈ nodeIds.

#[global] Instance anyNode_dec n : Decision (anyNode n).
Proof. unfold anyNode. apply _. Defined.
#[global] Instance endpointsIn_dec s e : Decision (endpointsIn s e).
Proof. unfold endpointsIn. apply _. Defined.

(** The filters of the removal steps. *)
Definition keepNode (rm : list string) (n : GraphNode) : Prop :=
  node_id n ∉ Set_of rm.
Definition keepEdgeOfNodes (rm : list string) (e : GraphEdge) : Prop :=
  edge_source e ∉ Set_of rm ∧ edge_target e ∉ Set_of rm.
Definition keepEdge (rm : list string) (e : GraphEdge) : Prop :=
  edge_id e ∉ Set_of rm.

#[global] Instance keepNode_dec rm n : Decision (keepNode rm n).
Proof. unfold keepNode. apply _. Defined.
#[global] Instance keepEdgeOfNodes_dec rm e : Decision (keepEdgeOfNodes rm e).
Proof. unfold keepEdgeOfNodes. apply _. Defined.
#[global] Instance keepEdge_dec rm e : Decision (keepEdge rm e).
Proof. unfold keepEdge. apply _. Defined.

(** The kept nodes, the accepted additions, the kept edges and the
    accepted edge additions of one merge. *)
Definition keptNodes (S : GraphState) (D : GraphDelta) : list GraphNode :=
  filter (keepNode (default [] (removeNodeIds D))) (nodes S).

Definition newNodes (S : GraphState) (D : GraphDelta) : list GraphNode :=
  accept node_id anyNode (Set_of (node_ids (keptNodes S D))) (default [] (addNodes D)).

Definition keptEdges (S : GraphState) (D : GraphDelta) : list GraphEdge :=
  filter (keepEdge (default [] (removeEdgeIds D)))
    (filter (keepEdgeOfNodes (default [] (removeNodeIds D))) (edges S)).

Definition newEdges (S : GraphState) (D : GraphDelta) : list GraphEdge :=
  accept edge_id (endpointsIn (Set_of (node_ids (keptNodes S D ++ newNodes S D))))
    (Set_of (edge_ids (keptEdges S D))) (default [] (addEdges D)).

(** Referential integrity: every edge's source and target are ids of
    nodes of the state. *)
Definition noDanglingEdges (S : GraphState) : Prop :=
  Forall (λ e, edge_source e ∈ node_ids (nodes S) ∧ edge_target e ∈ node_ids (nodes S))
    (edges S).

#[global] Instance noDanglingEdges_dec S : Decision (noDanglingEdges S).
Proof. unfold noDanglingEdges. apply _. Defined.

(** A delta with one operation list replaced. *)
Definition withAddNodes (D : GraphDelta) (l : list GraphNode) : GraphDelta :=
  mkDelta (Some l) (updateNodes D) (removeNodeIds D) (addEdges D) (removeEdgeIds D).

Definition withUpdateNodes (D : GraphDelta) (l : list NodeUpdate) : GraphDelta :=
  mkDelta (addNodes D) (Some l) (removeNodeIds D) (addEdges D) (removeEdgeIds D).

Definition withAddEdges (D : GraphDelta) (l : list GraphEdge) : GraphDelta :=
  mkDelta (addNodes D) (updateNodes D) (removeNodeIds D) (Some l) (removeEdgeIds D).

(** The node array after the removal step. *)
Definition nodesAfterRemove (S : GraphState) (D : GraphDelta) : list GraphNode :=
  (removeNodesStep (removeNodeIds D) (nodes S, edges S)).1.

(** One entry going into the update [Map]. *)
Definition putUpdate (m : gmap string NodeUpdate) (u : NodeUpdate)
    : gmap string NodeUpdate := <[upd_id u := u]> m.

(** [new ?? old] on an optional key of [data]. *)
Definition override {A} (new old : option A) : option A :=
  match new with Some v => Some v | None => old end.

(** The value an update supplies for a key of [data], if any. *)
Definition supplied {A} (u : NodeUpdate) (key : GraphNodeData → option A) : option A :=
  upd_data u ≫= key.

(** The point with integer coordinates [x] and [y]. *)
Definition pt (x y : Z) : Position :=
  {| pos_x := Number_of_Z x; pos_y := Number_of_Z y |}.

(** A zero of the number format: [+0] or [-0], equal as numbers. *)
Definition isZero (x : number) : Prop := ∃ s, x = S754_zero s.

#[global] Instance isZero_dec x : Decision (isZero x).
Proof.
  destruct x as [s| | |]; [left; by exists s|right..]; by intros [? ?].
Defined.

(** A position that is exactly (0,0), the sentinel for a node without
    a place. *)
Definition atOrigin (p : Position) : Prop := isZero (pos_x p) ∧ isZero (pos_y p).

#[global] Instance atOrigin_dec p : Decision (atOrigin p).
Proof. unfold atOrigin. apply _. Defined.

(** A value of the number format: the mantissa of a finite value fits
    the 53 bits and its exponent is in range. *)
Definition isNumber (x : number) : Prop := valid_binary 53 1024 x = true.

(** [0 < x] on numbers: positive and finite, or plus infinity. *)
Definition isPositive (x : number) : Prop :=
  x = S754_infinity false ∨ ∃ m e, x = S754_finite false m e.

(** A number that is zero, positive and finite, or plus infinity, and a
    number that is positive and finite, or plus infinity; the exponent
    of a finite one is at least [lo]. *)
Definition nonnegativeFrom (lo : Z) (x : number) : Prop :=
  x = S754_zero false ∨ x = S754_infinity false
  ∨ ∃ m e, x = S754_finite false m e ∧ (lo ≤ e)%Z.

Definition positiveFrom (lo : Z) (x : number) : Prop :=
  x = S754_infinity false ∨ ∃ m e, x = S754_finite false m e ∧ (lo ≤ e)%Z.

(** An integer that leaves room for the grid offsets below [2^53], where
    every integer is a number and sums of integers do not round. *)
Definition safe (z : Z) : Prop := (Z.abs z ≤ 2 ^ 52)%Z.

(** The grid cell of list index [i]: 4 columns, row-major, the offsets
    added to the start as numbers. *)
Definition gridPosition (startX startY : number) (i : nat) : Position :=
  {| pos_x := Number_add startX
                (Number_mul (Number_of_Z (Z.of_nat i mod 4)) (Number_of_Z 250));
     pos_y := Number_add startY
                (Number_mul (Number_of_Z (Z.of_nat i / 4)) (Number_of_Z 150)) |}.

(** The value of a number that is an integer: [± m * 2^e], when that is
    an integer. *)
Definition integerValue (x : number) : option Z :=
  match x with
  | S754_zero _ => Some 0%Z
  | S754_finite s m e =>
      let sign := (if s then -1 else 1)%Z in
      if decide (0 ≤ e)%Z then Some (sign * (Z.pos m * 2 ^ e))%Z
      else if decide (Z.pos m mod 2 ^ (- e) = 0)%Z
           then Some (sign * (Z.pos m / 2 ^ (- e)))%Z
           else None
  | _ => None
  end.

(** The node [m] sits at the integer height [y]. *)
Definition heightOf (m : GraphNode) (y : Z) : Prop :=
  pos_y (node_position m) = Number_of_Z y ∧ safe y.

(** The number of list positions holding an id seen before: the length
    minus the number of distinct ids. *)
Definition duplicates (ids : list string) : nat :=
  length ids - size (Set_of ids).

(** The edges whose source, or target, is not a node id. *)
Definition missingSources (S : GraphState) : list GraphEdge :=
  filter (λ e, edge_source e ∉ node_ids (nodes S)) (edges S).
Definition missingTargets (S : GraphState) : list GraphEdge :=
  filter (λ e, edge_target e ∉ node_ids (nodes S)) (edges S).

(** [s] is the decimal numeral of [n]: the digits that read back as
    [n], without a leading zero. *)
Definition numeral (s : string) (n : nat) : Prop :=
  NilZero.uint_of_string s = Some (Nat.to_uint n).

(** The sentence of one operation category, following the description:
    none when the category is absent or empty; otherwise the verb, the
    count as a decimal numeral, the noun and the names separated by
    [", "]. *)
Inductive sentenceOf {A} (verb noun : string) (name : A → string)
    : option (list A) → option string → Prop :=
  | sentence_absent : sentenceOf verb noun name None None
  | sentence_empty : sentenceOf verb noun name (Some []) None
  | sentence_listed a l count :
      numeral count (length (a :: l)) →
      sentenceOf verb noun name (Some (a :: l))
        (Some (verb +:+ count +:+ noun +:+ String.concat ", " (name <$> a :: l))).

(** The summary of a delta, following the description: the sentences of
    the five categories in the fixed order, those that exist joined
    with [". "] and closed by a full stop; the fixed sentence when there
    is none. *)
Definition summaryOf (delta : GraphDelta) (result : string) : Prop :=
  ∃ s1 s2 s3 s4 s5,
    sentenceOf "Added " " node(s): " nodeLabel (addNodes delta) s1
    ∧ sentenceOf "Updated " " node(s): " upd_id (updateNodes delta) s2
    ∧ sentenceOf "Removed " " node(s): " id (removeNodeIds delta) s3
    ∧ sentenceOf "Added " " edge(s): " edgeLabel (addEdges delta) s4
    ∧ sentenceOf "Removed " " edge(s): " id (removeEdgeIds delta) s5
    ∧ result =
        match omap id [s1; s2; s3; s4; s5] with
        | [] => "No changes were made to the graph."
        | parts => String.concat ". " parts +:+ "."
        end.

(** The double quote as a one-character string. *)
Definition quoteMark : string := String (Ascii.ascii_of_nat 34) EmptyString.

(** A delta with no operations: every category absent or empty. *)
Definition noOperations (delta : GraphDelta) : Prop :=
  present (addNodes delta) = None ∧ present (updateNodes delta) = None
  ∧ present (removeNodeIds delta) = None ∧ present (addEdges delta) = None
  ∧ present (removeEdgeIds delta) = None.

(** [sub] occurs in [s]. *)
Definition contains (s sub : string) : Prop :=
  ∃ before after, s = before +:+ sub +:+ after.

(** The code units of an ASCII string. *)
Definition units (s : string) : text :=
  (λ a, N.of_nat (Ascii.nat_of_ascii a)) <$> String.list_ascii_of_string s.

(** White space, by code unit: tab, line feed, vertical tab, form feed,
    carriage return, space, no-break space, the Unicode space
    separators, line and paragraph separator, and the byte order
    mark. *)
Definition whiteSpace : list N :=
  [9; 10; 11; 12; 13; 32; 160; 5760; 8192; 8193; 8194; 8195; 8196; 8197; 8198;
   8199; 8200; 8201; 8202; 8232; 8233; 8239; 8287; 12288; 65279]%N.

Definition blank (ws : text) : Prop := Forall (λ c, c ∈ whiteSpace) ws.

(** [t] is [s] without the white space around it. *)
Definition trimmed (s t : text) : Prop :=
  ∃ ws1 ws2, s = ws1 ++ t ++ ws2 ∧ blank ws1 ∧ blank ws2
    ∧ (∀ c, head t = Some c → c ∉ whiteSpace)
    ∧ (∀ c, last t = Some c → c ∉ whiteSpace).

(** The fence markers: three backticks, and three backticks followed by
    [json]. *)
Definition ticks : text := [96; 96; 96]%N.
Definition ticksJson : text := [96; 96; 96; 106; 115; 111; 110]%N.

(** One leading fence marker taken off, the annotated one first. *)
Inductive leadingFenceStripped : text → text → Prop :=
  | leading_json r : leadingFenceStripped (ticksJson ++ r) r
  | leading_bare r :
      ¬ ticksJson `prefix_of` ticks ++ r → leadingFenceStripped (ticks ++ r) r
  | leading_none s : ¬ ticks `prefix_of` s → leadingFenceStripped s s.

(** One trailing fence taken off. *)
Inductive trailingFenceStripped : text → text → Prop :=
  | trailing_fence r : trailingFenceStripped (r ++ ticks) r
  | trailing_none s : ¬ ticks `suffix_of` s → trailingFenceStripped s s.

(** The four cleaning steps of the description, in order. *)
Definition cleaned (response c : text) : Prop :=
  ∃ t1 t2 t3, trimmed response t1 ∧ leadingFenceStripped t1 t2
    ∧ trailingFenceStripped t2 t3 ∧ trimmed t3 c.

(** A state the integrity validator accepts: no repeated node id, no
    repeated edge id, no dangling edge. *)
Definition validState (S : GraphState) : Prop :=
  NoDup (node_ids (nodes S)) ∧ NoDup (edge_ids (edges S)) ∧ noDanglingEdges S.

(** An edge the two removal steps of a delta leave in place. *)
Definition survives (D : GraphDelta) (e : GraphEdge) : Prop :=
  edge_id e ∉ default [] (removeEdgeIds D)
  ∧ edge_source e ∉ default [] (removeNodeIds D)
  ∧ edge_target e ∉ default [] (removeNodeIds D).

(** Everything of a node but its position. *)
Definition nodeContent (n : GraphNode) : string * NodeKind * string * GraphNodeData :=
  (node_id n, node_kind n, node_label n, node_data n).

(** The empty graph of the default project, stamped [now]. *)
Definition emptyGraph (now : string) : GraphState :=
  mkState [] [] (mkMeta "default-project" now).

(** What the adapter reads under the graph key. *)
Definition storedData (w : World) : option string :=
  if window_defined (browser w) then
    match localStorage (browser w) with
    | Some m => m !! STORAGE_KEY
    | None => inMemoryStorage w !! STORAGE_KEY
    end
  else inMemoryStorage w !! STORAGE_KEY.

(** Proof steps for goals that decide an order from known bounds. *)
Ltac order_by_compare :=
  match goal with
  | |- _ = (?x ?= ?y)%Z => destruct (Z.compare_spec x y); first [done|lia]
  end.

Ltac order_by_compare_goal :=
  match goal with
  | |- (?x ?= ?y)%Z = _ => destruct (Z.compare_spec x y); first [done|nia]
  end.

(** * Sample states, deltas and responses *)

Definition state_a_dangling : GraphState :=
  mkState [] [mkEdge "e1" "x" "y" calls None] (mkMeta "p" "t0").

Definition state_ab : GraphState :=
  mkState
    [mkNode "a" service "A" (pt 10 20) (mkData None None None None);
     mkNode "b" db "B" (pt 0 0) (mkData (Some "store") None None None)]
    [mkEdge "e1" "a" "b" queries None]
    (mkMeta "p" "t0").

Definition delta_remove_b_add_c : GraphDelta :=
  mkDelta
    (Some [mkNode "c" queue "C" (pt 0 0) (mkData None None None None)])
    None (Some ["b"])
    (Some [mkEdge "e2" "a" "c" publishes None; mkEdge "e3" "c" "b" calls None])
    None.

Definition delta_add_a_twice : GraphDelta :=
  mkDelta
    (Some [mkNode "c" queue "C" (pt 0 0) (mkData None None None None);
           mkNode "a" api "other A" (pt 5 5) (mkData (Some "dup") None None None);
           mkNode "c" db "other C" (pt 7 7) (mkData None None None None)])
    None None None None.

Definition delta_edges_mixed : GraphDelta :=
  mkDelta
    (Some [mkNode "c" queue "C" (pt 0 0) (mkData None None None None)])
    None None
    (Some [mkEdge "e2" "a" "c" publishes None;
           mkEdge "e3" "a" "zzz" calls None;
           mkEdge "e1" "b" "a" depends_on None;
           mkEdge "e4" "c" "b" consumes None])
    None.

Definition update_a_label : NodeUpdate :=
  mkUpdate "a" (Some "A2") None (Some (mkData None (Some ["run"]) None None)).
Definition update_a_kind : NodeUpdate := mkUpdate "a" None (Some api) None.
Definition update_missing : NodeUpdate := mkUpdate "nope" (Some "N") (Some db) None.

Definition delta_replace_b : GraphDelta :=
  mkDelta
    (Some [mkNode "b" module "B2" (pt 3 4) (mkData None None None None);
           mkNode "c" queue "C" (pt 0 0) (mkData None None None None)])
    (Some [mkUpdate "a" (Some "A2") None None])
    (Some ["b"])
    (Some [mkEdge "e1" "a" "b" calls None; mkEdge "e5" "c" "b" consumes None])
    (Some ["e5"]).

(** An unpositioned node: position (0,0), no data. *)
Definition nd0 (i : string) : GraphNode :=
  mkNode i service i (pt 0 0) (mkData None None None None).

Definition state_broken : GraphState :=
  mkState [nd0 "a"; nd0 "b"; nd0 "a"]
    [mkEdge "e1" "a" "b" calls None; mkEdge "e1" "b" "x" calls None;
     mkEdge "e2" "y" "z" queries None]
    (mkMeta "p" "t0").

Definition delta_add_x : GraphDelta :=
  mkDelta (Some [mkNode "x" service "X" (pt 0 0) (mkData None None None None)])
    None None None None.

(** The texts of the two scenarios. *)
Definition jsonAddNodes : text :=
  units ("{" +:+ quoteMark +:+ "addNodes" +:+ quoteMark +:+ ":[]}").
Definition scenarioD : text :=
  units "```json" ++ [10%N] ++ jsonAddNodes ++ [10%N] ++ units "```".
Definition scenarioE : text :=
  units "Sure! Here's the delta: " ++ jsonAddNodes ++ units " Hope that helps!".

(** A stand-in for the two library functions that knows the one JSON
    text of the scenarios. *)
Definition toyJSON_parse (s : text) : option unit :=
  if decide (s = jsonAddNodes) then Some tt else None.

Definition toySafeParse (_ : unit) : string + GraphDelta :=
  inr (mkDelta (Some []) None None None None).

(** A state over the node cap: 60 nodes [n0] .. [n59] and three edges,
    one of them into the part that is cut. *)
Definition state_sixty : GraphState :=
  mkState ((λ i, nd0 ("n" +:+ NilZero.string_of_uint (Nat.to_uint i))) <$> seq 0 60)
    [mkEdge "e1" "n0" "n1" calls None;
     mkEdge "e2" "n0" "n55" calls None;
     mkEdge "e3" "n49" "n2" queries None]
    (mkMeta "p" "t0").

(** Two nodes under one id, at different places. *)
Definition state_twins : GraphState :=
  mkState
    [mkNode "a" service "A" (pt 1 1) (mkData None None None None);
     mkNode "a" service "A" (pt 2 2) (mkData None None None None)]
    [] (mkMeta "p" "t0").

(** A browser with working storage that holds a foreign key, and one
    whose storage throws. *)
Definition browser_ok : Browser :=
  mkBrowser true (Some (<["theme" := "dark"]> ∅)).
Definition browser_blocked : Browser := mkBrowser true None.

(** Stand-ins for [JSON.stringify] and [JSON.parse] on graph states
    that know one state. *)
Definition toyStringify (_ : GraphState) : string := "state_ab".
Definition toyParseState (s : string) : option GraphState :=
  if decide (s = "state_ab") then Some state_ab else None.

(** An environment with a key and a base address that ends in a slash. *)
Definition env_local : ProcessEnv :=
  mkEnv None (Some "sk-test") (Some "http://localhost:11434/v1/") (Some "").

(** * Properties *)

(** ** Numbers *)

Section NumberFacts.
Local Open Scope Z_scope.

(** *** Rounding a value the format holds is exact *)

Lemma fexp64 e : fexp 53 1024 e = Z.max (e - 53) (-1074).
Proof. reflexivity. Qed.

Lemma digits2_log2 m : Z.pos (digits2_pos m) = Z.log2 (Z.pos m) + 1.
Proof.
  assert (∀ p, digits2_pos p = Pos.size p) as Hs.
  { induction p as [p IH|p IH|]; simpl; by rewrite ?IH. }
  destruct m as [p|p|]; simpl; rewrite ?Hs; lia.
Qed.

Lemma log2_scaled m M k :
  0 ≤ k → Z.pos m = Z.pos M * 2 ^ k → Z.log2 (Z.pos m) = Z.log2 (Z.pos M) + k.
Proof. intros Hk ->. rewrite Z.log2_mul_pow2; lia. Qed.

Lemma iter_pos_nat {A} (f : A → A) p x :
  SpecFloat.iter_pos f p x = Nat.iter (Pos.to_nat p) f x.
Proof.
  revert x. induction p as [p IH|p IH|]; intros x.
  - rewrite Pos2Nat.inj_xI. cbn [SpecFloat.iter_pos]. rewrite !IH.
    replace (S (2 * Pos.to_nat p)) with (Pos.to_nat p + (Pos.to_nat p + 1))%nat by lia.
    rewrite !Nat.iter_add. done.
  - rewrite Pos2Nat.inj_xO. cbn [SpecFloat.iter_pos]. rewrite !IH.
    replace (2 * Pos.to_nat p)%nat with (Pos.to_nat p + Pos.to_nat p)%nat by lia.
    by rewrite Nat.iter_add.
  - done.
Qed.

Lemma shr_exact_nat k m M :
  Z.pos m = Z.pos M * 2 ^ Z.of_nat k →
  Nat.iter k shr_1 (Build_shr_record (Z.pos m) false false)
  = Build_shr_record (Z.pos M) false false.
Proof.
  revert m. induction k as [|k IH]; intros m Hm.
  - simpl in *. f_equal. lia.
  - rewrite Nat.iter_succ_r.
    rewrite Nat2Z.inj_succ Z.pow_succ_r in Hm; [|lia].
    destruct m as [p|p|]; [lia| |lia].
    simpl. apply IH. lia.
Qed.

Lemma shr_exact m M e k :
  0 ≤ k → Z.pos m = Z.pos M * 2 ^ k →
  shr (Build_shr_record (Z.pos m) false false) e k
  = (Build_shr_record (Z.pos M) false false, e + k).
Proof.
  intros Hk Hm. unfold shr. destruct k as [|p|p]; [| |lia].
  - rewrite Z.add_0_r. repeat f_equal. simpl in Hm. lia.
  - f_equal. rewrite iter_pos_nat. apply shr_exact_nat.
    by rewrite positive_nat_Z.
Qed.

(** A mantissa that needs [k] exact right shifts to reach a canonical one. *)
Lemma binary_round_aux_exact s m M e k :
  0 ≤ k → Z.pos m = Z.pos M * 2 ^ k →
  fexp 53 1024 (Z.pos (digits2_pos M) + (e + k)) = e + k → e + k ≤ 971 →
  binary_round_aux 53 1024 s (Z.pos m) e loc_Exact = S754_finite s M (e + k).
Proof.
  intros Hk Hm Hc Hmax. unfold binary_round_aux, shr_fexp. simpl Zdigits2.
  assert (Z.pos (digits2_pos m) + e = Z.pos (digits2_pos M) + (e + k)) as ->.
  { rewrite !digits2_log2 (log2_scaled m M k) //. lia. }
  rewrite Hc. replace (e + k - e) with k by lia.
  cbn [shr_record_of_loc]. rewrite (shr_exact m M e k) //.
  cbn [shr_m loc_of_shr_record round_nearest_even Zdigits2].
  rewrite Hc Z.sub_diag. cbn [shr shr_record_of_loc shr_m].
  by rewrite (proj2 (Z.leb_le _ _)).
Qed.

Lemma iter_xO m d : Z.pos (Pos.iter xO m d) = Z.pos m * 2 ^ Z.pos d.
Proof.
  induction d as [|d IH] using Pos.peano_ind.
  - simpl. lia.
  - rewrite Pos.iter_succ Pos2Z.inj_xO IH Pos2Z.inj_succ Z.pow_succ_r; lia.
Qed.

Lemma shl_align_spec m e t :
  ∃ m', shl_align m e t = (m', Z.min e t) ∧ Z.pos m' = Z.pos m * 2 ^ (e - Z.min e t).
Proof.
  unfold shl_align. destruct (t - e) as [|d|d] eqn:Hd.
  - exists m. replace (Z.min e t) with e by lia. rewrite Z.sub_diag. split; [done|lia].
  - exists m. replace (Z.min e t) with e by lia. rewrite Z.sub_diag. split; [done|lia].
  - exists (Pos.iter xO m d). replace (Z.min e t) with t by lia.
    split; [done|]. rewrite iter_xO. f_equal. f_equal. lia.
Qed.

Lemma pow2_cancel a b k : 0 ≤ k → a * 2 ^ k = b * 2 ^ k → a = b.
Proof. intros Hk H. apply Z.mul_reg_r in H; [done|]. apply Z.pow_nonzero; lia. Qed.

(** Rounding a value that a canonical pair represents gives that pair. *)
Lemma binary_round_exact s m e M E :
  fexp 53 1024 (Z.pos (digits2_pos M) + E) = E → E ≤ 971 →
  Z.pos m * 2 ^ (e - Z.min e E) = Z.pos M * 2 ^ (E - Z.min e E) →
  binary_round 53 1024 s m e = S754_finite s M E.
Proof.
  intros Hc Hmax Hv. unfold binary_round.
  assert (Z.pos (digits2_pos m) + e = Z.pos (digits2_pos M) + E) as ->.
  { rewrite !digits2_log2.
    assert (Z.log2 (Z.pos m * 2 ^ (e - Z.min e E)) = Z.log2 (Z.pos M * 2 ^ (E - Z.min e E)))
      as Hl by by rewrite Hv.
    rewrite !Z.log2_mul_pow2 in Hl; lia. }
  rewrite Hc.
  destruct (shl_align_spec m e E) as (m' & -> & Hm').
  destruct (Z.le_ge_cases e E) as [HeE|HeE].
  - replace (Z.min e E) with e in * by lia. rewrite Z.sub_diag Z.mul_1_r in Hv.
    rewrite Z.sub_diag Z.mul_1_r in Hm'. injection Hm' as ->.
    rewrite (binary_round_aux_exact s m M e (E - e)); try lia;
      by replace (e + (E - e)) with E by lia.
  - replace (Z.min e E) with E in * by lia. rewrite Z.sub_diag Z.mul_1_r in Hv.
    rewrite (binary_round_aux_exact s m' M E 0); try lia;
      by rewrite Z.add_0_r.
Qed.

Lemma log2_below z : 0 < z → z < 2 ^ 53 → 0 ≤ Z.log2 z ≤ 52.
Proof.
  intros Hz Hlt. split; [apply Z.log2_nonneg|].
  apply Z.log2_lt_pow2 in Hlt; lia.
Qed.

(** The canonical pair of a non-zero integer below [2^53] in magnitude. *)
Lemma Number_of_Z_repr z :
  z ≠ 0 → Z.abs z < 2 ^ 53 →
  ∃ M E, Number_of_Z z = S754_finite (z <? 0) M E
    ∧ Z.pos M = Z.abs z * 2 ^ (- E) ∧ E = Z.log2 (Z.abs z) - 52
    ∧ fexp 53 1024 (Z.pos (digits2_pos M) + E) = E.
Proof.
  intros Hz Hlt.
  pose proof (log2_below (Z.abs z) ltac:(lia) Hlt) as Hl.
  set (E := Z.log2 (Z.abs z) - 52).
  assert (0 < Z.abs z * 2 ^ (- E)) as Hpos.
  { apply Z.mul_pos_pos; [lia|]. apply Z.pow_pos_nonneg; lia. }
  destruct (Z.abs z * 2 ^ (- E)) as [|M|M] eqn:HM; [lia| |lia].
  assert (fexp 53 1024 (Z.pos (digits2_pos M) + E) = E) as Hc.
  { rewrite digits2_log2 -HM Z.log2_mul_pow2; [|lia|lia]. rewrite fexp64. lia. }
  exists M, E. split; [|done].
  assert (∀ s p, Z.pos p = Z.abs z →
            binary_round 53 1024 s p 0 = S754_finite s M E) as Hr.
  { intros s p Hp. apply binary_round_exact; [done|lia|].
    replace (Z.min 0 E) with E by lia. rewrite Z.sub_diag Z.mul_1_r Z.sub_0_l.
    rewrite Hp. done. }
  unfold Number_of_Z, binary_normalize. destruct z as [|p|p]; [done| |].
  - rewrite (Hr false p) //.
  - rewrite (Hr true p) //.
Qed.

Lemma Number_of_Z_0 : Number_of_Z 0 = S754_zero false.
Proof. reflexivity. Qed.

(** The same integer held with [k] more binary places. *)
Lemma normalize_scaled z k :
  0 ≤ k → Z.abs z < 2 ^ 53 →
  binary_normalize 53 1024 (z * 2 ^ k) (- k) false = Number_of_Z z.
Proof.
  intros Hk Hlt. destruct (decide (z = 0)) as [->|Hz]; [done|].
  destruct (Number_of_Z_repr z Hz Hlt) as (M & E & -> & HM & HE & Hc).
  pose proof (log2_below (Z.abs z) ltac:(lia) Hlt) as Hl.
  assert (0 < 2 ^ k) as Hp by (apply Z.pow_pos_nonneg; lia).
  assert (∀ s p, Z.pos p = Z.abs z * 2 ^ k →
            binary_round 53 1024 s p (- k) = S754_finite s M E) as Hr.
  { intros s p Hp'. apply binary_round_exact; [done|lia|].
    rewrite Hp' HM -!Z.mul_assoc -!Z.pow_add_r; try lia.
    f_equal. f_equal. lia. }
  unfold binary_normalize.
  destruct (z * 2 ^ k) as [|p|p] eqn:Hzk.
  - apply Z.mul_eq_0 in Hzk. lia.
  - assert (0 < z) by nia. rewrite (Hr false p); [|nia].
    rewrite (proj2 (Z.ltb_ge _ _)); [done|lia].
  - assert (z < 0) by nia. rewrite (Hr true p); [|nia].
    rewrite (proj2 (Z.ltb_lt _ _)); [done|lia].
Qed.

(** Sums of integers are exact while they stay below [2^53]. *)
Lemma Number_add_exact a b :
  Z.abs a < 2 ^ 53 → Z.abs b < 2 ^ 53 → Z.abs (a + b) < 2 ^ 53 →
  Number_add (Number_of_Z a) (Number_of_Z b) = Number_of_Z (a + b).
Proof.
  intros Ha Hb Hab.
  destruct (decide (a = 0)) as [->|Hna].
  { rewrite Z.add_0_l. destruct (decide (b = 0)) as [->|Hnb]; [done|].
    by destruct (Number_of_Z_repr b Hnb Hb) as (M & E & -> & _). }
  destruct (decide (b = 0)) as [->|Hnb].
  { rewrite Z.add_0_r. by destruct (Number_of_Z_repr a Hna Ha) as (M & E & -> & _). }
  destruct (Number_of_Z_repr a Hna Ha) as (Ma & Ea & -> & HMa & HEa & _).
  destruct (Number_of_Z_repr b Hnb Hb) as (Mb & Eb & -> & HMb & HEb & _).
  pose proof (log2_below (Z.abs a) ltac:(lia) Ha).
  pose proof (log2_below (Z.abs b) ltac:(lia) Hb).
  unfold Number_add, SFadd.
  destruct (shl_align_spec Ma Ea (Z.min Ea Eb)) as (ma & -> & Hma).
  destruct (shl_align_spec Mb Eb (Z.min Ea Eb)) as (mb & -> & Hmb).
  cbn [fst].
  set (ez := Z.min Ea Eb) in *.
  replace (Z.min Ea ez) with ez in Hma by lia.
  replace (Z.min Eb ez) with ez in Hmb by lia.
  assert (Z.pos ma = Z.abs a * 2 ^ (- ez)) as Hma'.
  { rewrite Hma HMa -Z.mul_assoc -Z.pow_add_r; try lia. f_equal. f_equal. lia. }
  assert (Z.pos mb = Z.abs b * 2 ^ (- ez)) as Hmb'.
  { rewrite Hmb HMb -Z.mul_assoc -Z.pow_add_r; try lia. f_equal. f_equal. lia. }
  assert (cond_Zopp (a <? 0) (Z.pos ma) + cond_Zopp (b <? 0) (Z.pos mb)
          = (a + b) * 2 ^ (- ez)) as ->.
  { rewrite Hma' Hmb'. unfold cond_Zopp.
    destruct (Z.ltb_spec a 0), (Z.ltb_spec b 0); lia. }
  rewrite -{2}(Z.opp_involutive ez). apply normalize_scaled; lia.
Qed.

(** Products of non-negative integers are exact below [2^53]. *)
Lemma Number_mul_exact a b :
  0 ≤ a < 2 ^ 53 → 0 ≤ b < 2 ^ 53 → a * b < 2 ^ 53 →
  Number_mul (Number_of_Z a) (Number_of_Z b) = Number_of_Z (a * b).
Proof.
  intros [Ha Ha2] [Hb Hb2] Hab.
  destruct (decide (a = 0)) as [->|Hna].
  { rewrite Z.mul_0_l. destruct (decide (b = 0)) as [->|Hnb]; [done|].
    assert (Z.abs b < 2 ^ 53) as Hb' by lia.
    destruct (Number_of_Z_repr b Hnb Hb') as (M & E & -> & _).
    rewrite (proj2 (Z.ltb_ge _ _)); [done|lia]. }
  destruct (decide (b = 0)) as [->|Hnb].
  { rewrite Z.mul_0_r.
    assert (Z.abs a < 2 ^ 53) as Ha' by lia.
    destruct (Number_of_Z_repr a Hna Ha') as (M & E & -> & _).
    rewrite (proj2 (Z.ltb_ge _ _)); [done|lia]. }
  assert (Z.abs a < 2 ^ 53) as Ha' by lia.
  assert (Z.abs b < 2 ^ 53) as Hb' by lia.
  destruct (Number_of_Z_repr a Hna Ha') as (Ma & Ea & -> & HMa & HEa & _).
  destruct (Number_of_Z_repr b Hnb Hb') as (Mb & Eb & -> & HMb & HEb & _).
  assert (a * b ≠ 0) as Hnab by nia.
  assert (Z.abs (a * b) < 2 ^ 53) as Hab' by nia.
  destruct (Number_of_Z_repr (a * b) Hnab Hab') as (M & E & -> & HM & HE & Hc).
  pose proof (log2_below (Z.abs a) ltac:(lia) Ha').
  pose proof (log2_below (Z.abs b) ltac:(lia) Hb').
  pose proof (log2_below (Z.abs (a * b)) ltac:(nia) ltac:(nia)).
  pose proof (Z.log2_mul_below a b ltac:(lia) ltac:(lia)) as Hbelow.
  rewrite !(proj2 (Z.ltb_ge _ _)); [|nia|lia|lia].
  assert (Z.abs a = a) as Haa by lia.
  assert (Z.abs b = b) as Hbb by lia.
  assert (Z.abs (a * b) = a * b) as Hcc by nia.
  rewrite ?Haa ?Hbb ?Hcc in HMa, HMb, HM, HEa, HEb, HE, H, H0, H1.
  unfold Number_mul, SFmul. cbn [xorb].
  rewrite (binary_round_aux_exact false (Ma * Mb) M (Ea + Eb) (E - (Ea + Eb))).
  - by replace (Ea + Eb + (E - (Ea + Eb))) with E by lia.
  - lia.
  - assert (2 ^ (- E) * 2 ^ (E - (Ea + Eb)) = 2 ^ (- Ea) * 2 ^ (- Eb)) as Hp.
    { rewrite -!Z.pow_add_r; try lia. f_equal. lia. }
    rewrite Pos2Z.inj_mul HMa HMb HM.
    transitivity (a * b * (2 ^ (- E) * 2 ^ (E - (Ea + Eb)))); [|ring].
    rewrite Hp. ring.
  - by replace (Ea + Eb + (E - (Ea + Eb))) with E by lia.
  - lia.
Qed.

(** Different integers below [2^53] are different numbers. *)
Lemma Number_of_Z_inj a b :
  Z.abs a < 2 ^ 53 → Z.abs b < 2 ^ 53 → Number_of_Z a = Number_of_Z b → a = b.
Proof.
  intros Ha Hb Heq.
  destruct (decide (a = 0)) as [->|Hna].
  { destruct (decide (b = 0)) as [->|Hnb]; [done|].
    by destruct (Number_of_Z_repr b Hnb Hb) as (M & E & Hr & _); rewrite Hr in Heq. }
  destruct (decide (b = 0)) as [->|Hnb].
  { by destruct (Number_of_Z_repr a Hna Ha) as (M & E & Hr & _); rewrite Hr in Heq. }
  destruct (Number_of_Z_repr a Hna Ha) as (Ma & Ea & Hra & HMa & HEa & _).
  destruct (Number_of_Z_repr b Hnb Hb) as (Mb & Eb & Hrb & HMb & HEb & _).
  rewrite Hra Hrb in Heq. injection Heq as Hs HM HE. subst Mb.
  pose proof (log2_below (Z.abs a) ltac:(lia) Ha).
  assert (Z.abs a = Z.abs b) as Habs.
  { apply (pow2_cancel _ _ (- Ea)); [lia|]. rewrite -HMa HMb. by rewrite HE. }
  destruct (Z.ltb_spec a 0), (Z.ltb_spec b 0); try done; lia.
Qed.

(** The number of an integer below [2^53] has that integer as its value. *)
Lemma integerValue_of_Z z :
  Z.abs z < 2 ^ 53 → integerValue (Number_of_Z z) = Some z.
Proof.
  intros Hz. destruct (decide (z = 0)) as [->|Hnz]; [done|].
  destruct (Number_of_Z_repr z Hnz Hz) as (M & E & -> & HM & HE & _).
  pose proof (log2_below (Z.abs z) ltac:(lia) Hz) as Hl.
  assert (0 < 2 ^ (- E)) as Hp by (apply Z.pow_pos_nonneg; lia).
  unfold integerValue. destruct (decide (0 ≤ E)) as [H0|Hneg].
  - assert (E = 0) as -> by lia. simpl in HM. f_equal.
    destruct (Z.ltb_spec z 0); lia.
  - destruct (decide (Z.pos M mod 2 ^ (- E) = 0)) as [_|Hn].
    + rewrite HM Z.div_mul; [|lia]. f_equal. destruct (Z.ltb_spec z 0); lia.
    + destruct Hn. rewrite HM. apply Z.mod_mul. lia.
Qed.

(** Comparing integers as numbers. *)
Lemma SFcompare_of_Z a b :
  Z.abs a < 2 ^ 53 → Z.abs b < 2 ^ 53 →
  SFcompare (Number_of_Z a) (Number_of_Z b) = Some (a ?= b).
Proof.
  intros Ha Hb.
  destruct (decide (a = 0)) as [->|Hna].
  { destruct (decide (b = 0)) as [->|Hnb]; [done|].
    destruct (Number_of_Z_repr b Hnb Hb) as (M & E & -> & _).
    rewrite Number_of_Z_0. cbn [SFcompare]. f_equal.
    destruct (Z.ltb_spec b 0); order_by_compare. }
  destruct (decide (b = 0)) as [->|Hnb].
  { destruct (Number_of_Z_repr a Hna Ha) as (M & E & -> & _).
    rewrite Number_of_Z_0. cbn [SFcompare]. f_equal.
    destruct (Z.ltb_spec a 0); order_by_compare. }
  destruct (Number_of_Z_repr a Hna Ha) as (Ma & Ea & -> & HMa & HEa & _).
  destruct (Number_of_Z_repr b Hnb Hb) as (Mb & Eb & -> & HMb & HEb & _).
  pose proof (log2_below (Z.abs a) ltac:(lia) Ha) as Hla.
  pose proof (log2_below (Z.abs b) ltac:(lia) Hb) as Hlb.
  assert (Ea < Eb → Z.abs a < Z.abs b) as Hlt.
  { intros H. apply Z.log2_lt_cancel. lia. }
  assert (Eb < Ea → Z.abs b < Z.abs a) as Hgt.
  { intros H. apply Z.log2_lt_cancel. lia. }
  assert (Ea = Eb → (Ma ?= Mb)%positive = (Z.abs a ?= Z.abs b)) as Heq.
  { intros H. rewrite Pos2Z.inj_compare HMa HMb H.
    assert (0 < 2 ^ (- Eb)) as Hp by (apply Z.pow_pos_nonneg; lia).
    destruct (Z.compare_spec (Z.abs a) (Z.abs b)); order_by_compare_goal. }
  cbn [SFcompare]. f_equal.
  destruct (Z.ltb_spec a 0) as [Hsa|Hsa], (Z.ltb_spec b 0) as [Hsb|Hsb].
  - destruct (Z.compare_spec Ea Eb) as [He|He|He].
    + change (Pos.compare_cont Eq Ma Mb) with (Ma ?= Mb)%positive.
      rewrite Heq //. destruct (Z.compare_spec (Z.abs a) (Z.abs b)); simpl; order_by_compare.
    + specialize (Hlt He). order_by_compare.
    + specialize (Hgt He). order_by_compare.
  - order_by_compare.
  - order_by_compare.
  - destruct (Z.compare_spec Ea Eb) as [He|He|He].
    + change (Pos.compare_cont Eq Ma Mb) with (Ma ?= Mb)%positive.
      rewrite Heq //. destruct (Z.compare_spec (Z.abs a) (Z.abs b)); order_by_compare.
    + specialize (Hlt He). order_by_compare.
    + specialize (Hgt He). order_by_compare.
Qed.

Lemma SFltb_of_Z a b :
  Z.abs a < 2 ^ 53 → Z.abs b < 2 ^ 53 →
  SFltb (Number_of_Z a) (Number_of_Z b) = (a <? b).
Proof. intros Ha Hb. unfold SFltb. by rewrite SFcompare_of_Z. Qed.

(** *** Rounding never loses a positive mantissa *)

Lemma shr_1_m r : 0 ≤ shr_m r → shr_m (shr_1 r) = Z.div2 (shr_m r).
Proof. destruct r as [[|[p|p|]|p] ? ?]; simpl; try done; lia. Qed.

Lemma shr_nat_ge k r :
  2 ^ Z.of_nat k ≤ shr_m r → 1 ≤ shr_m (Nat.iter k shr_1 r).
Proof.
  revert r. induction k as [|k IH]; intros r Hr; [simpl in *; lia|].
  rewrite Nat.iter_succ_r. apply IH.
  rewrite Nat2Z.inj_succ Z.pow_succ_r in Hr; [|lia].
  assert (0 < 2 ^ Z.of_nat k) by (apply Z.pow_pos_nonneg; lia).
  rewrite shr_1_m; [|lia]. rewrite Z.div2_div.
  apply Z.div_le_lower_bound; lia.
Qed.

Lemma shr_record_of_loc_m m l : shr_m (shr_record_of_loc m l) = m.
Proof. by destruct l as [|[]]. Qed.

Lemma shr_fexp_pos m e l :
  1 ≤ m → -1074 ≤ e →
  ∃ r e', shr_fexp 53 1024 m e l = (r, e') ∧ 1 ≤ shr_m r ∧ e ≤ e'.
Proof.
  intros Hm He. destruct m as [|p|p]; [lia| |lia].
  unfold shr_fexp, shr. simpl Zdigits2. rewrite fexp64 digits2_log2.
  pose proof (Z.log2_spec (Z.pos p) ltac:(lia)) as [Hlo _].
  pose proof (Z.log2_nonneg (Z.pos p)) as Hnn.
  destruct (Z.max (Z.log2 (Z.pos p) + 1 + e - 53) (-1074) - e) as [|q|q] eqn:Hq.
  - eexists _, _. split; [done|]. rewrite shr_record_of_loc_m. lia.
  - eexists _, _. split; [done|]. split; [|lia].
    rewrite iter_pos_nat. apply shr_nat_ge.
    rewrite shr_record_of_loc_m positive_nat_Z.
    etrans; [|exact Hlo]. apply Z.pow_le_mono_r; lia.
  - eexists _, _. split; [done|]. rewrite shr_record_of_loc_m. lia.
Qed.

Lemma round_nearest_even_ge m l : m ≤ round_nearest_even m l.
Proof. destruct l as [|[]]; simpl; try lia. destruct (Z.even m); lia. Qed.

Lemma binary_round_aux_shape s m e l :
  1 ≤ m → -1074 ≤ e →
  binary_round_aux 53 1024 s m e l = S754_infinity s
  ∨ ∃ m' e', binary_round_aux 53 1024 s m e l = S754_finite s m' e' ∧ e ≤ e'.
Proof.
  intros Hm He. unfold binary_round_aux.
  destruct (shr_fexp_pos m e l Hm He) as (r & e' & -> & Hr & He').
  pose proof (round_nearest_even_ge (shr_m r) (loc_of_shr_record r)) as Hge.
  destruct (shr_fexp_pos (round_nearest_even (shr_m r) (loc_of_shr_record r)) e' loc_Exact)
    as (r2 & e2 & -> & Hr2 & He2); [lia|lia|].
  destruct (shr_m r2) as [|p|p]; [lia| |lia].
  destruct (e2 <=? 1024 - 53); [right|by left].
  exists p, e2. split; [done|lia].
Qed.

Lemma binary_round_shape s m e :
  -1074 ≤ e →
  binary_round 53 1024 s m e = S754_infinity s
  ∨ ∃ m' e', binary_round 53 1024 s m e = S754_finite s m' e'
      ∧ Z.min e (fexp 53 1024 (Z.pos (digits2_pos m) + e)) ≤ e'.
Proof.
  intros He. unfold binary_round.
  destruct (shl_align_spec m e (fexp 53 1024 (Z.pos (digits2_pos m) + e)))
    as (m' & -> & _).
  apply binary_round_aux_shape; [lia|]. rewrite fexp64. lia.
Qed.

Lemma Number_of_Z_nonnegative z : 0 ≤ z → nonnegativeFrom (-52) (Number_of_Z z).
Proof.
  intros Hz. destruct z as [|p|p]; [by left| |lia].
  right. unfold Number_of_Z, binary_normalize.
  destruct (binary_round_shape false p 0) as [->|(m & e & -> & He)]; [lia|by left|].
  right. exists m, e. split; [done|]. rewrite fexp64 digits2_log2 in He.
  pose proof (Z.log2_nonneg (Z.pos p)). lia.
Qed.

Lemma Number_mul_nonnegative x M E :
  nonnegativeFrom (-52) x → -52 ≤ E →
  nonnegativeFrom (-1074) (Number_mul x (S754_finite false M E)).
Proof.
  intros [->|[->|(m & e & -> & He)]] HE; [by left|by right; left|].
  unfold Number_mul, SFmul. cbn [xorb].
  destruct (binary_round_aux_shape false (Z.pos (m * M)) (e + E) loc_Exact)
    as [->|(m' & e' & -> & He')]; [lia|lia|by right; left|].
  right. right. exists m', e'. split; [done|lia].
Qed.

Lemma Number_add_positive x y :
  positiveFrom (-1074) x → nonnegativeFrom (-1074) y →
  positiveFrom (-1074) (Number_add x y).
Proof.
  intros [->|(mx & ex & -> & Hx)] [->|[->|(my & ey & -> & Hy)]];
    try (by left); try (right; by exists mx, ex).
  unfold Number_add, SFadd. cbn [cond_Zopp].
  destruct (shl_align_spec mx ex (Z.min ex ey)) as (ma & -> & _).
  destruct (shl_align_spec my ey (Z.min ex ey)) as (mb & -> & _).
  cbn [fst]. change (Z.pos ma + Z.pos mb) with (Z.pos (ma + mb)).
  cbn [binary_normalize].
  destruct (binary_round_shape false (ma + mb) (Z.min ex ey))
    as [->|(m' & e' & -> & He')]; [lia|by left|].
  right. exists m', e'. split; [done|]. rewrite fexp64 in He'. lia.
Qed.

Lemma Number_of_Z_shape z :
  Z.abs z < 2 ^ 53 →
  Number_of_Z z = S754_zero false ∨ ∃ s M E, Number_of_Z z = S754_finite s M E.
Proof.
  intros Hz. destruct (decide (z = 0)) as [->|Hnz]; [by left|].
  destruct (Number_of_Z_repr z Hnz Hz) as (M & E & -> & _). right. by eexists _, _, _.
Qed.

Lemma Math_max_step_of_Z a b :
  Z.abs a < 2 ^ 53 → Z.abs b < 2 ^ 53 →
  Math_max_step (Number_of_Z a) (Number_of_Z b) = Number_of_Z (Z.max a b).
Proof.
  intros Ha Hb.
  assert (Math_max_step (Number_of_Z a) (Number_of_Z b)
          = if Number_lt (Number_of_Z a) (Number_of_Z b)
            then Number_of_Z b else Number_of_Z a) as ->.
  { destruct (Number_of_Z_shape a Ha) as [->|(sa & Ma & Ea & ->)],
      (Number_of_Z_shape b Hb) as [->|(sb & Mb & Eb & ->)]; reflexivity. }
  unfold Number_lt. rewrite SFltb_of_Z //.
  destruct (Z.ltb_spec a b); f_equal; lia.
Qed.

(** The largest of a non-empty list of integers, as [Math.max] finds it. *)
Lemma Math_max_of_Z y ys :
  Z.abs y < 2 ^ 53 → Forall (λ z, Z.abs z < 2 ^ 53) ys →
  Math_max (Number_of_Z <$> y :: ys) = Number_of_Z (foldl Z.max y ys).
Proof.
  intros Hy Hys. unfold Math_max. rewrite fmap_cons. cbn [foldl].
  assert (Math_max_step (S754_infinity true) (Number_of_Z y) = Number_of_Z y) as ->.
  { by destruct (Number_of_Z_shape y Hy) as [->|(s & M & E & ->)]. }
  revert y Hy. induction Hys as [|z ys Hz _ IH]; intros y Hy; [done|].
  rewrite fmap_cons. cbn [foldl]. rewrite Math_max_step_of_Z //.
  apply IH. lia.
Qed.

Lemma foldl_Zmax_ge (y : Z) (ys : list Z) :
  y ≤ foldl Z.max y ys ∧ ∀ z, z ∈ ys → z ≤ foldl Z.max y ys.
Proof.
  revert y. induction ys as [|a ys IH]; intros y; simpl.
  - split; [lia|]. by intros z ?%elem_of_nil.
  - destruct (IH (Z.max y a)) as [H1 H2]. split; [lia|].
    intros z [->|Hz]%elem_of_cons; [lia|]. by apply H2.
Qed.

Lemma foldl_Zmax_bound (b y : Z) (ys : list Z) :
  Z.abs y ≤ b → Forall (λ z, Z.abs z ≤ b) ys → Z.abs (foldl Z.max y ys) ≤ b.
Proof.
  intros Hy Hys. revert y Hy. induction Hys as [|z ys Hz _ IH]; intros y Hy; [done|].
  simpl. apply IH. lia.
Qed.

(** *** Zero and sign tests *)

Lemma Number_eq_zero x : Number_eq x (Number_of_Z 0) = true ↔ isZero x.
Proof.
  unfold isZero. destruct x as [s|s| |s m e]; simpl.
  - split; [intros _; by exists s|done].
  - destruct s; split; try done; by intros [? ?].
  - split; [done|by intros [? ?]].
  - destruct s; split; try done; by intros [? ?].
Qed.

Lemma positiveFrom_not_zero lo x : positiveFrom lo x → ¬ isZero x.
Proof. intros [->|(m & e & -> & _)] [s Hs]; discriminate Hs. Qed.

Lemma isPositive_valid x : isNumber x → isPositive x → positiveFrom (-1074) x.
Proof.
  intros Hv [->|(m & e & ->)]; [by left|]. right. exists m, e. split; [done|].
  unfold isNumber, valid_binary, bounded, canonical_mantissa in Hv.
  apply andb_prop in Hv as [Hc _]. apply Z.eqb_eq in Hc.
  rewrite fexp64 in Hc. lia.
Qed.

End NumberFacts.

(** ** The append loops *)

Section AcceptFacts.
Context {A : Type} (key : A → string) (ok : A → Prop) `{!∀ a, Decision (ok a)}.

Local Abbreviation accept := (accept key ok).

Lemma accept_keys_fresh seen news a :
  a ∈ accept seen news → key a ∉ seen.
Proof.
  revert seen. induction news as [|b r IH]; intros seen; simpl.
  - by intros ?%elem_of_nil.
  - case_decide as Hd.
    + intros [->|Hin]%elem_of_cons; [tauto|].
      apply IH in Hin. set_solver.
    + apply IH.
Qed.

Lemma accept_ok seen news a : a ∈ accept seen news → ok a.
Proof.
  revert seen. induction news as [|b r IH]; intros seen; simpl.
  - by intros ?%elem_of_nil.
  - case_decide as Hd.
    + intros [->|Hin]%elem_of_cons; [tauto|]. by eapply IH.
    + apply IH.
Qed.

Lemma accept_sublist seen news a : a ∈ accept seen news → a ∈ news.
Proof.
  revert seen. induction news as [|b r IH]; intros seen; simpl; [done|].
  case_decide.
  - intros [->|Hin]%elem_of_cons; [left|right; by eapply IH].
  - intros Hin. right. by eapply IH.
Qed.

Lemma accept_app seen l1 l2 :
  accept seen (l1 ++ l2) =
  accept seen l1 ++ accept (list_to_set (key <$> accept seen l1) ∪ seen) l2.
Proof.
  revert seen. induction l1 as [|a r IH]; intros seen; simpl.
  - f_equal. set_solver.
  - case_decide; simpl.
    + f_equal. rewrite IH. do 2 f_equal. set_solver.
    + apply IH.
Qed.

(** An entry whose key is taken, or that fails the condition, leaves no trace. *)
Lemma accept_skip seen pre a post :
  ¬ (ok a ∧ key a ∉ list_to_set (key <$> accept seen pre) ∪ seen) →
  accept seen (pre ++ a :: post) = accept seen (pre ++ post).
Proof.
  intros Hno. rewrite !accept_app. simpl. by rewrite decide_False.
Qed.

(** Every key of an entry that satisfies the condition ends up taken. *)
Lemma accept_covers seen news a :
  a ∈ news → ok a → key a ∈ list_to_set (key <$> accept seen news) ∪ seen.
Proof.
  revert seen. induction news as [|b r IH]; intros seen; [by intros ?%elem_of_nil|].
  intros [->|Hin]%elem_of_cons Hok; simpl.
  - case_decide as Hd; simpl; [set_solver|].
    destruct (decide (key b ∈ seen)); [set_solver|tauto].
  - case_decide; simpl.
    + specialize (IH ({[key b]} ∪ seen) Hin Hok). set_solver.
    + by apply IH.
Qed.

(** Running the loop again over what survived a filter re-adds exactly
    what the filter took away. *)
Lemma accept_again (P : A → Prop) `{!∀ a, Decision (P a)} seen news :
  accept (list_to_set (key <$> filter P (accept seen news)) ∪ seen) news =
  filter (λ a, ¬ P a) (accept seen news).
Proof.
  revert seen. induction news as [|a r IH]; intros seen; simpl; [done|].
  destruct (decide (ok a ∧ key a ∉ seen)) as [[Hok Hfr]|Hd].
  - assert (key a ∉ key <$> accept ({[key a]} ∪ seen) r) as Hnot.
    { intros (b & Hk & Hb)%list_elem_of_fmap.
      apply accept_keys_fresh in Hb. set_solver. }
    rewrite filter_cons (filter_cons (λ a, ¬ P a)).
    destruct (decide (P a)) as [HP|HP];
      destruct (decide (¬ P a)) as [HnP|HnP]; try tauto.
    + rewrite decide_False.
      2:{ set_solver. }
      rewrite -IH. f_equal. set_solver.
    + rewrite decide_True.
      2:{ split; [done|]. rewrite elem_of_union elem_of_list_to_set.
          intros [(b & Hk & Hb)%list_elem_of_fmap|?]; [|done].
          apply list_elem_of_filter in Hb as [_ Hb].
          apply Hnot. apply list_elem_of_fmap. eauto. }
      f_equal. rewrite -IH. f_equal. set_solver.
  - rewrite decide_False; [|set_solver]. apply IH.
Qed.
End AcceptFacts.

(** ** Each merge step without its guard and its loop state *)

Lemma filter_all {A} (P : A → Prop) `{!∀ a, Decision (P a)} (l : list A) :
  (∀ a, a ∈ l → P a) → filter P l = l.
Proof.
  induction l as [|a l IH]; intros Hall; [done|].
  rewrite filter_cons_True; [|apply Hall; left].
  f_equal. apply IH. intros b Hb. apply Hall. by right.
Qed.

Lemma present_default {A} (o : option (list A)) :
  present o = None → default [] o = [].
Proof. by destruct o as [[|a l]|]. Qed.

Lemma present_Some {A} (o : option (list A)) l :
  present o = Some l → default [] o = l.
Proof. destruct o as [[|a r]|]; simpl; congruence. Qed.

Lemma removeNodesStep_spec rm st :
  removeNodesStep rm st =
  (filter (keepNode (default [] rm)) st.1,
   filter (keepEdgeOfNodes (default [] rm)) st.2).
Proof.
  unfold removeNodesStep. destruct (present rm) as [ids|] eqn:Hp.
  - by rewrite (present_Some _ _ Hp).
  - rewrite (present_default _ Hp). destruct st as [ns es]; simpl.
    rewrite !filter_all //; intros a _; unfold keepNode, keepEdgeOfNodes, Set_of;
      set_solver.
Qed.

Lemma removeEdgesStep_spec rm es :
  removeEdgesStep rm es = filter (keepEdge (default [] rm)) es.
Proof.
  unfold removeEdgesStep. destruct (present rm) as [ids|] eqn:Hp.
  - by rewrite (present_Some _ _ Hp).
  - rewrite (present_default _ Hp).
    rewrite filter_all //; intros a _; unfold keepEdge, Set_of; set_solver.
Qed.

Lemma addNodes_loop news ns seen :
  seen = Set_of (node_ids ns) →
  foldl addNode_iter (ns, seen) news =
  (ns ++ accept node_id anyNode seen news,
   Set_of (node_ids (ns ++ accept node_id anyNode seen news))).
Proof.
  revert ns seen. induction news as [|a r IH]; intros ns seen Hseen; simpl.
  - by rewrite app_nil_r Hseen.
  - unfold addNode_iter at 2; simpl.
    destruct (decide (node_id a ∈ seen)) as [Hin|Hin].
    + rewrite decide_False; [|unfold anyNode; tauto]. by apply IH.
    + rewrite decide_True; [|by unfold anyNode].
      rewrite (IH (ns ++ [a]) ({[node_id a]} ∪ seen)).
      2:{ subst seen. unfold Set_of, node_ids. rewrite fmap_app list_to_set_app_L.
          simpl. set_solver. }
      by rewrite -!app_assoc.
Qed.

Lemma addNodesStep_spec adds ns :
  addNodesStep adds ns =
  ns ++ accept node_id anyNode (Set_of (node_ids ns)) (default [] adds).
Proof.
  unfold addNodesStep. destruct (present adds) as [news|] eqn:Hp.
  - rewrite (present_Some _ _ Hp) addNodes_loop //.
  - by rewrite (present_default _ Hp) /= app_nil_r.
Qed.

Lemma addEdges_loop nodeIds news es seen :
  seen = Set_of (edge_ids es) →
  foldl (addEdge_iter nodeIds) (es, seen) news =
  (es ++ accept edge_id (endpointsIn nodeIds) seen news,
   Set_of (edge_ids (es ++ accept edge_id (endpointsIn nodeIds) seen news))).
Proof.
  revert es seen. induction news as [|a r IH]; intros es seen Hseen; simpl.
  - by rewrite app_nil_r Hseen.
  - unfold addEdge_iter at 2; simpl. fold (endpointsIn nodeIds a).
    destruct (decide (endpointsIn nodeIds a)) as [Hg|Hg].
    + destruct (decide (edge_id a ∈ seen)) as [Hin|Hin].
      * rewrite decide_False; [|tauto]. by apply IH.
      * rewrite decide_True; [|done].
        rewrite (IH (es ++ [a]) ({[edge_id a]} ∪ seen)).
        2:{ subst seen. unfold Set_of, edge_ids. rewrite fmap_app list_to_set_app_L.
            simpl. set_solver. }
        by rewrite -!app_assoc.
    + rewrite decide_False; [|tauto]. by apply IH.
Qed.

Lemma addEdgesStep_spec adds ns es :
  addEdgesStep adds ns es =
  es ++ accept edge_id (endpointsIn (Set_of (node_ids ns)))
          (Set_of (edge_ids es)) (default [] adds).
Proof.
  unfold addEdgesStep. destruct (present adds) as [news|] eqn:Hp.
  - rewrite (present_Some _ _ Hp) addEdges_loop //.
  - by rewrite (present_default _ Hp) /= app_nil_r.
Qed.

Lemma updateNode_empty n : updateNode ∅ n = n.
Proof. unfold updateNode. by rewrite lookup_empty. Qed.

Lemma updateNodesStep_spec upds ns :
  updateNodesStep upds ns = updateNode (Map_of (default [] upds)) <$> ns.
Proof.
  unfold updateNodesStep. destruct (present upds) as [us|] eqn:Hp.
  - by rewrite (present_Some _ _ Hp).
  - rewrite (present_default _ Hp) /=.
    rewrite (list_fmap_ext _ id); [|intros; apply updateNode_empty].
    by rewrite list_fmap_id.
Qed.

Lemma updateNode_id m n : node_id (updateNode m n) = node_id n.
Proof. unfold updateNode. by destruct (m !! node_id n). Qed.

Lemma updateNode_ids m ns : node_ids (updateNode m <$> ns) = node_ids ns.
Proof.
  unfold node_ids. rewrite -list_fmap_compose.
  apply list_fmap_ext. intros. apply updateNode_id.
Qed.

(** ** The merged state in terms of the steps *)

Lemma merge_nodes now S D :
  nodes (mergeGraphDelta now S D) = nodesAfterUpdate S D.
Proof.
  unfold mergeGraphDelta, nodesAfterUpdate, nodesAfterAdd.
  by destruct (removeNodesStep _ _).
Qed.

Lemma merge_edges now S D :
  edges (mergeGraphDelta now S D) =
  addEdgesStep (addEdges D) (nodesAfterUpdate S D) (edgesAfterRemove S D).
Proof.
  unfold mergeGraphDelta, nodesAfterUpdate, nodesAfterAdd, edgesAfterRemove.
  by destruct (removeNodesStep _ _).
Qed.

Lemma merge_meta now S D :
  meta (mergeGraphDelta now S D) = mkMeta (projectId (meta S)) now.
Proof. unfold mergeGraphDelta. by destruct (removeNodesStep _ _). Qed.

Lemma nodesAfterAdd_spec S D :
  nodesAfterAdd S D = keptNodes S D ++ newNodes S D.
Proof.
  unfold nodesAfterAdd. by rewrite removeNodesStep_spec addNodesStep_spec.
Qed.

Lemma nodesAfterUpdate_spec S D :
  nodesAfterUpdate S D =
  updateNode (Map_of (default [] (updateNodes D))) <$> (keptNodes S D ++ newNodes S D).
Proof.
  unfold nodesAfterUpdate. by rewrite updateNodesStep_spec nodesAfterAdd_spec.
Qed.

Lemma nodesAfterUpdate_ids S D :
  node_ids (nodesAfterUpdate S D) = node_ids (keptNodes S D ++ newNodes S D).
Proof. by rewrite nodesAfterUpdate_spec updateNode_ids. Qed.

Lemma edgesAfterRemove_spec S D : edgesAfterRemove S D = keptEdges S D.
Proof.
  unfold edgesAfterRemove. by rewrite removeNodesStep_spec removeEdgesStep_spec.
Qed.

Lemma merge_edges_spec now S D :
  edges (mergeGraphDelta now S D) = keptEdges S D ++ newEdges S D.
Proof.
  rewrite merge_edges addEdgesStep_spec edgesAfterRemove_spec.
  by rewrite nodesAfterUpdate_ids.
Qed.

(** ** Referential integrity *)

Lemma keptNodes_ids S D i :
  i ∈ node_ids (nodes S) → i ∉ Set_of (default [] (removeNodeIds D)) →
  i ∈ node_ids (keptNodes S D).
Proof.
  unfold node_ids, keptNodes.
  intros (n & -> & Hn)%list_elem_of_fmap Hrm.
  apply list_elem_of_fmap. exists n. split; [done|].
  by apply list_elem_of_filter.
Qed.

(** C1 (amended): merging into a state without dangling edges gives a
    state without dangling edges: every edge of [merge(S,D)] has its
    source and its target among the node ids of [merge(S,D)]. *)
Theorem merge_no_dangling now S D :
  noDanglingEdges S → noDanglingEdges (mergeGraphDelta now S D).
Proof.
  unfold noDanglingEdges. rewrite !Forall_forall.
  intros HS e. rewrite merge_nodes merge_edges_spec nodesAfterUpdate_ids.
  unfold node_ids. rewrite fmap_app.
  intros [He|He]%elem_of_app.
  - unfold keptEdges in He.
    apply list_elem_of_filter in He as [_ He].
    apply list_elem_of_filter in He as [[Hs Ht] He].
    destruct (HS e He) as [Hs' Ht'].
    split; apply elem_of_app; left; by apply keptNodes_ids.
  - apply accept_ok in He as [Hs Ht].
    unfold Set_of, node_ids in Hs, Ht.
    rewrite fmap_app in Hs, Ht.
    by rewrite !elem_of_list_to_set in Hs, Ht.
Qed.

(** C1, as stated, fails on a state that already has a dangling edge:
    the empty delta keeps the edge and adds no node. *)
Lemma merge_dangling_counterexample :
  ¬ ∀ now S D, noDanglingEdges (mergeGraphDelta now S D).
Proof.
  intros H. specialize (H "t1" state_a_dangling emptyDelta).
  revert H. by apply (bool_decide_eq_false_1 _).
Qed.

Lemma merge_no_dangling_witness :
  noDanglingEdges state_ab ∧
  noDanglingEdges (mergeGraphDelta "t1" state_ab delta_remove_b_add_c).
Proof.
  assert (noDanglingEdges state_ab) as H by (by apply (bool_decide_eq_true_1 _)).
  split; [exact H|]. apply (merge_no_dangling "t1" state_ab delta_remove_b_add_c H).
Defined.

(** ** The empty delta *)

(** C6: merging the empty delta [{}] returns the nodes and the edges of
    the state as they are and carries [meta.projectId] over; only
    [meta.updatedAt] is new (the time of the call). This holds for
    every state, valid or not. *)
Theorem merge_empty_delta now S :
  nodes (mergeGraphDelta now S emptyDelta) = nodes S
  ∧ edges (mergeGraphDelta now S emptyDelta) = edges S
  ∧ projectId (meta (mergeGraphDelta now S emptyDelta)) = projectId (meta S)
  ∧ updatedAt (meta (mergeGraphDelta now S emptyDelta)) = now.
Proof. done. Qed.

(** Operation fields that are present but empty behave like absent ones. *)
Lemma merge_empty_lists now S :
  mergeGraphDelta now S (mkDelta (Some []) (Some []) (Some []) (Some []) (Some []))
  = mergeGraphDelta now S emptyDelta.
Proof. done. Qed.

(** ** Adding nodes *)

Lemma nodesAfterRemove_spec S D : nodesAfterRemove S D = keptNodes S D.
Proof. unfold nodesAfterRemove. by rewrite removeNodesStep_spec. Qed.

Lemma accept_seen_ids {A} (key : A → string) ok `{!∀ a, Decision (ok a)}
    (base : list A) seen news :
  seen = Set_of (key <$> base) →
  list_to_set (key <$> accept key ok seen news) ∪ seen
  = Set_of (key <$> (base ++ accept key ok seen news)).
Proof.
  intros ->. unfold Set_of. rewrite fmap_app list_to_set_app_L. set_solver.
Qed.

(** C4: an [addNodes] entry whose id is already in the working node set
    (a node left by the removal step, or an earlier entry of the same
    list) is dropped: the merge result is the one of the delta without
    that entry, and the working node set reached before the entry is a
    prefix of the node array after the add step, so the node already
    there keeps all its fields. *)
Theorem addNodes_duplicate_dropped now S D pre n post :
  node_id n ∈ node_ids (nodesAfterRemove S D) ∨ node_id n ∈ node_ids pre →
  nodesAfterAdd S (withAddNodes D (pre ++ n :: post))
    = nodesAfterAdd S (withAddNodes D (pre ++ post))
  ∧ nodesAfterAdd S (withAddNodes D pre)
      `prefix_of` nodesAfterAdd S (withAddNodes D (pre ++ n :: post))
  ∧ nodesAfterRemove S D `prefix_of` nodesAfterAdd S (withAddNodes D pre)
  ∧ nodes (mergeGraphDelta now S (withAddNodes D (pre ++ n :: post)))
    = nodes (mergeGraphDelta now S (withAddNodes D (pre ++ post)))
  ∧ edges (mergeGraphDelta now S (withAddNodes D (pre ++ n :: post)))
    = edges (mergeGraphDelta now S (withAddNodes D (pre ++ post))).
Proof.
  intros Hdup.
  assert (nodesAfterAdd S (withAddNodes D (pre ++ n :: post))
          = nodesAfterAdd S (withAddNodes D (pre ++ post))) as Heq.
  { rewrite !nodesAfterAdd_spec. unfold newNodes, keptNodes; simpl. f_equal.
    apply accept_skip. intros [_ Hfresh]. apply Hfresh.
    rewrite nodesAfterRemove_spec in Hdup. unfold keptNodes in Hdup.
    destruct Hdup as [Hdup|Hdup].
    - apply elem_of_union_r. by apply elem_of_list_to_set.
    - apply list_elem_of_fmap in Hdup as (m & Hid & Hm).
      rewrite Hid. by apply (accept_covers node_id anyNode). }
  split; [exact Heq|]. split; [|split; [|split]].
  - rewrite !nodesAfterAdd_spec. unfold newNodes, keptNodes; simpl.
    rewrite accept_app app_assoc. by apply prefix_app_r.
  - rewrite nodesAfterRemove_spec nodesAfterAdd_spec.
    by apply prefix_app_r.
  - rewrite !merge_nodes. unfold nodesAfterUpdate. by rewrite Heq.
  - rewrite !merge_edges. unfold nodesAfterUpdate. by rewrite Heq.
Qed.

Lemma addNodes_duplicate_dropped_witness :
  nodes (mergeGraphDelta "t1" state_ab delta_add_a_twice)
  = nodes state_ab ++ [mkNode "c" queue "C" (pt 0 0) (mkData None None None None)].
Proof.
  pose proof (addNodes_duplicate_dropped "t1" state_ab delta_add_a_twice
    [mkNode "c" queue "C" (pt 0 0) (mkData None None None None)]
    (mkNode "a" api "other A" (pt 5 5) (mkData (Some "dup") None None None))
    [mkNode "c" db "other C" (pt 7 7) (mkData None None None None)]) as H.
  destruct H as (_ & _ & _ & Hn & _).
  - left. by apply (bool_decide_eq_true_1 _).
  - change (withAddNodes delta_add_a_twice _) with delta_add_a_twice in Hn at 1.
    rewrite Hn. by vm_compute.
Defined.

(** ** Adding edges *)

Lemma addNodes_ids_present S D l n :
  addNodes D = Some l → n ∈ l → node_id n ∈ node_ids (nodesAfterUpdate S D).
Proof.
  intros Hl Hn. rewrite nodesAfterUpdate_ids.
  pose proof (accept_covers node_id anyNode
    (Set_of (node_ids (keptNodes S D))) l n Hn I) as Hc.
  unfold node_ids. rewrite fmap_app. unfold newNodes. rewrite Hl /=.
  unfold Set_of in Hc. rewrite elem_of_union !elem_of_list_to_set in Hc.
  apply elem_of_app. unfold keptNodes, node_ids in *. tauto.
Qed.

Lemma merge_addEdges_prefix now S D l :
  edges (mergeGraphDelta now S (withAddEdges D l))
  = keptEdges S D ++
    accept edge_id (endpointsIn (Set_of (node_ids (nodesAfterUpdate S D))))
      (Set_of (edge_ids (keptEdges S D))) l.
Proof.
  rewrite merge_edges_spec. unfold newEdges; simpl.
  by rewrite nodesAfterUpdate_ids.
Qed.

(** C2: an entry [e] of [addEdges] is appended exactly when its source
    and its target are ids of the node array left by steps 1 to 4 and its
    id is not the id of an edge of the working edge array [W] (the array
    reached when the loop comes to [e]: the edges kept by steps 1 and 2
    followed by the entries appended before [e]).  Entries after [e] only
    append.  Ids of [addNodes] entries of the same delta count as
    present.  A rejected entry leaves no trace: nodes and edges are those
    of the delta without it.  The merge is a total function; nothing is
    raised. *)
Theorem addEdges_gating now S D pre e post :
  let N := node_ids (nodesAfterUpdate S D) in
  let W := edges (mergeGraphDelta now S (withAddEdges D pre)) in
  let eligible := edge_source e ∈ N ∧ edge_target e ∈ N ∧ edge_id e ∉ edge_ids W in
  edges (mergeGraphDelta now S (withAddEdges D (pre ++ [e])))
    = (if decide eligible then W ++ [e] else W)
  ∧ edges (mergeGraphDelta now S (withAddEdges D (pre ++ [e])))
      `prefix_of` edges (mergeGraphDelta now S (withAddEdges D (pre ++ e :: post)))
  ∧ nodes (mergeGraphDelta now S (withAddEdges D (pre ++ e :: post)))
      = nodesAfterUpdate S D
  ∧ (∀ l n, addNodes D = Some l → n ∈ l → node_id n ∈ N)
  ∧ (¬ eligible →
     edges (mergeGraphDelta now S (withAddEdges D (pre ++ e :: post)))
       = edges (mergeGraphDelta now S (withAddEdges D (pre ++ post)))).
Proof.
  intros N W eligible.
  set (nodeIds := Set_of (node_ids (nodesAfterUpdate S D))).
  set (seen := Set_of (edge_ids (keptEdges S D))).
  assert (eligible ↔ endpointsIn nodeIds e ∧
            edge_id e ∉ list_to_set (edge_id <$> accept edge_id (endpointsIn nodeIds) seen pre)
                        ∪ seen) as Helig.
  { unfold eligible, W, N, endpointsIn, nodeIds, seen.
    rewrite merge_addEdges_prefix. unfold Set_of, edge_ids.
    rewrite fmap_app !elem_of_list_to_set not_elem_of_union not_elem_of_app.
    rewrite !elem_of_list_to_set. tauto. }
  split; [|split; [|split; [|split]]].
  - unfold W. rewrite !merge_addEdges_prefix accept_app /=.
    fold nodeIds seen.
    destruct (decide eligible) as [Hg|Hg].
    + rewrite decide_True; [|exact (proj1 Helig Hg)].
      by rewrite ?merge_addEdges_prefix app_assoc.
    + rewrite decide_False; [|intros Hc; exact (Hg (proj2 Helig Hc))].
      by rewrite ?merge_addEdges_prefix app_nil_r.
  - rewrite !merge_addEdges_prefix.
    replace (pre ++ e :: post) with ((pre ++ [e]) ++ post) by by rewrite -app_assoc.
    rewrite (accept_app _ _ _ (pre ++ [e])) app_assoc. by apply prefix_app_r.
  - by rewrite merge_nodes.
  - intros l n. apply addNodes_ids_present.
  - intros Hg. rewrite !merge_addEdges_prefix. f_equal.
    apply accept_skip. intros Hc. exact (Hg (proj2 Helig Hc)).
Qed.

Example scenario_A :
  let r := mergeGraphDelta "t1" (mkState [nd0 "a"] [] (mkMeta "p" "t0"))
             (mkDelta None None (Some ["a"]) None None) in
  nodes r = [] ∧ edges r = [].
Proof. by vm_compute. Qed.

Example scenario_B :
  edges (mergeGraphDelta "t1"
           (mkState (nodes state_ab) [] (mkMeta "p" "t0"))
           (mkDelta None None None (Some [mkEdge "e1" "a" "b" calls None]) None))
  = [mkEdge "e1" "a" "b" calls None].
Proof. by vm_compute. Qed.

Example scenario_C :
  edges (mergeGraphDelta "t1" state_ab
           (mkDelta None None None (Some [mkEdge "e2" "a" "zzz" calls None]) None))
  = edges state_ab.
Proof. by vm_compute. Qed.

Example edges_mixed_result :
  edges (mergeGraphDelta "t1" state_ab delta_edges_mixed)
  = [mkEdge "e1" "a" "b" queries None;
     mkEdge "e2" "a" "c" publishes None;
     mkEdge "e4" "c" "b" consumes None].
Proof. by vm_compute. Qed.

Lemma addEdges_gating_witness :
  edges (mergeGraphDelta "t1" state_ab delta_edges_mixed)
  = edges (mergeGraphDelta "t1" state_ab
      (withAddEdges delta_edges_mixed
         [mkEdge "e2" "a" "c" publishes None;
          mkEdge "e1" "b" "a" depends_on None;
          mkEdge "e4" "c" "b" consumes None]))
  ∧ "c" ∈ node_ids (nodesAfterUpdate state_ab delta_edges_mixed).
Proof.
  pose proof (addEdges_gating "t1" state_ab delta_edges_mixed
    [mkEdge "e2" "a" "c" publishes None]
    (mkEdge "e3" "a" "zzz" calls None)
    [mkEdge "e1" "b" "a" depends_on None; mkEdge "e4" "c" "b" consumes None]) as H.
  cbv zeta in H. destruct H as (_ & _ & _ & Hadd & Hdrop).
  split.
  - refine (Hdrop _). by apply (bool_decide_eq_false_1 _).
  - refine (Hadd _ (mkNode "c" queue "C" (pt 0 0) (mkData None None None None))
              eq_refl _).
    by apply (bool_decide_eq_true_1 _).
Defined.

(** ** Updating nodes *)

Lemma Map_of_app l1 l2 : Map_of (l1 ++ l2) = foldl putUpdate (Map_of l1) l2.
Proof. unfold Map_of. by rewrite foldl_app. Qed.

Lemma putUpdate_notin m l k :
  k ∉ upd_id <$> l → foldl putUpdate m l !! k = m !! k.
Proof.
  revert m. induction l as [|u l IH]; intros m Hk; [done|].
  rewrite fmap_cons not_elem_of_cons in Hk. destruct Hk as [Hne Hk].
  simpl. rewrite IH //. unfold putUpdate. by rewrite lookup_insert_ne.
Qed.

Lemma putUpdate_ext m1 m2 l k :
  m1 !! k = m2 !! k → foldl putUpdate m1 l !! k = foldl putUpdate m2 l !! k.
Proof.
  revert m1 m2. induction l as [|u l IH]; intros m1 m2 Hk; [done|].
  simpl. apply IH. unfold putUpdate.
  destruct (decide (upd_id u = k)) as [->|Hne].
  - by rewrite !lookup_insert_eq.
  - by rewrite !lookup_insert_ne.
Qed.

Lemma Map_of_last pre u post :
  upd_id u ∉ upd_id <$> post → Map_of (pre ++ u :: post) !! upd_id u = Some u.
Proof.
  intros Hlast. rewrite Map_of_app /= putUpdate_notin //.
  unfold putUpdate. by rewrite lookup_insert_eq.
Qed.

Lemma Map_of_other pre u post k :
  k ≠ upd_id u → Map_of (pre ++ u :: post) !! k = Map_of (pre ++ post) !! k.
Proof.
  intros Hne. rewrite !Map_of_app /=. apply putUpdate_ext.
  unfold putUpdate. by rewrite lookup_insert_ne.
Qed.

Lemma Map_of_notin us k : k ∉ upd_id <$> us → Map_of us !! k = None.
Proof. intros Hk. unfold Map_of. by rewrite putUpdate_notin. Qed.

Lemma merge_withUpdateNodes_nodes now S D us :
  nodes (mergeGraphDelta now S (withUpdateNodes D us))
  = updateNode (Map_of us) <$> nodesAfterAdd S D.
Proof. rewrite merge_nodes. unfold nodesAfterUpdate. by rewrite updateNodesStep_spec. Qed.

Lemma merge_withUpdateNodes_edges now S D us :
  edges (mergeGraphDelta now S (withUpdateNodes D us))
  = edges (mergeGraphDelta now S D).
Proof. by rewrite !merge_edges_spec. Qed.

Lemma applyUpdate_fields u n :
  let r := applyUpdate u n in
  node_id r = node_id n
  ∧ node_position r = node_position n
  ∧ node_label r = default (node_label n) (upd_label u)
  ∧ node_kind r = default (node_kind n) (upd_kind u)
  ∧ summary (node_data r) = override (supplied u summary) (summary (node_data n))
  ∧ methods (node_data r) = override (supplied u methods) (methods (node_data n))
  ∧ fields (node_data r) = override (supplied u fields) (fields (node_data n))
  ∧ filePath (node_data r) = override (supplied u filePath) (filePath (node_data n)).
Proof.
  destruct u as [i l k [d|]]; simpl; unfold supplied, nullish; simpl;
    destruct l, k; done.
Qed.

(** C3 (amended): an [updateNodes] entry whose id matches no node of the
    working node set changes nothing; the last entry with a given id
    gives every node with that id its label and kind when it supplies
    them, and its [data] keys one by one (a supplied [methods] or
    [fields] array replaces the old array), leaving id and position as
    they are; nodes whose id no entry names are unchanged.  Earlier
    entries with the id of a later entry are not applied. *)
Theorem updateNodes_last_wins now S D pre u post :
  let W := nodesAfterAdd S D in
  let R := nodes (mergeGraphDelta now S (withUpdateNodes D (pre ++ u :: post))) in
  (upd_id u ∉ node_ids W →
     R = nodes (mergeGraphDelta now S (withUpdateNodes D (pre ++ post)))
     ∧ edges (mergeGraphDelta now S (withUpdateNodes D (pre ++ u :: post)))
       = edges (mergeGraphDelta now S (withUpdateNodes D (pre ++ post))))
  ∧ (upd_id u ∉ upd_id <$> post →
     ∀ i n, W !! i = Some n → node_id n = upd_id u →
       ∃ r, R !! i = Some r
         ∧ node_id r = node_id n
         ∧ node_position r = node_position n
         ∧ node_label r = default (node_label n) (upd_label u)
         ∧ node_kind r = default (node_kind n) (upd_kind u)
         ∧ summary (node_data r) = override (supplied u summary) (summary (node_data n))
         ∧ methods (node_data r) = override (supplied u methods) (methods (node_data n))
         ∧ fields (node_data r) = override (supplied u fields) (fields (node_data n))
         ∧ filePath (node_data r) = override (supplied u filePath) (filePath (node_data n)))
  ∧ (∀ i n, W !! i = Some n → node_id n ∉ upd_id <$> (pre ++ u :: post) →
       R !! i = Some n)
  ∧ length R = length W.
Proof.
  intros W R. unfold R. rewrite merge_withUpdateNodes_nodes. fold W.
  split; [|split; [|split]].
  - intros Habs. split.
    + rewrite merge_withUpdateNodes_nodes. fold W.
      apply list_fmap_ext. intros i n Hn. unfold updateNode.
      rewrite Map_of_other //. intros Heq. apply Habs.
      rewrite -Heq. apply list_elem_of_fmap. exists n. split; [done|].
      by eapply list_elem_of_lookup_2.
    + by rewrite !merge_withUpdateNodes_edges.
  - intros Hlast i n Hn Hid. exists (applyUpdate u n). split.
    + rewrite list_lookup_fmap Hn /=. unfold updateNode.
      by rewrite Hid Map_of_last.
    + apply applyUpdate_fields.
  - intros i n Hn Hnot. rewrite list_lookup_fmap Hn /=. unfold updateNode.
    by rewrite Map_of_notin.
  - by rewrite length_fmap.
Qed.

(** C3, as stated, fails when two entries have the same id: the label
    supplied by the earlier entry is not applied. *)
Lemma updateNodes_shadowed_counterexample :
  ¬ ∀ now S D pre u post i n,
      nodesAfterAdd S D !! i = Some n → node_id n = upd_id u →
      ∃ r, nodes (mergeGraphDelta now S (withUpdateNodes D (pre ++ u :: post))) !! i
             = Some r
           ∧ node_label r = default (node_label n) (upd_label u).
Proof.
  intros H.
  destruct (H "t1" state_ab emptyDelta [] update_a_label [update_a_kind] 0
              (mkNode "a" service "A" (pt 10 20) (mkData None None None None))
              eq_refl eq_refl) as (r & Hr & Hl).
  vm_compute in Hr. injection Hr as <-. discriminate Hl.
Qed.

Example updateNodes_shadowed_result :
  nodes (mergeGraphDelta "t1" state_ab
           (withUpdateNodes emptyDelta [update_a_label; update_a_kind]))
  = [mkNode "a" api "A" (pt 10 20) (mkData None None None None);
     mkNode "b" db "B" (pt 0 0) (mkData (Some "store") None None None)].
Proof. by vm_compute. Qed.

Lemma updateNodes_last_wins_witness :
  nodes (mergeGraphDelta "t1" state_ab
           (withUpdateNodes emptyDelta [update_a_kind; update_missing; update_a_label]))
  = nodes (mergeGraphDelta "t1" state_ab
           (withUpdateNodes emptyDelta [update_a_kind; update_a_label]))
  ∧ ∃ r, nodes (mergeGraphDelta "t1" state_ab
                  (withUpdateNodes emptyDelta [update_a_kind; update_a_label])) !! 0%nat
           = Some r
         ∧ node_label r = "A2" ∧ node_kind r = service
         ∧ methods (node_data r) = Some ["run"].
Proof.
  split.
  - pose proof (updateNodes_last_wins "t1" state_ab emptyDelta
      [update_a_kind] update_missing [update_a_label]) as H.
    cbv zeta in H. destruct H as (Habs & _).
    refine (proj1 (Habs _)). by apply (bool_decide_eq_true_1 _).
  - pose proof (updateNodes_last_wins "t1" state_ab emptyDelta
      [update_a_kind] update_a_label []) as H.
    cbv zeta in H. destruct H as (_ & Hlast & _).
    destruct (Hlast (not_elem_of_nil _) 0%nat
                (mkNode "a" service "A" (pt 10 20) (mkData None None None None))
                eq_refl eq_refl)
      as (r & Hr & _ & _ & Hl & Hk & _ & Hm & _).
    exists r. split; [exact Hr|]. split; [exact Hl|]. split; [exact Hk|exact Hm].
Defined.

(** ** Applying the same delta twice *)

Lemma filter_fmap_comm {A B} (f : A → B) (P : B → Prop) `{!∀ b, Decision (P b)}
    (l : list A) :
  filter P (f <$> l) = f <$> filter (λ a, P (f a)) l.
Proof.
  induction l as [|a l IH]; [done|].
  rewrite fmap_cons !filter_cons IH. by destruct (decide (P (f a))).
Qed.

Lemma updateNode_idem m n : updateNode m (updateNode m n) = updateNode m n.
Proof.
  unfold updateNode at 1. rewrite updateNode_id.
  unfold updateNode. destruct (m !! node_id n) as [u|]; [|done].
  destruct u as [i l k [d|]], n as [ni nk nl np [s ms fs fp]]; simpl.
  - unfold applyUpdate; simpl. f_equal.
    + by destruct k.
    + by destruct l.
    + destruct d as [s' ms' fs' fp']; simpl.
      by destruct s', ms', fs', fp'.
  - unfold applyUpdate; simpl. f_equal; [by destruct k|by destruct l].
Qed.

Lemma keptNodes_again S D :
  filter (keepNode (default [] (removeNodeIds D))) (keptNodes S D) = keptNodes S D.
Proof. unfold keptNodes. by rewrite list_filter_filter_l. Qed.

Lemma keptEdges_alt S D :
  keptEdges S D =
  filter (λ e, keepEdge (default [] (removeEdgeIds D)) e
               ∧ keepEdgeOfNodes (default [] (removeNodeIds D)) e) (edges S).
Proof. unfold keptEdges. by rewrite list_filter_filter. Qed.

Section Twice.
Variables (now1 : string) (S : GraphState) (D : GraphDelta).

Let M := mergeGraphDelta now1 S D.
Let U := updateNode (Map_of (default [] (updateNodes D))).
Let keep := keepNode (default [] (removeNodeIds D)).
Let keepE := λ e, keepEdge (default [] (removeEdgeIds D)) e
                  ∧ keepEdgeOfNodes (default [] (removeNodeIds D)) e.

Lemma twice_keptNodes :
  keptNodes M D = U <$> (keptNodes S D ++ filter keep (newNodes S D)).
Proof.
  unfold keptNodes at 1. subst M. rewrite merge_nodes nodesAfterUpdate_spec.
  fold U keep. rewrite filter_fmap_comm.
  rewrite (list_filter_iff _ keep).
  2:{ intros n. unfold keep, keepNode, U. by rewrite updateNode_id. }
  by rewrite filter_app keptNodes_again.
Qed.

Lemma twice_newNodes : newNodes M D = filter (λ n, ¬ keep n) (newNodes S D).
Proof.
  unfold newNodes at 1. rewrite twice_keptNodes.
  unfold U. rewrite updateNode_ids. fold U.
  rewrite -(accept_again node_id anyNode keep). unfold newNodes. f_equal.
  unfold Set_of, node_ids. by rewrite fmap_app list_to_set_app_L (comm_L (∪)).
Qed.

Lemma twice_nodes now2 :
  nodes (mergeGraphDelta now2 M D) ≡ₚ nodes M.
Proof.
  rewrite merge_nodes nodesAfterUpdate_spec twice_keptNodes twice_newNodes.
  subst M. rewrite merge_nodes nodesAfterUpdate_spec. fold U.
  rewrite !fmap_app -!list_fmap_compose.
  rewrite !(list_fmap_ext (U ∘ U) U);
    [|intros; apply updateNode_idem|intros; apply updateNode_idem].
  rewrite -app_assoc. f_equiv. rewrite -fmap_app.
  by rewrite filter_app_complement.
Qed.

Lemma twice_nodeIds now2 :
  Set_of (node_ids (nodes (mergeGraphDelta now2 M D))) = Set_of (node_ids (nodes M)).
Proof.
  unfold Set_of, node_ids. apply set_eq. intros i.
  rewrite !elem_of_list_to_set. by rewrite (twice_nodes now2).
Qed.

Lemma twice_keptEdges :
  keptEdges M D = keptEdges S D ++ filter keepE (newEdges S D).
Proof.
  rewrite keptEdges_alt. subst M. rewrite merge_edges_spec. fold keepE.
  rewrite filter_app. f_equal.
  rewrite keptEdges_alt. fold keepE. by rewrite list_filter_filter_l.
Qed.

Lemma twice_newEdges : newEdges M D = filter (λ e, ¬ keepE e) (newEdges S D).
Proof.
  unfold newEdges at 1. rewrite twice_keptEdges.
  rewrite -nodesAfterUpdate_ids -(merge_nodes now1 M D) twice_nodeIds.
  unfold M. rewrite merge_nodes nodesAfterUpdate_ids.
  rewrite -(accept_again edge_id _ keepE). unfold newEdges. f_equal.
  unfold Set_of, edge_ids. by rewrite fmap_app list_to_set_app_L (comm_L (∪)).
Qed.

Lemma twice_edges now2 :
  edges (mergeGraphDelta now2 M D) ≡ₚ edges M.
Proof.
  rewrite merge_edges_spec twice_keptEdges twice_newEdges.
  subst M. rewrite merge_edges_spec.
  rewrite -app_assoc. f_equiv. by rewrite filter_app_complement.
Qed.
End Twice.

(** C10: applying a delta a second time changes nothing in the graph
    content: the nodes and the edges of [merge(merge(S,D),D)] are those
    of [merge(S,D)], as sets and even as multisets (a reordering). *)
Theorem merge_idempotent now1 now2 S D :
  let M := mergeGraphDelta now1 S D in
  let M2 := mergeGraphDelta now2 M D in
  (∀ n, n ∈ nodes M2 ↔ n ∈ nodes M)
  ∧ (∀ e, e ∈ edges M2 ↔ e ∈ edges M)
  ∧ nodes M2 ≡ₚ nodes M
  ∧ edges M2 ≡ₚ edges M.
Proof.
  intros M M2. subst M M2.
  pose proof (twice_nodes now1 S D now2) as Hn.
  pose proof (twice_edges now1 S D now2) as He.
  split; [|split; [|split]]; try done.
  - intros n. by rewrite Hn.
  - intros e. by rewrite He.
Qed.

(** The second application may reorder: here [b] and [e5] move. *)
Example merge_twice_reorders :
  let M := mergeGraphDelta "t1" state_ab delta_replace_b in
  node_ids (nodes M) = ["a"; "b"; "c"]
  ∧ node_ids (nodes (mergeGraphDelta "t2" M delta_replace_b)) = ["a"; "c"; "b"]
  ∧ edge_ids (edges M) = ["e1"; "e5"]
  ∧ edge_ids (edges (mergeGraphDelta "t2" M delta_replace_b)) = ["e1"; "e5"].
Proof. by vm_compute. Qed.

(** ** Layout assignment *)

Lemma Number_neq_origin p :
  negb (Number_eq (pos_x p) (Number_of_Z 0)) || negb (Number_eq (pos_y p) (Number_of_Z 0))
  = bool_decide (¬ atOrigin p).
Proof.
  unfold atOrigin.
  destruct (Number_eq (pos_x p) (Number_of_Z 0)) eqn:Hx,
    (Number_eq (pos_y p) (Number_of_Z 0)) eqn:Hy; simpl; symmetry.
  - apply bool_decide_eq_false. intros H. apply H.
    split; by apply Number_eq_zero.
  - apply bool_decide_eq_true. intros [_ H%Number_eq_zero]. congruence.
  - apply bool_decide_eq_true. intros [H%Number_eq_zero _]. congruence.
  - apply bool_decide_eq_true. intros [H%Number_eq_zero _]. congruence.
Qed.

Lemma layoutNode_unplaced startX startY i n :
  atOrigin (node_position n) →
  layoutNode startX startY i n
  = {| node_id := node_id n; node_kind := node_kind n; node_label := node_label n;
       node_position := gridPosition startX startY i; node_data := node_data n |}.
Proof.
  intros Hz. unfold layoutNode. rewrite Number_neq_origin bool_decide_eq_false_2; [|tauto].
  unfold gridPosition, COLS, SPACING_X, SPACING_Y.
  rewrite Z.rem_mod_nonneg; [done|lia|lia].
Qed.

Lemma layoutNode_placed startX startY i n :
  ¬ atOrigin (node_position n) → layoutNode startX startY i n = n.
Proof.
  intros Hnz. unfold layoutNode. by rewrite Number_neq_origin bool_decide_eq_true_2.
Qed.

(** Integer starts within the safe range, list indices below [2^32]:
    the grid cell has the integer coordinates of the formula. *)
Lemma gridPosition_exact sx sy i :
  (Z.abs sx ≤ 2 ^ 52 + 150)%Z → (Z.abs sy ≤ 2 ^ 52 + 150)%Z → (Z.of_nat i < 2 ^ 32)%Z →
  gridPosition (Number_of_Z sx) (Number_of_Z sy) i
  = pt (sx + (Z.of_nat i mod 4) * 250) (sy + (Z.of_nat i / 4) * 150).
Proof.
  change (2 ^ 52)%Z with 4503599627370496%Z. change (2 ^ 32)%Z with 4294967296%Z.
  intros Hx Hy Hi. unfold gridPosition, pt.
  assert (0 ≤ Z.of_nat i mod 4 < 4)%Z as Hc by (apply Z.mod_pos_bound; lia).
  assert (0 ≤ Z.of_nat i / 4 < 1073741824)%Z as Hr.
  { split; [apply Z.div_pos; lia|apply Z.div_lt_upper_bound; lia]. }
  rewrite !Number_mul_exact; change (2 ^ 53)%Z with 9007199254740992%Z; try lia.
  rewrite !Number_add_exact; change (2 ^ 53)%Z with 9007199254740992%Z; try lia.
  done.
Qed.

(** C7: the node at list index [i] is returned at index [i]; when its
    position is exactly (0,0) it gets the grid position
    [(startX + (i mod 4)*250, startY + floor(i/4)*150)], the sums being
    those of binary64 numbers, and keeps its other fields; when its
    position is not (0,0) it is returned unchanged.  For integer starts
    of magnitude at most [2^52] and indices below [2^32] the grid
    position has the integer coordinates of the formula: nothing is
    rounded. *)
Theorem autoLayoutNodes_grid ns startX startY i n :
  ns !! i = Some n →
  (atOrigin (node_position n) →
     ∃ r, autoLayoutNodes ns startX startY !! i = Some r
       ∧ node_position r = gridPosition startX startY i
       ∧ node_id r = node_id n ∧ node_kind r = node_kind n
       ∧ node_label r = node_label n ∧ node_data r = node_data n)
  ∧ (¬ atOrigin (node_position n) →
     autoLayoutNodes ns startX startY !! i = Some n)
  ∧ length (autoLayoutNodes ns startX startY) = length ns
  ∧ (∀ sx sy, startX = Number_of_Z sx → startY = Number_of_Z sy →
       safe sx → safe sy → (Z.of_nat i < 2 ^ 32)%Z →
       gridPosition startX startY i
       = pt (sx + (Z.of_nat i mod 4) * 250) (sy + (Z.of_nat i / 4) * 150)
       ∧ integerValue (pos_x (gridPosition startX startY i))
         = Some (sx + (Z.of_nat i mod 4) * 250)%Z
       ∧ integerValue (pos_y (gridPosition startX startY i))
         = Some (sy + (Z.of_nat i / 4) * 150)%Z).
Proof.
  intros Hn.
  assert (autoLayoutNodes ns startX startY !! i = Some (layoutNode startX startY i n))
    as Hi.
  { unfold autoLayoutNodes. by rewrite list_lookup_imap Hn. }
  split; [|split; [|split]].
  - intros Hz. eexists. split; [exact Hi|]. by rewrite layoutNode_unplaced.
  - intros Hnz. by rewrite Hi layoutNode_placed.
  - unfold autoLayoutNodes. by rewrite length_imap.
  - clear Hi. intros sx sy -> -> Hx Hy Hi. unfold safe in *.
    rewrite gridPosition_exact; [|lia|lia|done]. split; [done|].
    change (2 ^ 52)%Z with 4503599627370496%Z in *.
    change (2 ^ 32)%Z with 4294967296%Z in *.
    assert (0 ≤ Z.of_nat i mod 4 < 4)%Z as Hc by (apply Z.mod_pos_bound; lia).
    assert (0 ≤ Z.of_nat i / 4 < 1073741824)%Z as Hr.
    { split; [apply Z.div_pos; lia|apply Z.div_lt_upper_bound; lia]. }
    unfold pt. cbn [pos_x pos_y].
    split; apply integerValue_of_Z; change (2 ^ 53)%Z with 9007199254740992%Z; lia.
Qed.

Example autoLayoutNodes_six :
  node_position <$>
    autoLayoutNodes
      [nd0 "n0"; nd0 "n1"; mkNode "n2" api "N2" (pt 0 7) (mkData None None None None);
       nd0 "n3"; nd0 "n4"; nd0 "n5"] (Number_of_Z 100) (Number_of_Z 400)
  = [pt 100 400; pt 350 400; pt 0 7; pt 850 400; pt 100 550; pt 350 550].
Proof. by vm_compute. Qed.

(** A node at [(-0, 0)] is at the origin as well. *)
Example autoLayoutNodes_negative_zero :
  node_position <$>
    autoLayoutNodes
      [mkNode "n0" api "N0" (mkPosition (S754_zero true) (S754_zero false))
         (mkData None None None None)] (Number_of_Z 100) (Number_of_Z 400)
  = [pt 100 400].
Proof. by vm_compute. Qed.

(** C7, as stated, fails when the sums are read as exact: they are
    those of binary64 numbers and round beyond the safe range.  From
    [startX = 2^60] the unpositioned node at index 1 is put at
    [x = 2^60 + 256], the number nearest to [2^60 + 250]. *)
Lemma autoLayoutNodes_rounding_counterexample :
  ¬ ∀ ns startX startY i n sx,
      ns !! i = Some n → atOrigin (node_position n) →
      integerValue startX = Some sx →
      ∃ r, autoLayoutNodes ns startX startY !! i = Some r
        ∧ integerValue (pos_x (node_position r))
          = Some (sx + (Z.of_nat i mod 4) * 250)%Z.
Proof.
  intros H.
  destruct (H [nd0 "n0"; nd0 "n1"] (Number_of_Z (2 ^ 60)) (Number_of_Z 400) 1%nat
              (nd0 "n1") (2 ^ 60)%Z eq_refl) as (r & Hr & Hv).
  - split; by exists false.
  - reflexivity.
  - vm_compute in Hr. injection Hr as <-. vm_compute in Hv. discriminate Hv.
Qed.

Example autoLayoutNodes_rounds :
  node_position <$>
    autoLayoutNodes [nd0 "n0"; nd0 "n1"] (Number_of_Z (2 ^ 60)) (Number_of_Z 400)
  = [pt (2 ^ 60) 400; pt (2 ^ 60 + 256) 400].
Proof. by vm_compute. Qed.

(** A start that is not an integer: from [startX = 1/2] the second
    column is at [250 + 1/2]. *)
Example autoLayoutNodes_half :
  pos_x <$> (node_position <$>
    autoLayoutNodes [nd0 "n0"; nd0 "n1"] (S754_finite false 4503599627370496 (-53))
      (Number_of_Z 400))
  = [S754_finite false 4503599627370496 (-53);
     S754_finite false 8813685208252416 (-45)].
Proof. by vm_compute. Qed.

Lemma autoLayoutNodes_grid_witness :
  ∃ r, autoLayoutNodes [nd0 "n0"; nd0 "n1"; nd0 "n2"; nd0 "n3"; nd0 "n4"; nd0 "n5"]
         (Number_of_Z 100) (Number_of_Z 400) !! 5%nat = Some r
       ∧ node_position r = pt 350 550.
Proof.
  destruct (autoLayoutNodes_grid
              [nd0 "n0"; nd0 "n1"; nd0 "n2"; nd0 "n3"; nd0 "n4"; nd0 "n5"]
              (Number_of_Z 100) (Number_of_Z 400) 5 (nd0 "n5") eq_refl)
    as (Hz & _ & _ & Hexact).
  destruct Hz as (r & Hr & Hp & _).
  { split; by exists false. }
  exists r. split; [exact Hr|]. rewrite Hp.
  apply (Hexact 100%Z 400%Z eq_refl eq_refl); unfold safe; simpl; lia.
Defined.

(** ** Integrity validator *)

Lemma dup_loop_length msg ids errs seen :
  length (foldl (dup_iter msg) (errs, seen) ids).1 + size (Set_of ids ∖ seen)
  = length errs + length ids.
Proof.
  revert errs seen. induction ids as [|i r IH]; intros errs seen; simpl.
  - unfold Set_of. simpl. rewrite difference_disjoint_L; [|set_solver].
    rewrite size_empty. lia.
  - unfold dup_iter at 2; simpl. unfold Set_of in *. simpl.
    destruct (decide (i ∈ seen)) as [Hin|Hin].
    + specialize (IH (errs ++ [msg +:+ i]) ({[i]} ∪ seen)).
      rewrite length_app /= in IH.
      replace (({[i]} ∪ list_to_set r) ∖ seen)
        with (list_to_set r ∖ ({[i]} ∪ seen) : gset string); [lia|].
      apply set_eq. intros x.
      rewrite !elem_of_difference !elem_of_union !elem_of_singleton.
      destruct (decide (x = i)) as [->|]; naive_solver.
    + specialize (IH errs ({[i]} ∪ seen)).
      replace (({[i]} ∪ list_to_set r) ∖ seen)
        with ({[i]} ∪ list_to_set r ∖ ({[i]} ∪ seen) : gset string).
      2:{ apply set_eq. intros x.
          rewrite !elem_of_union !elem_of_difference !elem_of_union !elem_of_singleton.
          destruct (decide (x = i)) as [->|]; naive_solver. }
      rewrite size_union.
      2:{ intros x. rewrite elem_of_singleton elem_of_difference elem_of_union
            elem_of_singleton. naive_solver. }
      rewrite size_singleton. lia.
Qed.

Lemma size_Set_of_le ids : (size (Set_of ids) ≤ length ids)%nat.
Proof.
  induction ids as [|i r IH]; unfold Set_of in *.
  - by rewrite list_to_set_nil size_empty.
  - rewrite list_to_set_cons size_union_alt size_singleton.
    assert (size (list_to_set r ∖ {[i]} : gset string) ≤ size (list_to_set r : gset string))%nat.
    { apply subseteq_size. set_solver. }
    simpl. lia.
Qed.

Lemma dup_loop_count msg ids errs :
  length (foldl (dup_iter msg) (errs, ∅) ids).1 = length errs + duplicates ids.
Proof.
  pose proof (dup_loop_length msg ids errs ∅) as H.
  rewrite difference_empty_L in H.
  pose proof (size_Set_of_le ids). unfold duplicates. lia.
Qed.

Lemma duplicates_NoDup ids : duplicates ids = 0 ↔ NoDup ids.
Proof.
  unfold duplicates. pose proof (size_Set_of_le ids) as Hle.
  split.
  - intros H. assert (size (Set_of ids) = length ids) as Hs by lia. clear H Hle.
    induction ids as [|i r IH]; [constructor|].
    unfold Set_of in *. simpl in Hs.
    pose proof (size_Set_of_le r) as Hr. unfold Set_of in Hr.
    destruct (decide (i ∈ r)) as [Hin|Hin].
    + exfalso. replace ({[i]} ∪ list_to_set r) with (list_to_set r : gset string) in Hs
        by set_solver. lia.
    + constructor; [done|]. apply IH.
      rewrite size_union in Hs; [|set_solver]. rewrite size_singleton in Hs. lia.
  - intros Hnd. unfold Set_of. rewrite size_list_to_set //. lia.
Qed.

Lemma ref_loop_length nodeIds es errs :
  length (foldl (ref_iter nodeIds) errs es)
  = length errs + length (filter (λ e, edge_source e ∉ nodeIds) es)
    + length (filter (λ e, edge_target e ∉ nodeIds) es).
Proof.
  revert errs. induction es as [|e r IH]; intros errs; simpl; [lia|].
  rewrite IH !filter_cons. unfold ref_iter.
  destruct (decide (edge_source e ∉ nodeIds)), (decide (edge_target e ∉ nodeIds));
    rewrite ?length_app /=; lia.
Qed.

Lemma validate_count S :
  length (errors (validateGraphState S))
  = duplicates (node_ids (nodes S)) + duplicates (edge_ids (edges S))
    + length (missingSources S) + length (missingTargets S).
Proof.
  unfold validateGraphState; simpl.
  rewrite ref_loop_length.
  change (foldl edgeDup_iter ?a (edges S))
    with (foldl (λ acc e, dup_iter "Duplicate edge ID: " acc (edge_id e)) a (edges S)).
  change (foldl nodeDup_iter ?a (nodes S))
    with (foldl (λ acc n, dup_iter "Duplicate node ID: " acc (node_id n)) a (nodes S)).
  rewrite -!foldl_fmap. fold (node_ids (nodes S)) (edge_ids (edges S)).
  rewrite !dup_loop_count /=.
  unfold missingSources, missingTargets.
  rewrite (list_filter_iff (λ e, edge_source e ∉ Set_of _) (λ e, edge_source e ∉ node_ids (nodes S))).
  2:{ intros e. unfold Set_of. by rewrite elem_of_list_to_set. }
  rewrite (list_filter_iff (λ e, edge_target e ∉ Set_of _) (λ e, edge_target e ∉ node_ids (nodes S))).
  2:{ intros e. unfold Set_of. by rewrite elem_of_list_to_set. }
  lia.
Qed.

Lemma filter_length_zero {A} (P : A → Prop) `{!∀ a, Decision (P a)} (l : list A) :
  length (filter P l) = 0 ↔ Forall (λ a, ¬ P a) l.
Proof.
  induction l as [|a l IH]; [by split; [constructor|]|].
  rewrite filter_cons Forall_cons. destruct (decide (P a)); simpl.
  - split; [done|]. by intros [? _].
  - rewrite IH. tauto.
Qed.

(** C8: [valid] is true exactly when no two nodes share an id, no two
    edges share an id and every edge's source and target are node ids.
    Every violation adds one message (a repeated node id, a repeated
    edge id, a missing source, a missing target; an edge with both ends
    missing counts twice), so [errors] is empty exactly when [valid] is
    true.  The function only reads the state. *)
Theorem validateGraphState_spec S :
  let r := validateGraphState S in
  (valid r = true ↔
     NoDup (node_ids (nodes S)) ∧ NoDup (edge_ids (edges S)) ∧ noDanglingEdges S)
  ∧ (errors r = [] ↔ valid r = true)
  ∧ length (errors r)
    = duplicates (node_ids (nodes S)) + duplicates (edge_ids (edges S))
      + length (missingSources S) + length (missingTargets S).
Proof.
  intros r. subst r. pose proof (validate_count S) as Hc.
  assert (valid (validateGraphState S) = true ↔ length (errors (validateGraphState S)) = 0)
    as Hv.
  { unfold validateGraphState; simpl. apply bool_decide_eq_true. }
  split; [|split; [|done]].
  - rewrite Hv Hc -!duplicates_NoDup.
    assert (length (missingSources S) = 0
            ↔ Forall (λ e, edge_source e ∈ node_ids (nodes S)) (edges S)) as Hs.
    { unfold missingSources. rewrite filter_length_zero. apply Forall_iff.
      intros e. split; [apply dec_stable|tauto]. }
    assert (length (missingTargets S) = 0
            ↔ Forall (λ e, edge_target e ∈ node_ids (nodes S)) (edges S)) as Ht.
    { unfold missingTargets. rewrite filter_length_zero. apply Forall_iff.
      intros e. split; [apply dec_stable|tauto]. }
    unfold noDanglingEdges. rewrite Forall_and -Hs -Ht. lia.
  - rewrite Hv. by rewrite length_zero_iff_nil.
Qed.

Example validate_broken :
  validateGraphState state_broken =
  mkValidation false
    ["Duplicate node ID: a"; "Duplicate edge ID: e1";
     "Edge e1 references non-existent target node: x";
     "Edge e2 references non-existent source node: y";
     "Edge e2 references non-existent target node: z"].
Proof. by vm_compute. Qed.

Example validate_ok : validateGraphState state_ab = mkValidation true [].
Proof. by vm_compute. Qed.

(** ** Change summarizer *)

Lemma join_concat sep parts : join sep parts = String.concat sep parts.
Proof.
  induction parts as [|p [|q rest] IH]; [done|done|].
  change (join sep (p :: q :: rest)) with (p +:+ sep +:+ join sep (q :: rest)).
  by rewrite IH.
Qed.

Lemma num_numeral n : numeral (num n) n.
Proof.
  unfold numeral, num. apply NilZero.usu.
  rewrite -(DecimalNat.Unsigned.of_to n) DecimalNat.Unsigned.to_of.
  apply DecimalFacts.unorm_nonnil.
Qed.

Lemma numeral_functional s s' n : numeral s n → numeral s' n → s = s'.
Proof. intros H%NilZero.sus H'%NilZero.sus. congruence. Qed.

(** What one block of the summarizer pushes is the sentence of its
    category. *)
Lemma pushed_sentence {A} (verb noun : string) (name : A → string)
    (category : option (list A)) (parts : list string) :
  ∃ s, sentenceOf verb noun name category s
    ∧ match present category with
      | Some l =>
          parts ++ [verb +:+ num (length l) +:+ noun +:+ join ", " (name <$> l)]
      | None => parts
      end = parts ++ omap id [s].
Proof.
  destruct category as [[|a l]|]; cbn [present].
  - exists None. split; [constructor|]. by rewrite app_nil_r.
  - eexists (Some _). split; [apply sentence_listed, num_numeral|].
    by rewrite join_concat.
  - exists None. split; [constructor|]. by rewrite app_nil_r.
Qed.

Lemma pushed_sentence_id (verb noun : string) (category : option (list string))
    (parts : list string) :
  ∃ s, sentenceOf verb noun id category s
    ∧ match present category with
      | Some l => parts ++ [verb +:+ num (length l) +:+ noun +:+ join ", " l]
      | None => parts
      end = parts ++ omap id [s].
Proof.
  destruct (pushed_sentence verb noun id category parts) as (s & Hs & E).
  exists s. split; [done|]. rewrite -E.
  destruct (present category); [|done]. by rewrite list_fmap_id.
Qed.

Lemma sentenceOf_functional {A} (verb noun : string) (name : A → string)
    category s s' :
  sentenceOf verb noun name category s → sentenceOf verb noun name category s' →
  s = s'.
Proof.
  intros H H'. inversion H; subst; inversion H'; subst; try done.
  by rewrite (numeral_functional count count0 (length (a :: l))).
Qed.

Lemma summary_summaryOf delta : summaryOf delta (generateChangeSummary delta).
Proof.
  unfold generateChangeSummary.
  destruct (pushed_sentence "Added " " node(s): " nodeLabel (addNodes delta) [])
    as (s1 & H1 & ->).
  destruct (pushed_sentence "Updated " " node(s): " upd_id (updateNodes delta)
              ([] ++ omap id [s1])) as (s2 & H2 & ->).
  destruct (pushed_sentence_id "Removed " " node(s): " (removeNodeIds delta)
              (([] ++ omap id [s1]) ++ omap id [s2])) as (s3 & H3 & ->).
  destruct (pushed_sentence "Added " " edge(s): " edgeLabel (addEdges delta)
              ((([] ++ omap id [s1]) ++ omap id [s2]) ++ omap id [s3]))
    as (s4 & H4 & ->).
  destruct (pushed_sentence_id "Removed " " edge(s): " (removeEdgeIds delta)
              (((([] ++ omap id [s1]) ++ omap id [s2]) ++ omap id [s3]) ++ omap id [s4]))
    as (s5 & H5 & ->).
  exists s1, s2, s3, s4, s5. do 5 (split; [done|]).
  rewrite join_concat.
  by destruct s1, s2, s3, s4, s5.
Qed.

(** C9: the summary is the one the description gives: the sentences of
    the non-empty categories, in the order added nodes, updated nodes,
    removed nodes, added edges, removed edges, joined with [". "] and
    closed by a full stop, each sentence with the count as a decimal
    numeral; a delta with no operations gives the fixed sentence; and a
    delta adding the single node labelled [X] of kind service gives a
    text that contains [Added 1 node(s): "X" (service)]. *)
Theorem generateChangeSummary_spec delta :
  (∀ result, summaryOf delta result ↔ result = generateChangeSummary delta)
  ∧ (noOperations delta →
     generateChangeSummary delta = "No changes were made to the graph.")
  ∧ (∀ n, addNodes delta = Some [n] → node_label n = "X" → node_kind n = service →
     contains (generateChangeSummary delta)
       ("Added 1 node(s): " +:+ quoteMark +:+ "X" +:+ quoteMark +:+ " (service)")).
Proof.
  split; [|split].
  - intros result. split; [|intros ->; apply summary_summaryOf].
    intros (s1 & s2 & s3 & s4 & s5 & H1 & H2 & H3 & H4 & H5 & ->).
    destruct (summary_summaryOf delta)
      as (t1 & t2 & t3 & t4 & t5 & G1 & G2 & G3 & G4 & G5 & ->).
    by rewrite (sentenceOf_functional _ _ _ _ _ _ H1 G1)
         (sentenceOf_functional _ _ _ _ _ _ H2 G2)
         (sentenceOf_functional _ _ _ _ _ _ H3 G3)
         (sentenceOf_functional _ _ _ _ _ _ H4 G4)
         (sentenceOf_functional _ _ _ _ _ _ H5 G5).
  - intros (H1 & H2 & H3 & H4 & H5). unfold generateChangeSummary.
    by rewrite H1 H2 H3 H4 H5.
  - intros n Hadd Hl Hk. exists EmptyString.
    destruct delta as [an [[|? ?]|] [[|? ?]|] [[|? ?]|] [[|? ?]|]]; simpl in Hadd;
      subst an; unfold generateChangeSummary, nodeLabel; simpl; rewrite Hl Hk;
      simpl; eexists; reflexivity.
Qed.

(** The summary of a delta with every kind of operation, character by
    character. *)
Example summary_full :
  generateChangeSummary
    (mkDelta (Some [nd0 "p"; mkNode "q" db "Q" (pt 1 1) (mkData None None None None)])
       (Some [update_a_kind]) (Some ["b"; "c"])
       (Some [mkEdge "e1" "p" "q" queries None]) (Some ["e9"]))
  = "Added 2 node(s): " +:+ quoteMark +:+ "p" +:+ quoteMark +:+ " (service), "
      +:+ quoteMark +:+ "Q" +:+ quoteMark +:+ " (db)"
      +:+ ". Updated 1 node(s): a. Removed 2 node(s): b, c. Added 1 edge(s): "
      +:+ "p â†’ q (queries)"
      +:+ ". Removed 1 edge(s): e9.".
Proof. by vm_compute. Qed.

Lemma generateChangeSummary_spec_witness :
  generateChangeSummary emptyDelta = "No changes were made to the graph."
  ∧ contains (generateChangeSummary delta_add_x)
      ("Added 1 node(s): " +:+ quoteMark +:+ "X" +:+ quoteMark +:+ " (service)").
Proof.
  split.
  - apply (proj1 (proj2 (generateChangeSummary_spec emptyDelta))).
    repeat split; reflexivity.
  - apply (proj2 (proj2 (generateChangeSummary_spec delta_add_x))
             (mkNode "x" service "X" (pt 0 0) (mkData None None None None)));
      reflexivity.
Defined.

(** ** Delta parser *)

(** *** The brace match is the text from the first [{] to the last [}] *)

Lemma matchToLastBrace_None s : matchToLastBrace s = None ↔ RBRACE ∉ s.
Proof.
  induction s as [|c r IH]; simpl.
  - split; [intros _; apply not_elem_of_nil|done].
  - destruct (matchToLastBrace r) as [m|].
    + split; [done|]. intros Hc. exfalso.
      assert (RBRACE ∉ r) as Hr by (intros ?; apply Hc; by right).
      apply IH in Hr. done.
    + destruct (N.eqb_spec c RBRACE) as [->|Hne].
      * split; [done|]. intros Hc. exfalso. apply Hc. by left.
      * split; [|done]. intros _. rewrite not_elem_of_cons. split; [done|].
        by apply IH.
Qed.

Lemma matchToLastBrace_app mid post :
  RBRACE ∉ post → matchToLastBrace (mid ++ RBRACE :: post) = Some (mid ++ [RBRACE]).
Proof.
  intros Hpost. induction mid as [|c mid IH]; simpl.
  - apply matchToLastBrace_None in Hpost. by rewrite Hpost.
  - by rewrite IH.
Qed.

Lemma matchToLastBrace_Some s m :
  matchToLastBrace s = Some m →
  ∃ mid post, s = mid ++ RBRACE :: post ∧ m = mid ++ [RBRACE] ∧ RBRACE ∉ post.
Proof.
  revert m. induction s as [|c r IH]; intros m; simpl; [done|].
  destruct (matchToLastBrace r) as [m'|] eqn:Hr.
  - intros [= <-]. destruct (IH m' eq_refl) as (mid & post & -> & -> & Hpost).
    by exists (c :: mid), post.
  - destruct (N.eqb_spec c RBRACE) as [->|Hne]; [|done].
    intros [= <-]. exists [], r. split; [done|]. split; [done|].
    by apply matchToLastBrace_None.
Qed.

Lemma matchBraces_app pre mid post :
  LBRACE ∉ pre → RBRACE ∉ post →
  matchBraces (pre ++ LBRACE :: mid ++ RBRACE :: post) = Some (LBRACE :: mid ++ [RBRACE]).
Proof.
  intros Hpre Hpost. induction pre as [|c pre IH]; simpl.
  - by rewrite matchToLastBrace_app.
  - rewrite not_elem_of_cons in Hpre. destruct Hpre as [Hne Hpre].
    destruct (N.eqb_spec c LBRACE) as [->|_]; [done|]. by apply IH.
Qed.

Lemma matchBraces_Some s m :
  matchBraces s = Some m →
  ∃ pre mid post, s = pre ++ LBRACE :: mid ++ RBRACE :: post
    ∧ m = LBRACE :: mid ++ [RBRACE] ∧ LBRACE ∉ pre ∧ RBRACE ∉ post.
Proof.
  revert m. induction s as [|c r IH]; intros m; simpl; [done|].
  assert (c ≠ LBRACE → matchBraces r = Some m →
          ∃ pre mid post, c :: r = pre ++ LBRACE :: mid ++ RBRACE :: post
            ∧ m = LBRACE :: mid ++ [RBRACE] ∧ LBRACE ∉ pre ∧ RBRACE ∉ post) as Hskip.
  { intros Hne Hm. destruct (IH m Hm) as (pre & mid & post & -> & -> & Hpre & Hpost).
    exists (c :: pre), mid, post. repeat split; [|done].
    rewrite not_elem_of_cons. split; [congruence|done]. }
  destruct (N.eqb_spec c LBRACE) as [->|Hne]; [|by apply Hskip].
  destruct (matchToLastBrace r) as [m'|] eqn:Hr.
  - intros [= <-]. apply matchToLastBrace_Some in Hr as (mid & post & -> & -> & Hpost).
    exists [], mid, post. repeat split; [apply not_elem_of_nil|done].
  - intros Hm. exfalso.
    destruct (IH m Hm) as (pre & mid & post & -> & _).
    apply matchToLastBrace_None in Hr. apply Hr.
    rewrite elem_of_app. right. right. rewrite elem_of_app. right. by left.
Qed.

Lemma matchBraces_None s :
  matchBraces s = None →
  ∀ pre mid post, s ≠ pre ++ LBRACE :: mid ++ RBRACE :: post.
Proof.
  induction s as [|c r IH]; simpl; intros Hm pre mid post Heq.
  - by destruct pre.
  - assert (matchBraces r = None ∧ (pre = [] → RBRACE ∉ r)) as [Hr Hno].
    { destruct (N.eqb_spec c LBRACE) as [->|Hne].
      - destruct (matchToLastBrace r) eqn:Hl; [done|].
        split; [done|]. intros _. by apply matchToLastBrace_None.
      - split; [done|]. intros ->. simpl in Heq. congruence. }
    destruct pre as [|c' pre]; simpl in Heq; injection Heq as -> ->.
    + apply (Hno eq_refl). rewrite elem_of_app. right. by left.
    + by apply (IH Hr pre mid post).
Qed.

(** *** Trimming and fences *)

Lemma isWhiteSpace_spec c : isWhiteSpace c = true ↔ c ∈ whiteSpace.
Proof.
  unfold whiteSpace. rewrite !elem_of_cons elem_of_nil. unfold isWhiteSpace.
  rewrite !orb_true_iff andb_true_iff !N.eqb_eq !N.leb_le. lia.
Qed.

Lemma isWhiteSpace_not c : isWhiteSpace c = false ↔ c ∉ whiteSpace.
Proof. rewrite -isWhiteSpace_spec. by destruct (isWhiteSpace c). Qed.

Lemma trimStart_spec s :
  ∃ ws, s = ws ++ trimStart s ∧ blank ws
    ∧ ∀ c, head (trimStart s) = Some c → c ∉ whiteSpace.
Proof.
  induction s as [|a s (ws & Hs & Hws & Hhead)]; simpl.
  - exists []. split; [done|]. split; [constructor|done].
  - destruct (isWhiteSpace a) eqn:Ha.
    + exists (a :: ws). split; [by rewrite /= -Hs|].
      split; [|done]. constructor; [by apply isWhiteSpace_spec|done].
    + exists []. split; [done|]. split; [constructor|].
      intros c [= <-]. by apply isWhiteSpace_not.
Qed.

Lemma trimEnd_spec s :
  ∃ ws, s = trimEnd s ++ ws ∧ blank ws
    ∧ ∀ c, last (trimEnd s) = Some c → c ∉ whiteSpace.
Proof.
  unfold trimEnd.
  destruct (trimStart_spec (reverse s)) as (ws & Hs & Hws & Hhead).
  exists (reverse ws). split; [|split].
  - rewrite -reverse_app -Hs. by rewrite reverse_involutive.
  - by apply Forall_reverse.
  - intros c. rewrite last_reverse. apply Hhead.
Qed.

Lemma trim_trimmed s : trimmed s (trim s).
Proof.
  unfold trim.
  destruct (trimStart_spec s) as (ws1 & Hs & Hws1 & Hhead).
  destruct (trimEnd_spec (trimStart s)) as (ws2 & Hu & Hws2 & Hlast).
  exists ws1, ws2. split; [by rewrite -Hu|]. split; [done|]. split; [done|].
  split; [|done]. intros c Hc. apply Hhead. rewrite Hu.
  destruct (trimEnd (trimStart s)); [done|exact Hc].
Qed.

Lemma trimStart_blank ws s : blank ws → trimStart (ws ++ s) = trimStart s.
Proof.
  induction 1 as [|c ws Hc _ IH]; simpl; [done|].
  by rewrite (proj2 (isWhiteSpace_spec c) Hc).
Qed.

Lemma trimStart_solid s :
  (∀ c, head s = Some c → c ∉ whiteSpace) → trimStart s = s.
Proof.
  destruct s as [|a s]; [done|]. intros H. simpl.
  by rewrite (proj2 (isWhiteSpace_not a) (H a eq_refl)).
Qed.

Lemma trimmed_functional s t : trimmed s t → t = trim s.
Proof.
  intros (ws1 & ws2 & -> & H1 & H2 & Hhead & Hlast). unfold trim, trimEnd.
  rewrite trimStart_blank //.
  destruct t as [|a t].
  - simpl. by rewrite -(app_nil_r ws2) trimStart_blank.
  - rewrite (trimStart_solid ((a :: t) ++ ws2)); [|exact Hhead].
    rewrite reverse_app trimStart_blank; [|by apply Forall_reverse].
    rewrite trimStart_solid; [by rewrite reverse_involutive|].
    intros c. rewrite head_reverse. apply Hlast.
Qed.

Lemma startsWith_prefix s p : startsWith s p = true ↔ p `prefix_of` s.
Proof.
  revert s. induction p as [|a p IH]; intros s; simpl.
  - split; [intros _; apply prefix_nil|done].
  - destruct s as [|b s].
    + split; [done|]. intros [k Hk]. discriminate Hk.
    + rewrite andb_true_iff N.eqb_eq IH. split.
      * intros [-> Hp]. by apply prefix_cons.
      * intros [k Hk]. injection Hk as -> ->. split; [done|]. by exists k.
Qed.

Lemma endsWith_suffix s p : endsWith s p = true ↔ p `suffix_of` s.
Proof.
  unfold endsWith. rewrite startsWith_prefix. split.
  - intros [k Hk]. exists (reverse k).
    by rewrite -(reverse_involutive s) Hk reverse_app reverse_involutive.
  - intros [k ->]. exists (reverse k). by rewrite reverse_app.
Qed.

Lemma stripLeadingFence_spec t : leadingFenceStripped t (stripLeadingFence t).
Proof.
  unfold stripLeadingFence, sliceFrom.
  destruct (startsWith t fenceJson) eqn:Hj.
  - apply startsWith_prefix in Hj as [r ->].
    change 7%nat with (length fenceJson). rewrite drop_app_length. apply leading_json.
  - destruct (startsWith t fence) eqn:Hf.
    + apply startsWith_prefix in Hf as [r ->].
      change 3%nat with (length fence). rewrite drop_app_length. apply leading_bare.
      intros H%startsWith_prefix. change ticksJson with fenceJson in H.
      change ticks with fence in H. congruence.
    + apply leading_none. intros H%startsWith_prefix.
      change ticks with fence in H. congruence.
Qed.

Lemma leadingFenceStripped_functional t u :
  leadingFenceStripped t u → u = stripLeadingFence t.
Proof.
  intros H. unfold stripLeadingFence, sliceFrom. destruct H as [r|r Hno|s Hno].
  - by rewrite (proj2 (startsWith_prefix (ticksJson ++ r) fenceJson) (prefix_app_r _ _ _ (reflexivity _))).
  - destruct (startsWith (ticks ++ r) fenceJson) eqn:Hj.
    { apply startsWith_prefix in Hj. by destruct Hno. }
    by rewrite (proj2 (startsWith_prefix (ticks ++ r) fence) (prefix_app_r _ _ _ (reflexivity _))).
  - destruct (startsWith s fenceJson) eqn:Hj.
    { apply startsWith_prefix in Hj as [k ->]. destruct Hno.
      by exists (units "json" ++ k). }
    destruct (startsWith s fence) eqn:Hf; [|done].
    apply startsWith_prefix in Hf. by destruct Hno.
Qed.

Lemma stripTrailingFence_spec t : trailingFenceStripped t (stripTrailingFence t).
Proof.
  unfold stripTrailingFence, sliceDropEnd.
  destruct (endsWith t fence) eqn:Hf.
  - apply endsWith_suffix in Hf as [r ->].
    rewrite length_app Nat.add_sub take_app_length. apply trailing_fence.
  - apply trailing_none. intros H%endsWith_suffix.
    change ticks with fence in H. congruence.
Qed.

Lemma trailingFenceStripped_functional t u :
  trailingFenceStripped t u → u = stripTrailingFence t.
Proof.
  intros H. unfold stripTrailingFence, sliceDropEnd. destruct H as [r|s Hno].
  - rewrite (proj2 (endsWith_suffix (r ++ ticks) fence)); [|by exists r].
    by rewrite length_app Nat.add_sub take_app_length.
  - destruct (endsWith s fence) eqn:Hf; [|done].
    apply endsWith_suffix in Hf. by destruct Hno.
Qed.

(** The text handed to [JSON.parse] is the cleaned text of the
    description, and there is no other. *)
Lemma cleanResponse_cleaned response c :
  cleaned response c ↔ c = cleanResponse response.
Proof.
  unfold cleanResponse. split.
  - intros (t1 & t2 & t3 & ->%trimmed_functional & ->%leadingFenceStripped_functional
            & ->%trailingFenceStripped_functional & ->%trimmed_functional). done.
  - intros ->. eexists _, _, _. split; [apply trim_trimmed|].
    split; [apply stripLeadingFence_spec|]. split; [apply stripTrailingFence_spec|].
    apply trim_trimmed.
Qed.

Lemma matchBraces_iff s m :
  matchBraces s = Some m ↔
  ∃ pre mid post, s = pre ++ LBRACE :: mid ++ RBRACE :: post
    ∧ m = LBRACE :: mid ++ [RBRACE] ∧ LBRACE ∉ pre ∧ RBRACE ∉ post.
Proof.
  split; [apply matchBraces_Some|].
  intros (pre & mid & post & -> & -> & Hpre & Hpost). by apply matchBraces_app.
Qed.

Example cleanResponse_scenarioD : cleanResponse scenarioD = jsonAddNodes.
Proof. by vm_compute. Qed.

Example cleanResponse_scenarioE : cleanResponse scenarioE = scenarioE.
Proof. by vm_compute. Qed.

Example matchBraces_scenarioE : matchBraces scenarioE = Some jsonAddNodes.
Proof. by vm_compute. Qed.

(** Only one fence is taken from each end, and a leading fence is taken
    when no closing fence follows. *)
Example cleanResponse_fences :
  cleanResponse (units "``````{}``````") = units "```{}```"
  ∧ cleanResponse (units "```json {}") = units "{}"
  ∧ cleanResponse (units "{} ```") = units "{}".
Proof. by vm_compute. Qed.

Section ParserSpec.
Context {JSON : Type}.
Variable JSON_parse : text → option JSON.
Variable safeParse : JSON → string + GraphDelta.

Local Abbreviation parse := (parseAndValidateDelta JSON_parse safeParse).

Lemma validateDelta_Parsed v d :
  validateDelta safeParse v = Parsed d ↔ safeParse v = inr d.
Proof.
  unfold validateDelta. destruct (safeParse v); split; congruence.
Qed.

Lemma parse_unfold response :
  parse response =
  match JSON_parse (cleanResponse response) with
  | Some parsed => validateDelta safeParse parsed
  | None =>
      match matchBraces (cleanResponse response) with
      | Some jsonMatch =>
          match JSON_parse jsonMatch with
          | Some parsed => validateDelta safeParse parsed
          | None => JsonSyntaxError
          end
      | None => NoJsonFound
      end
  end.
Proof. reflexivity. Qed.

Lemma parse_direct response v :
  JSON_parse (cleanResponse response) = Some v →
  parse response = validateDelta safeParse v.
Proof. intros H. by rewrite parse_unfold H. Qed.

Lemma parse_fallback response m :
  JSON_parse (cleanResponse response) = None →
  matchBraces (cleanResponse response) = Some m →
  parse response =
  match JSON_parse m with
  | Some parsed => validateDelta safeParse parsed
  | None => JsonSyntaxError
  end.
Proof. intros H Hm. by rewrite parse_unfold H Hm. Qed.

Lemma parse_Parsed response d :
  let c := cleanResponse response in
  parse response = Parsed d ↔
    (∃ v, JSON_parse c = Some v ∧ safeParse v = inr d)
    ∨ (JSON_parse c = None ∧
       ∃ pre mid post v,
         c = pre ++ 123%N :: mid ++ 125%N :: post
         ∧ 123%N ∉ pre ∧ 125%N ∉ post
         ∧ JSON_parse (123%N :: mid ++ [125%N]) = Some v
         ∧ safeParse v = inr d).
Proof.
  intros c. destruct (JSON_parse c) as [v|] eqn:Hdirect.
  - rewrite (parse_direct _ v Hdirect) validateDelta_Parsed. split.
    + intros Hv. left. by exists v.
    + by intros [(v' & [= <-] & Hv)|[[=] _]].
  - split.
    + destruct (matchBraces c) as [m|] eqn:Hm.
      * rewrite (parse_fallback _ m Hdirect Hm).
        destruct (JSON_parse m) as [v|] eqn:Hv; [|done].
        rewrite validateDelta_Parsed. intros Hs. right. split; [done|].
        apply matchBraces_Some in Hm as (pre & mid & post & Hc & -> & Hpre & Hpost).
        by exists pre, mid, post, v.
      * by rewrite parse_unfold -/c Hdirect Hm.
    + intros [(v & [=] & _)|[_ (pre & mid & post & v & Hc & Hpre & Hpost & Hv & Hs)]].
      assert (matchBraces c = Some (LBRACE :: mid ++ [RBRACE])) as Hm.
      { apply matchBraces_iff. by exists pre, mid, post. }
      rewrite (parse_fallback _ _ Hdirect Hm) Hv. by apply validateDelta_Parsed.
Qed.

Lemma parse_NoJsonFound response :
  let c := cleanResponse response in
  JSON_parse c = None →
  (∀ pre mid post, c ≠ pre ++ 123%N :: mid ++ 125%N :: post) →
  parse response = NoJsonFound.
Proof.
  intros c Hdirect Hno. rewrite parse_unfold -/c Hdirect.
  destruct (matchBraces c) as [m|] eqn:Hm; [|done].
  apply matchBraces_Some in Hm as (pre & mid & post & Hc & _).
  by destruct (Hno pre mid post).
Qed.

(** C5: for every response there is exactly one cleaned text: the
    response trimmed, without one leading fence marker ([```json] or
    [```]), without one trailing fence, trimmed again.  The parser parses
    that text, and when that fails the text from its first [{] to its
    last [}].  It returns a delta exactly when the parse it ends up with
    succeeds and the schema accepts the value; with no parse and no
    braces it fails.  The prose-wrapped response of scenario E is left
    as it is by the cleaning and goes through the fallback, the fenced
    one of scenario D is cleaned to the JSON text and goes through the
    direct parse. *)
Theorem parseAndValidateDelta_spec :
  (∀ response, ∃ c,
     (∀ c', cleaned response c' ↔ c' = c)
     ∧ (∀ d, parse response = Parsed d ↔
          (∃ v, JSON_parse c = Some v ∧ safeParse v = inr d)
          ∨ (JSON_parse c = None ∧
             ∃ pre mid post v,
               c = pre ++ 123%N :: mid ++ 125%N :: post
               ∧ 123%N ∉ pre ∧ 125%N ∉ post
               ∧ JSON_parse (123%N :: mid ++ [125%N]) = Some v
               ∧ safeParse v = inr d))
     ∧ (JSON_parse c = None →
        (∀ pre mid post, c ≠ pre ++ 123%N :: mid ++ 125%N :: post) →
        parse response = NoJsonFound))
  ∧ (cleaned scenarioE scenarioE
     ∧ ∀ v d, JSON_parse scenarioE = None → JSON_parse jsonAddNodes = Some v →
         safeParse v = inr d → parse scenarioE = Parsed d)
  ∧ (cleaned scenarioD jsonAddNodes
     ∧ ∀ v d, JSON_parse jsonAddNodes = Some v → safeParse v = inr d →
         parse scenarioD = Parsed d).
Proof.
  split; [|split].
  - intros response. exists (cleanResponse response).
    split; [apply cleanResponse_cleaned|].
    split; [intros d; apply parse_Parsed|apply parse_NoJsonFound].
  - split; [by apply cleanResponse_cleaned|].
    intros v d HE Hj Hs.
    rewrite (parse_fallback scenarioE jsonAddNodes) //.
    rewrite Hj. by apply validateDelta_Parsed.
  - split; [by apply cleanResponse_cleaned|].
    intros v d Hj Hs. rewrite (parse_direct scenarioD v) //.
    by apply validateDelta_Parsed.
Qed.
End ParserSpec.

Lemma parseAndValidateDelta_spec_witness :
  parseAndValidateDelta toyJSON_parse toySafeParse scenarioE
    = Parsed (mkDelta (Some []) None None None None)
  ∧ parseAndValidateDelta toyJSON_parse toySafeParse scenarioD
    = Parsed (mkDelta (Some []) None None None None)
  ∧ parseAndValidateDelta toyJSON_parse toySafeParse (units "no json here") = NoJsonFound.
Proof.
  pose proof (parseAndValidateDelta_spec toyJSON_parse toySafeParse)
    as (Hall & (_ & HE) & (_ & HD)).
  split; [|split].
  - apply (HE tt); reflexivity.
  - apply (HD tt); reflexivity.
  - destruct (Hall (units "no json here")) as (c & Hc & _ & Hnone).
    assert (c = units "no json here") as ->.
    { symmetry. apply Hc. by apply cleanResponse_cleaned. }
    apply Hnone; [reflexivity|].
    intros pre mid post Heq.
    assert (123%N ∈ units "no json here") as Hin.
    { rewrite Heq. apply elem_of_app. right. by left. }
    by apply (bool_decide_eq_false_1 (123%N ∈ units "no json here")) in Hin.
Defined.

(** * Further properties of the code *)

Local Open Scope nat_scope.

(** ** More on the append loops *)

Section AcceptMore.
Context {A : Type} (key : A → string) (ok : A → Prop) `{!∀ a, Decision (ok a)}.

Local Abbreviation accept := (accept key ok).

Lemma accept_NoDup seen news : NoDup (key <$> accept seen news).
Proof.
  revert seen. induction news as [|a r IH]; intros seen; simpl; [constructor|].
  case_decide; [|apply IH]. rewrite fmap_cons. constructor; [|apply IH].
  intros (b & Hk & Hb)%list_elem_of_fmap.
  apply (accept_keys_fresh key ok) in Hb. rewrite -Hk in Hb. set_solver.
Qed.

Lemma accept_key_iff seen news i :
  i ∈ key <$> accept seen news ↔ i ∉ seen ∧ ∃ a, a ∈ news ∧ ok a ∧ key a = i.
Proof.
  split.
  - intros (a & -> & Ha)%list_elem_of_fmap. split.
    + by eapply accept_keys_fresh.
    + exists a. split; [by eapply accept_sublist|]. split; [by eapply accept_ok|done].
  - intros (Hfresh & a & Ha & Hok & <-).
    pose proof (accept_covers key ok seen news a Ha Hok) as Hc.
    rewrite elem_of_union elem_of_list_to_set in Hc. by destruct Hc.
Qed.
End AcceptMore.

(** ** What a merge keeps, adds and removes *)

Lemma keptNodes_id_iff S D i :
  i ∈ node_ids (keptNodes S D)
  ↔ i ∈ node_ids (nodes S) ∧ i ∉ default [] (removeNodeIds D).
Proof.
  unfold node_ids, keptNodes. rewrite !list_elem_of_fmap. split.
  - intros (n & -> & Hn). apply list_elem_of_filter in Hn as [Hk Hn].
    split; [by exists n|]. unfold keepNode, Set_of in Hk.
    by rewrite elem_of_list_to_set in Hk.
  - intros [(n & -> & Hn) Hrm]. exists n. split; [done|].
    apply list_elem_of_filter. split; [|done].
    unfold keepNode, Set_of. by rewrite elem_of_list_to_set.
Qed.

Lemma keptEdges_iff S D e :
  e ∈ keptEdges S D ↔ e ∈ edges S ∧ survives D e.
Proof.
  unfold keptEdges, survives, keepEdge, keepEdgeOfNodes, Set_of.
  rewrite !list_elem_of_filter !elem_of_list_to_set. tauto.
Qed.

Lemma merged_node_ids now S D i :
  i ∈ node_ids (nodes (mergeGraphDelta now S D))
  ↔ (i ∈ node_ids (nodes S) ∧ i ∉ default [] (removeNodeIds D))
    ∨ i ∈ node_ids (default [] (addNodes D)).
Proof.
  rewrite merge_nodes nodesAfterUpdate_ids. unfold node_ids at 1.
  rewrite fmap_app elem_of_app. fold (node_ids (keptNodes S D)).
  rewrite keptNodes_id_iff. unfold newNodes.
  rewrite (accept_key_iff node_id anyNode). unfold Set_of.
  rewrite elem_of_list_to_set keptNodes_id_iff. unfold node_ids.
  split.
  - intros [?|[_ (n & Hn & _ & <-)]]; [by left|].
    right. apply list_elem_of_fmap. by exists n.
  - intros [?|(n & -> & Hn)%list_elem_of_fmap]; [by left|].
    destruct (decide (node_id n ∈ node_id <$> nodes S
                      ∧ node_id n ∉ default [] (removeNodeIds D))) as [?|Hno];
      [by left|].
    right. split; [done|]. by exists n.
Qed.

(** X1: the node ids of a merged state are the ids of the state's nodes
    that are not removed, together with the ids of the [addNodes]
    entries. *)
Theorem merge_node_ids now S D i :
  i ∈ node_ids (nodes (mergeGraphDelta now S D))
  ↔ (i ∈ node_ids (nodes S) ∧ i ∉ default [] (removeNodeIds D))
    ∨ i ∈ node_ids (default [] (addNodes D)).
Proof. apply merged_node_ids. Qed.

(** X2: the edge ids of a merged state are the ids of the state's edges
    that survive the removal steps, together with the ids of the
    [addEdges] entries whose two endpoints are node ids of the merged
    state. *)
Theorem merge_edge_ids now S D i :
  i ∈ edge_ids (edges (mergeGraphDelta now S D))
  ↔ (∃ e, e ∈ edges S ∧ survives D e ∧ edge_id e = i)
    ∨ (∃ e, e ∈ default [] (addEdges D) ∧ edge_id e = i
         ∧ edge_source e ∈ node_ids (nodes (mergeGraphDelta now S D))
         ∧ edge_target e ∈ node_ids (nodes (mergeGraphDelta now S D))).
Proof.
  rewrite merge_edges_spec merge_nodes nodesAfterUpdate_ids.
  unfold edge_ids at 1. rewrite fmap_app elem_of_app. unfold newEdges.
  rewrite (accept_key_iff edge_id). unfold Set_of, endpointsIn.
  setoid_rewrite elem_of_list_to_set.
  assert (i ∈ edge_id <$> keptEdges S D
          ↔ ∃ e, e ∈ edges S ∧ survives D e ∧ edge_id e = i) as Hk.
  { rewrite list_elem_of_fmap. split.
    - intros (e & -> & He). apply keptEdges_iff in He as [? ?]. by exists e.
    - intros (e & He & Hs & <-). exists e. split; [done|]. by apply keptEdges_iff. }
  unfold edge_ids. rewrite Hk. split.
  - intros [?|[_ (e & He & [Hs Ht] & <-)]]; [by left|]. right. by exists e.
  - intros [?|(e & He & <- & Hs & Ht)]; [by left|].
    destruct (decide (edge_id e ∈ edge_id <$> keptEdges S D)) as [Hin|Hin].
    + left. by apply Hk.
    + right. split; [intros Hc; apply Hin; by apply Hk|]. by exists e.
Qed.

(** X3: a merge leaves alone what the delta does not name: a node whose
    id is neither removed nor updated, and an edge that survives the
    removal steps, are in the merged state as they were. *)
Theorem merge_frame now S D :
  (∀ n, n ∈ nodes S →
     node_id n ∉ default [] (removeNodeIds D) →
     node_id n ∉ upd_id <$> default [] (updateNodes D) →
     n ∈ nodes (mergeGraphDelta now S D))
  ∧ (∀ e, e ∈ edges S → survives D e → e ∈ edges (mergeGraphDelta now S D)).
Proof.
  split.
  - intros n Hn Hrm Hup. rewrite merge_nodes nodesAfterUpdate_spec.
    apply list_elem_of_fmap. exists n. split.
    + unfold updateNode. by rewrite Map_of_notin.
    + apply elem_of_app. left. unfold keptNodes.
      apply list_elem_of_filter. split; [|done].
      unfold keepNode, Set_of. by rewrite elem_of_list_to_set.
  - intros e He Hs. rewrite merge_edges_spec. apply elem_of_app. left.
    by apply keptEdges_iff.
Qed.

Lemma merge_frame_witness :
  mkNode "a" service "A" (pt 10 20) (mkData None None None None)
    ∈ nodes (mergeGraphDelta "t1" state_ab delta_remove_b_add_c).
Proof.
  apply (proj1 (merge_frame "t1" state_ab delta_remove_b_add_c)).
  - by apply (bool_decide_eq_true_1 _).
  - by apply (bool_decide_eq_true_1 _).
  - by apply (bool_decide_eq_true_1 _).
Defined.

(** X4: a merge never moves a node: every node of the merged state has
    the id and the position of a node of the state or of an [addNodes]
    entry. *)
Theorem merge_keeps_positions now S D r :
  r ∈ nodes (mergeGraphDelta now S D) →
  ∃ n, (n ∈ nodes S ∨ n ∈ default [] (addNodes D))
    ∧ node_id r = node_id n ∧ node_position r = node_position n.
Proof.
  rewrite merge_nodes nodesAfterUpdate_spec.
  intros (n & -> & Hn)%list_elem_of_fmap. exists n. split.
  - apply elem_of_app in Hn as [Hn|Hn].
    + left. unfold keptNodes in Hn. by apply list_elem_of_filter in Hn as [_ ?].
    + right. by eapply accept_sublist.
  - unfold updateNode. by destruct (_ !! _).
Qed.

Lemma merge_keeps_positions_witness :
  ∃ n, (n ∈ nodes state_ab ∨ n ∈ default [] (addNodes delta_replace_b))
    ∧ node_id n = "a" ∧ node_position n = pt 10 20.
Proof.
  destruct (merge_keeps_positions "t1" state_ab delta_replace_b
              (mkNode "a" service "A2" (pt 10 20) (mkData None None None None)))
    as (n & Hn & Hi & Hp).
  - by apply (bool_decide_eq_true_1 _).
  - exists n. split; [exact Hn|]. split; [by rewrite -Hi|by rewrite -Hp].
Defined.

(** ** Merging and validating *)

Lemma validate_valid_iff S :
  valid (validateGraphState S) = true ↔ validState S.
Proof.
  assert (valid (validateGraphState S) = true
          ↔ length (errors (validateGraphState S)) = 0) as ->.
  { unfold validateGraphState; simpl. apply bool_decide_eq_true. }
  rewrite validate_count. unfold validState. rewrite -!duplicates_NoDup.
  assert (length (missingSources S) = 0
          ↔ Forall (λ e, edge_source e ∈ node_ids (nodes S)) (edges S)) as Hs.
  { unfold missingSources. rewrite filter_length_zero. apply Forall_iff.
    intros e. split; [apply dec_stable|tauto]. }
  assert (length (missingTargets S) = 0
          ↔ Forall (λ e, edge_target e ∈ node_ids (nodes S)) (edges S)) as Ht.
  { unfold missingTargets. rewrite filter_length_zero. apply Forall_iff.
    intros e. split; [apply dec_stable|tauto]. }
  unfold noDanglingEdges. rewrite Forall_and -Hs -Ht. lia.
Qed.

Lemma NoDup_ids_filter {A} (key : A → string) (P : A → Prop)
    `{!∀ a, Decision (P a)} (l : list A) :
  NoDup (key <$> l) → NoDup (key <$> filter P l).
Proof.
  intros Hnd. eapply sublist_NoDup; [exact Hnd|].
  apply fmap_sublist, sublist_filter.
Qed.

Lemma NoDup_ids_accept {A} (key : A → string) (ok : A → Prop)
    `{!∀ a, Decision (ok a)} (base news : list A) :
  NoDup (key <$> base) →
  NoDup (key <$> (base ++ accept key ok (Set_of (key <$> base)) news)).
Proof.
  intros Hnd. rewrite fmap_app. apply NoDup_app. split; [done|]. split.
  - intros i Hi (a & -> & Ha)%list_elem_of_fmap.
    apply accept_keys_fresh in Ha. apply Ha. unfold Set_of.
    by apply elem_of_list_to_set.
  - apply accept_NoDup.
Qed.

Lemma merge_integrity now S D :
  noDanglingEdges S → noDanglingEdges (mergeGraphDelta now S D).
Proof.
  unfold noDanglingEdges. rewrite !Forall_forall.
  intros HS e. rewrite merge_edges_spec. intros [He|He]%elem_of_app.
  - apply keptEdges_iff in He as (He & _ & Hs & Ht).
    destruct (HS e He) as [Hs' Ht'].
    split; apply merged_node_ids; by left.
  - apply accept_ok in He as [Hs Ht]. unfold Set_of in Hs, Ht.
    rewrite !elem_of_list_to_set in Hs, Ht.
    by rewrite merge_nodes nodesAfterUpdate_ids.
Qed.

Lemma merged_validState now S D :
  validState S → validState (mergeGraphDelta now S D).
Proof.
  intros (Hn & He & Hd).
  split; [|split].
  - rewrite merge_nodes nodesAfterUpdate_ids. unfold newNodes, node_ids.
    apply NoDup_ids_accept. by apply NoDup_ids_filter.
  - rewrite merge_edges_spec. unfold newEdges, edge_ids.
    apply NoDup_ids_accept. unfold keptEdges.
    by do 2 apply NoDup_ids_filter.
  - by apply merge_integrity.
Qed.

(** X5: merging any delta into a state the validator accepts gives a
    state the validator accepts: no repeated node id, no repeated edge
    id, no dangling edge. *)
Theorem merge_preserves_valid now S D :
  valid (validateGraphState S) = true →
  valid (validateGraphState (mergeGraphDelta now S D)) = true.
Proof. rewrite !validate_valid_iff. apply merged_validState. Qed.

Lemma merge_preserves_valid_witness :
  valid (validateGraphState state_ab) = true
  ∧ valid (validateGraphState (mergeGraphDelta "t1" state_ab delta_replace_b)) = true.
Proof.
  split; [reflexivity|].
  apply (merge_preserves_valid "t1" state_ab delta_replace_b). reflexivity.
Defined.

(** Without the hypothesis the merge does not repair the state: the
    repeated node id of [state_broken] survives the empty delta. *)
Example merge_keeps_broken :
  valid (validateGraphState (mergeGraphDelta "t1" state_broken emptyDelta)) = false.
Proof. by vm_compute. Qed.

(** ** Layout assignment, again *)

Lemma layoutNode_keeps x y i n :
  node_id (layoutNode x y i n) = node_id n
  ∧ node_kind (layoutNode x y i n) = node_kind n
  ∧ node_label (layoutNode x y i n) = node_label n
  ∧ node_data (layoutNode x y i n) = node_data n.
Proof. unfold layoutNode. by destruct (_ || _). Qed.

Lemma layoutNode_idem x y i n :
  layoutNode x y i (layoutNode x y i n) = layoutNode x y i n.
Proof.
  destruct (decide (atOrigin (node_position n))) as [Hz|Hnz].
  - rewrite (layoutNode_unplaced _ _ _ n Hz).
    set (n' := mkNode _ _ _ _ _).
    destruct (decide (atOrigin (node_position n'))) as [Hz'|Hnz'].
    + by rewrite (layoutNode_unplaced _ _ _ n' Hz').
    + by rewrite layoutNode_placed.
  - by rewrite !layoutNode_placed.
Qed.

Lemma imap_fmap_keeps {A B} (g : A → B) (f : nat → A → A) (l : list A) :
  (∀ i a, g (f i a) = g a) → g <$> imap f l = g <$> l.
Proof.
  intros Hg. apply list_eq. intros i.
  rewrite !list_lookup_fmap list_lookup_imap.
  destruct (l !! i); simpl; [|done]. by rewrite Hg.
Qed.

(** X6: laying out twice is laying out once, and the layout changes
    positions only: ids, kinds, labels and data are those of the input,
    in the same order. *)
Theorem autoLayoutNodes_idempotent ns startX startY :
  autoLayoutNodes (autoLayoutNodes ns startX startY) startX startY
    = autoLayoutNodes ns startX startY
  ∧ (λ n, (node_id n, node_kind n, node_label n, node_data n))
      <$> autoLayoutNodes ns startX startY
    = (λ n, (node_id n, node_kind n, node_label n, node_data n)) <$> ns.
Proof.
  unfold autoLayoutNodes. split.
  - apply list_eq. intros i. rewrite !list_lookup_imap.
    destruct (ns !! i); simpl; [|done]. by rewrite layoutNode_idem.
  - apply imap_fmap_keeps. intros i n.
    by destruct (layoutNode_keeps startX startY i n) as (-> & -> & -> & ->).
Qed.

(** The grid offsets are zero or positive. *)
Lemma grid_offset_nonnegative c spacing :
  (0 ≤ c)%Z → (0 < spacing < 2 ^ 53)%Z →
  nonnegativeFrom (-1074) (Number_mul (Number_of_Z c) (Number_of_Z spacing)).
Proof.
  intros Hc Hs.
  destruct (Number_of_Z_repr spacing) as (M & E & -> & _ & HE & _); [lia|lia|].
  rewrite (proj2 (Z.ltb_ge _ _)); [|lia].
  apply Number_mul_nonnegative; [by apply Number_of_Z_nonnegative|].
  pose proof (Z.log2_nonneg (Z.abs spacing)). lia.
Qed.

Lemma gridPosition_positive startX startY i :
  isNumber startX → isNumber startY → isPositive startX ∨ isPositive startY →
  ¬ atOrigin (gridPosition startX startY i).
Proof.
  intros Hvx Hvy Hpos [Hx Hy]. unfold gridPosition in Hx, Hy. cbn [pos_x pos_y] in Hx, Hy.
  assert (0 ≤ Z.of_nat i mod 4)%Z as Hc by (apply Z.mod_pos_bound; lia).
  assert (0 ≤ Z.of_nat i / 4)%Z as Hr by (apply Z.div_pos; lia).
  destruct Hpos as [Hp|Hp].
  - eapply positiveFrom_not_zero; [|exact Hx].
    apply Number_add_positive; [by apply isPositive_valid|].
    apply grid_offset_nonnegative; [done|]. by split.
  - eapply positiveFrom_not_zero; [|exact Hy].
    apply Number_add_positive; [by apply isPositive_valid|].
    apply grid_offset_nonnegative; [done|]. by split.
Qed.

(** X7: with a positive start coordinate (the callers pass
    [startX = 100]) no node is left at the origin. *)
Theorem autoLayoutNodes_no_origin ns startX startY r :
  isNumber startX → isNumber startY →
  isPositive startX ∨ isPositive startY →
  r ∈ autoLayoutNodes ns startX startY →
  ¬ atOrigin (node_position r).
Proof.
  intros Hvx Hvy Hpos Hr. unfold autoLayoutNodes in Hr.
  apply list_elem_of_lookup in Hr as [i Hi].
  rewrite list_lookup_imap in Hi.
  destruct (ns !! i) as [n|]; simpl in Hi; [|done].
  injection Hi as <-.
  destruct (decide (atOrigin (node_position n))) as [Hz|Hnz].
  - rewrite (layoutNode_unplaced _ _ _ n Hz). simpl.
    by apply gridPosition_positive.
  - by rewrite layoutNode_placed.
Qed.

Lemma autoLayoutNodes_no_origin_witness :
  atOrigin (node_position (nd0 "n1"))
  ∧ ∀ r, r ∈ autoLayoutNodes [nd0 "n0"; nd0 "n1"] (Number_of_Z 100) (Number_of_Z 0) →
         ¬ atOrigin (node_position r).
Proof.
  split; [split; by exists false|]. intros r.
  apply (autoLayoutNodes_no_origin [nd0 "n0"; nd0 "n1"] (Number_of_Z 100) (Number_of_Z 0) r).
  - reflexivity.
  - reflexivity.
  - left. right. by eexists _, _.
Defined.

(** X8: with integer starts of magnitude at most [2^52], two
    unpositioned nodes at different list indices below [2^32] get
    different integer positions: laid-out nodes do not sit on top of
    each other. *)
Theorem autoLayoutNodes_distinct ns sx sy i j n m :
  safe sx → safe sy → (Z.of_nat i < 2 ^ 32)%Z → (Z.of_nat j < 2 ^ 32)%Z →
  i ≠ j → ns !! i = Some n → ns !! j = Some m →
  atOrigin (node_position n) → atOrigin (node_position m) →
  ∃ r q xr yr xq yq,
    autoLayoutNodes ns (Number_of_Z sx) (Number_of_Z sy) !! i = Some r
    ∧ autoLayoutNodes ns (Number_of_Z sx) (Number_of_Z sy) !! j = Some q
    ∧ node_position r = pt xr yr ∧ node_position q = pt xq yq
    ∧ (xr ≠ xq ∨ yr ≠ yq)
    ∧ node_position r ≠ node_position q.
Proof.
  intros Hx Hy Hi Hj Hij Hn Hm Hzn Hzm. unfold autoLayoutNodes.
  rewrite !list_lookup_imap Hn Hm /=.
  rewrite (layoutNode_unplaced _ _ _ n Hzn) (layoutNode_unplaced _ _ _ m Hzm).
  unfold safe in *.
  rewrite !gridPosition_exact; try lia.
  assert ((sx + Z.of_nat i mod 4 * 250 ≠ sx + Z.of_nat j mod 4 * 250
           ∨ sy + Z.of_nat i / 4 * 150 ≠ sy + Z.of_nat j / 4 * 150)%Z) as Hne.
  { destruct (decide (Z.of_nat i mod 4 = Z.of_nat j mod 4)%Z) as [Hc|Hc]; [|left; lia].
    right. intros Hr. apply Hij. apply Nat2Z.inj.
    rewrite (Z.div_mod (Z.of_nat i) 4) // (Z.div_mod (Z.of_nat j) 4) //. lia. }
  eexists _, _, _, _, _, _.
  split; [done|]. split; [done|]. split; [done|]. split; [done|]. split; [done|].
  simpl. unfold pt. intros [= Hex Hey].
  change (2 ^ 52)%Z with 4503599627370496%Z in *.
  change (2 ^ 32)%Z with 4294967296%Z in *.
  assert (0 ≤ Z.of_nat i mod 4 < 4)%Z by (apply Z.mod_pos_bound; lia).
  assert (0 ≤ Z.of_nat j mod 4 < 4)%Z by (apply Z.mod_pos_bound; lia).
  assert (0 ≤ Z.of_nat i / 4 < 1073741824)%Z.
  { split; [apply Z.div_pos; lia|apply Z.div_lt_upper_bound; lia]. }
  assert (0 ≤ Z.of_nat j / 4 < 1073741824)%Z.
  { split; [apply Z.div_pos; lia|apply Z.div_lt_upper_bound; lia]. }
  apply Number_of_Z_inj in Hex; change (2 ^ 53)%Z with 9007199254740992%Z; try lia.
  apply Number_of_Z_inj in Hey; change (2 ^ 53)%Z with 9007199254740992%Z; try lia.
Qed.

(** Beyond the safe range two nodes can get the same position: from
    [startY = 10^20] the second row is where the first is. *)
Example autoLayoutNodes_collide :
  node_position <$>
    autoLayoutNodes [nd0 "n0"; nd0 "n1"; nd0 "n2"; nd0 "n3"; nd0 "n4"]
      (Number_of_Z 100) (Number_of_Z (10 ^ 20))
  = [pt 100 (10 ^ 20); pt 350 (10 ^ 20); pt 600 (10 ^ 20); pt 850 (10 ^ 20);
     pt 100 (10 ^ 20)].
Proof. by vm_compute. Qed.

Lemma autoLayoutNodes_distinct_witness :
  ∃ r q, autoLayoutNodes [nd0 "n0"; nd0 "n1"; nd0 "n2"; nd0 "n3"; nd0 "n4"]
           (Number_of_Z 100) (Number_of_Z 100) !! 0%nat = Some r
       ∧ autoLayoutNodes [nd0 "n0"; nd0 "n1"; nd0 "n2"; nd0 "n3"; nd0 "n4"]
           (Number_of_Z 100) (Number_of_Z 100) !! 4%nat = Some q
       ∧ node_position r ≠ node_position q.
Proof.
  destruct (autoLayoutNodes_distinct
              [nd0 "n0"; nd0 "n1"; nd0 "n2"; nd0 "n3"; nd0 "n4"] 100 100 0 4
              (nd0 "n0") (nd0 "n4"))
    as (r & q & xr & yr & xq & yq & Hr & Hq & _ & _ & _ & Hne);
    try reflexivity; try (unfold safe; simpl; lia); try (split; by exists false).
  by exists r, q.
Defined.

(** ** Prompt size cap *)

Lemma trim_nodes S :
  nodes (trimGraphStateForPrompt S)
  = if decide (MAX_NODES < length (nodes S)) then take MAX_NODES (nodes S)
    else nodes S.
Proof. unfold trimGraphStateForPrompt. by destruct (decide _). Qed.

Lemma trim_edges S :
  edges (trimGraphStateForPrompt S)
  = let es :=
      if decide (MAX_NODES < length (nodes S))
      then filter (λ e, edge_source e ∈ Set_of (node_ids (take MAX_NODES (nodes S)))
                        ∧ edge_target e ∈ Set_of (node_ids (take MAX_NODES (nodes S))))
             (edges S)
      else edges S in
    if decide (MAX_EDGES < length es) then take MAX_EDGES es else es.
Proof. unfold trimGraphStateForPrompt. by destruct (decide _). Qed.

Lemma trim_meta S : meta (trimGraphStateForPrompt S) = meta S.
Proof. unfold trimGraphStateForPrompt. by destruct (decide _). Qed.

Lemma trim_bounds_aux S :
  length (nodes (trimGraphStateForPrompt S)) ≤ 50
  ∧ length (edges (trimGraphStateForPrompt S)) ≤ 100.
Proof.
  rewrite trim_nodes trim_edges. unfold MAX_NODES, MAX_EDGES. cbv zeta. split.
  - destruct (decide _); [rewrite length_take|]; lia.
  - destruct (decide (100 < _)); [rewrite length_take|]; lia.
Qed.

(** X9: the trimmed state has at most 50 nodes and at most 100 edges;
    its nodes are a prefix of the state's nodes, its edges are edges of
    the state in their order, and its meta is the state's. *)
Theorem trim_bounds S :
  length (nodes (trimGraphStateForPrompt S)) ≤ 50
  ∧ length (edges (trimGraphStateForPrompt S)) ≤ 100
  ∧ nodes (trimGraphStateForPrompt S) `prefix_of` nodes S
  ∧ edges (trimGraphStateForPrompt S) `sublist_of` edges S
  ∧ meta (trimGraphStateForPrompt S) = meta S.
Proof.
  rewrite trim_nodes trim_edges trim_meta. unfold MAX_NODES, MAX_EDGES.
  cbv zeta. split; [|split; [|split; [|split]]].
  - destruct (decide _); [rewrite length_take|]; lia.
  - destruct (decide (100 < _)); [rewrite length_take|]; lia.
  - destruct (decide _); [apply prefix_take|done].
  - set (es := if decide (50 < length (nodes S)) then _ else _).
    assert (es `sublist_of` edges S) as Hes.
    { unfold es. destruct (decide _); [apply sublist_filter|done]. }
    clearbody es. destruct (decide _); [|exact Hes].
    etrans; [apply sublist_take|exact Hes].
  - done.
Qed.

Lemma trim_small S :
  length (nodes S) ≤ 50 → length (edges S) ≤ 100 → trimGraphStateForPrompt S = S.
Proof.
  intros Hn He. destruct S as [ns es m]; simpl in *.
  unfold trimGraphStateForPrompt, MAX_NODES, MAX_EDGES; simpl.
  rewrite decide_False; [|lia]. by rewrite decide_False; [|lia].
Qed.

(** X10: a state within the caps is returned as it is, and trimming a
    trimmed state changes nothing. *)
Theorem trim_idempotent S :
  (length (nodes S) ≤ 50 → length (edges S) ≤ 100 → trimGraphStateForPrompt S = S)
  ∧ trimGraphStateForPrompt (trimGraphStateForPrompt S) = trimGraphStateForPrompt S.
Proof.
  split; [apply trim_small|].
  destruct (trim_bounds_aux S) as [Hn He]. by apply trim_small.
Qed.

Lemma trim_idempotent_witness : trimGraphStateForPrompt state_ab = state_ab.
Proof.
  apply (proj1 (trim_idempotent state_ab)); vm_compute; lia.
Defined.

(** X11: when nodes are cut, or when the state had no dangling edge, the
    trimmed state has no dangling edge: every edge it keeps joins two
    nodes it keeps. *)
Theorem trim_no_dangling S :
  50 < length (nodes S) ∨ noDanglingEdges S →
  noDanglingEdges (trimGraphStateForPrompt S).
Proof.
  intros H. unfold noDanglingEdges. rewrite Forall_forall. intros e.
  rewrite trim_nodes trim_edges. unfold MAX_NODES, MAX_EDGES. cbv zeta.
  destruct (decide (50 < length (nodes S))) as [Hbig|Hsmall].
  - intros He.
    assert (e ∈ filter (λ e, edge_source e ∈ Set_of (node_ids (take 50 (nodes S)))
                             ∧ edge_target e ∈ Set_of (node_ids (take 50 (nodes S))))
                  (edges S)) as Hf.
    { destruct (decide _); [|done].
      eapply elem_of_sublist; [exact He|apply sublist_take]. }
    apply list_elem_of_filter in Hf as [[Hs Ht] _]. unfold Set_of in Hs, Ht.
    by rewrite !elem_of_list_to_set in Hs, Ht.
  - destruct H as [?|Hd]; [done|]. intros He.
    unfold noDanglingEdges in Hd. rewrite Forall_forall in Hd. apply Hd.
    destruct (decide _); [|done].
    eapply elem_of_sublist; [exact He|apply sublist_take].
Qed.

Example trim_sixty :
  length (nodes (trimGraphStateForPrompt state_sixty)) = 50
  ∧ edge_ids (edges (trimGraphStateForPrompt state_sixty)) = ["e1"; "e3"].
Proof. by vm_compute. Qed.

Lemma trim_no_dangling_witness :
  noDanglingEdges (trimGraphStateForPrompt state_sixty).
Proof.
  apply (trim_no_dangling state_sixty). left. vm_compute. lia.
Defined.

(** ** Applying a parsed delta *)





Lemma layoutNewNodes_Some L S D D' :
  layoutNewNodes L S D = Some D' →
  ∃ startY,
    default [] (addNodes D') = autoLayoutNodes (default [] (addNodes D)) (Number_of_Z 100) startY
    ∧ (present (addNodes D) ≠ None → chatStartY L S = Some startY)
    ∧ length (default [] (addNodes D')) = length (default [] (addNodes D))
    ∧ (present (addNodes D') = None ↔ present (addNodes D) = None)
    ∧ updateNodes D' = updateNodes D ∧ removeNodeIds D' = removeNodeIds D
    ∧ addEdges D' = addEdges D ∧ removeEdgeIds D' = removeEdgeIds D.
Proof.
  unfold layoutNewNodes.
  destruct (addNodes D) as [[|a l]|] eqn:Ha; cbn [present].
  - intros [= <-]. exists (Number_of_Z 100). by rewrite Ha.
  - destruct (chatStartY L S) as [startY|]; [|done].
    cbn [mbind option_bind]. intros [= <-]. exists startY.
    cbn [addNodes updateNodes removeNodeIds addEdges removeEdgeIds default].
    split; [done|]. split; [done|].
    split; [unfold autoLayoutNodes; by rewrite length_imap|]. done.
  - intros [= <-]. exists (Number_of_Z 100). by rewrite Ha.
Qed.


Lemma applyChatDelta_Some L now S D r :
  applyChatDelta L now S D = Some r →
  ∃ D', layoutNewNodes L S D = Some D'
    ∧ assistantMessage r = generateChangeSummary D'
    ∧ graphState r = mergeGraphDelta now S D'.
Proof.
  unfold applyChatDelta. destruct (layoutNewNodes L S D) as [D'|]; [|done].
  simpl. intros [= <-]. by exists D'.
Qed.

Lemma present_default_length {A} (o o' : option (list A)) :
  length (default [] o) = length (default [] o') →
  (present o = None ↔ present o' = None).
Proof. destruct o as [[|? ?]|], o' as [[|? ?]|]; simpl; intros; split; done. Qed.




(** Where the new rows start when every node of the graph sits at an
    integer height. *)
Lemma heights_list (ns : list GraphNode) :
  Forall (λ m, ∃ y, heightOf m y) ns →
  ∃ ys, (λ n, pos_y (node_position n)) <$> ns = Number_of_Z <$> ys
    ∧ Forall safe ys ∧ length ys = length ns
    ∧ ∀ m y, m ∈ ns → heightOf m y → y ∈ ys.
Proof.
  induction 1 as [|m ns (y & Hy & Hs) _ (ys & Heq & Hsafe & Hlen & Hin)].
  - exists []. split; [done|]. split; [constructor|]. split; [done|].
    by intros m y ?%elem_of_nil.
  - exists (y :: ys). rewrite !fmap_cons Heq Hy. split; [done|].
    split; [by constructor|]. split; [simpl; lia|].
    intros m' y' [->|Hm']%elem_of_cons Hh'.
    + destruct Hh' as [Hy' Hs']. apply elem_of_cons. left. unfold safe in *.
      apply Number_of_Z_inj; change (2 ^ 53)%Z with 9007199254740992%Z;
        change (2 ^ 52)%Z with 4503599627370496%Z in *; try lia. congruence.
    + apply elem_of_cons. right. by apply (Hin m').
Qed.

Lemma chatStartY_heights L S :
  (length (nodes S) ≤ L)%nat →
  Forall (λ m, ∃ y, heightOf m y) (nodes S) →
  ∃ sy, chatStartY L S = Some (Number_of_Z sy)
    ∧ (Z.abs sy ≤ 2 ^ 52 + 150)%Z
    ∧ (∀ m y, m ∈ nodes S → heightOf m y → (y + 150 ≤ sy)%Z)
    ∧ (nodes S = [] → sy = 100%Z).
Proof.
  intros Hfit Hh. unfold chatStartY, spread. rewrite length_fmap.
  change (2 ^ 52)%Z with 4503599627370496%Z.
  destruct (decide (0 < length (nodes S))%nat) as [Hpos|Hz].
  - rewrite decide_True //. cbn [mbind option_bind].
    destruct (heights_list _ Hh) as (ys & -> & Hsafe & Hlen & Hin).
    destruct ys as [|y ys]; [simpl in Hlen; lia|].
    apply Forall_cons in Hsafe as [Hy Hys]. unfold safe in *.
    change (2 ^ 52)%Z with 4503599627370496%Z in *.
    pose proof (foldl_Zmax_bound 4503599627370496 y ys Hy Hys) as Hb.
    destruct (foldl_Zmax_ge y ys) as [Hge1 Hge2].
    rewrite Math_max_of_Z; change (2 ^ 53)%Z with 9007199254740992%Z; [|lia|].
    2:{ eapply Forall_impl; [exact Hys|]. simpl. intros; lia. }
    rewrite Number_add_exact; change (2 ^ 53)%Z with 9007199254740992%Z; try lia.
    eexists. split; [done|]. split; [lia|]. split.
    + intros m y' Hm Hy'. specialize (Hin m y' Hm Hy').
      apply elem_of_cons in Hin as [->|Hin]; [lia|]. specialize (Hge2 _ Hin). lia.
    + intros Hnil. rewrite Hnil in Hpos. simpl in Hpos. lia.
  - exists 100%Z. split; [done|]. split; [lia|]. split.
    + intros m y Hm. destruct (nodes S); [by apply elem_of_nil in Hm|simpl in Hz; lia].
    + done.
Qed.

(** X13: when the nodes of the graph sit at integer heights of magnitude
    at most [2^52] and the spread takes them, a new node that comes
    without a position (at a list index below [2^32]) is placed at
    integer coordinates at least 150 below every node the graph already
    has, and not left of [x = 100]; with no node in the graph the first
    row is at [y = 100]. *)
Theorem chat_layout_below argumentLimit S D l i n :
  (length (nodes S) ≤ argumentLimit)%nat →
  Forall (λ m, ∃ y, heightOf m y) (nodes S) →
  present (addNodes D) = Some l → l !! i = Some n → (Z.of_nat i < 2 ^ 32)%Z →
  atOrigin (node_position n) →
  ∃ D' l' r xr yr,
    layoutNewNodes argumentLimit S D = Some D'
    ∧ addNodes D' = Some l' ∧ l' !! i = Some r
    ∧ node_id r = node_id n
    ∧ node_position r = pt xr yr
    ∧ integerValue (pos_x (node_position r)) = Some xr
    ∧ integerValue (pos_y (node_position r)) = Some yr
    ∧ (∀ m y, m ∈ nodes S → heightOf m y → (y + 150 ≤ yr)%Z)
    ∧ (100 ≤ xr)%Z
    ∧ (nodes S = [] → (100 ≤ yr)%Z).
Proof.
  intros Hfit Hh Hp Hi Hlt Hz.
  destruct (chatStartY_heights argumentLimit S Hfit Hh) as (sy & Hsy & Hb & Habove & Hempty).
  unfold layoutNewNodes. rewrite Hp Hsy. simpl.
  eexists _, _, _, _, _. split; [done|]. split; [done|].
  unfold autoLayoutNodes. rewrite list_lookup_imap Hi /=. split; [done|].
  rewrite (layoutNode_unplaced _ _ _ n Hz). cbn [node_id node_position].
  split; [done|].
  rewrite gridPosition_exact; [|change (2 ^ 52)%Z with 4503599627370496%Z; lia|done|done].
  split; [done|].
  change (2 ^ 52)%Z with 4503599627370496%Z in *.
  change (2 ^ 32)%Z with 4294967296%Z in *.
  assert (0 ≤ Z.of_nat i mod 4 < 4)%Z by (apply Z.mod_pos_bound; lia).
  assert (0 ≤ Z.of_nat i / 4 < 1073741824)%Z.
  { split; [apply Z.div_pos; lia|apply Z.div_lt_upper_bound; lia]. }
  unfold pt. cbn [pos_x pos_y].
  split; [apply integerValue_of_Z; change (2 ^ 53)%Z with 9007199254740992%Z; lia|].
  split; [apply integerValue_of_Z; change (2 ^ 53)%Z with 9007199254740992%Z; lia|].
  split; [|split].
  - intros m y Hm Hy. specialize (Habove m y Hm Hy). lia.
  - lia.
  - intros Hnil. rewrite (Hempty Hnil). lia.
Qed.

(** Beyond the safe range the new row is not below the old one: from a
    node at height [10^20] the start is [10^20] again. *)
Example chat_layout_not_below :
  chatStartY 1000
    (mkState [mkNode "a" service "A" (pt 0 (10 ^ 20)) (mkData None None None None)]
       [] (mkMeta "p" "t0"))
  = Some (Number_of_Z (10 ^ 20)).
Proof. by vm_compute. Qed.

Lemma chat_layout_below_witness :
  ∃ D' l' r, layoutNewNodes 1000 state_ab delta_add_x = Some D'
    ∧ addNodes D' = Some l' ∧ l' !! 0%nat = Some r ∧ node_position r = pt 100 170.
Proof.
  destruct (chat_layout_below 1000 state_ab delta_add_x
              [mkNode "x" service "X" (pt 0 0) (mkData None None None None)]
              0 (mkNode "x" service "X" (pt 0 0) (mkData None None None None)))
    as (D' & l' & r & xr & yr & HD & Hl & Hr & _).
  - simpl. lia.
  - repeat constructor.
    + exists 20%Z. split; [reflexivity|]. unfold safe. simpl. lia.
    + exists 0%Z. split; [reflexivity|]. unfold safe. simpl. lia.
  - reflexivity.
  - reflexivity.
  - reflexivity.
  - split; by exists false.
  - exists D', l', r. split; [exact HD|]. split; [exact Hl|]. split; [exact Hr|].
    vm_compute in HD. injection HD as <-. simpl in Hl. injection Hl as <-.
    simpl in Hr. by injection Hr as <-.
Defined.

Lemma accept_imap {A B} (key : A → string) (g : A → B) (f : nat → A → A)
    (seen : gset string) (l : list A) :
  (∀ i a, key (f i a) = key a) → (∀ i a, g (f i a) = g a) →
  g <$> accept key (λ _, True) seen (imap f l)
  = g <$> accept key (λ _, True) seen l.
Proof.
  intros Hk Hg. revert f seen Hk Hg.
  induction l as [|a l IH]; intros f seen Hk Hg; [done|].
  simpl. rewrite Hk.
  destruct (decide (True ∧ key a ∉ seen)); simpl.
  - rewrite Hg. f_equal. apply IH; intros; [apply Hk|apply Hg].
  - apply IH; intros; [apply Hk|apply Hg].
Qed.

Lemma updateNode_content m n n' :
  nodeContent n = nodeContent n' →
  nodeContent (updateNode m n) = nodeContent (updateNode m n').
Proof.
  unfold nodeContent. intros [= Hi Hk Hl Hd]. unfold updateNode. rewrite Hi.
  destruct (m !! node_id n') as [u|]; simpl; congruence.
Qed.

Lemma updateNode_content_list m (l l' : list GraphNode) :
  nodeContent <$> l = nodeContent <$> l' →
  nodeContent <$> (updateNode m <$> l) = nodeContent <$> (updateNode m <$> l').
Proof.
  revert l'. induction l as [|a l IH]; intros [|a' l'] H; try done.
  rewrite !fmap_cons in H. apply (inj2 cons) in H as [Ha Hl].
  rewrite !fmap_cons. f_equal.
  - by apply updateNode_content.
  - by apply IH.
Qed.

Lemma layout_only_positions now S D D' startY :
  default [] (addNodes D')
    = autoLayoutNodes (default [] (addNodes D)) (Number_of_Z 100) startY →
  updateNodes D' = updateNodes D → removeNodeIds D' = removeNodeIds D →
  addEdges D' = addEdges D → removeEdgeIds D' = removeEdgeIds D →
  nodeContent <$> nodes (mergeGraphDelta now S D')
    = nodeContent <$> nodes (mergeGraphDelta now S D)
  ∧ edges (mergeGraphDelta now S D') = edges (mergeGraphDelta now S D)
  ∧ meta (mergeGraphDelta now S D') = meta (mergeGraphDelta now S D).
Proof.
  intros Hadd Hu Hr Ha He.
  assert (keptNodes S D' = keptNodes S D) as Hkept.
  { unfold keptNodes. by rewrite Hr. }
  assert (∀ B (g : GraphNode → B),
            (∀ i n, g (layoutNode (Number_of_Z 100) startY i n) = g n) →
            g <$> newNodes S D' = g <$> newNodes S D) as Hnew.
  { intros B g Hg. unfold newNodes. rewrite Hkept Hadd.
    unfold autoLayoutNodes. apply accept_imap; [|done].
    intros i n. by destruct (layoutNode_keeps (Number_of_Z 100) startY i n) as (-> & _). }
  assert (nodeContent <$> newNodes S D' = nodeContent <$> newNodes S D) as Hc.
  { apply Hnew. intros i n. unfold nodeContent.
    by destruct (layoutNode_keeps (Number_of_Z 100) startY i n) as (-> & -> & -> & ->). }
  assert (node_id <$> newNodes S D' = node_id <$> newNodes S D) as Hi.
  { apply Hnew. intros i n.
    by destruct (layoutNode_keeps (Number_of_Z 100) startY i n) as (-> & _). }
  split; [|split].
  - rewrite !merge_nodes !nodesAfterUpdate_spec Hu Hkept.
    apply updateNode_content_list. by rewrite !fmap_app Hc.
  - rewrite !merge_edges_spec. unfold newEdges, keptEdges.
    rewrite Hkept Hr Ha He. unfold node_ids. by rewrite !fmap_app Hi.
  - by rewrite !merge_meta.
Qed.

(** X14: laying out the new nodes changes nothing but positions in the
    merged state: the chat handlers' state has the node ids, kinds,
    labels and data, the edges and the meta of the merge of the delta as
    parsed. *)
Theorem chat_layout_only_positions argumentLimit now S D r :
  applyChatDelta argumentLimit now S D = Some r →
  nodeContent <$> nodes (graphState r) = nodeContent <$> nodes (mergeGraphDelta now S D)
  ∧ edges (graphState r) = edges (mergeGraphDelta now S D)
  ∧ meta (graphState r) = meta (mergeGraphDelta now S D).
Proof.
  intros (D' & HD' & _ & ->)%applyChatDelta_Some.
  apply layoutNewNodes_Some in HD' as (startY & Hadd & _ & _ & _ & Hu & Hr & Ha & He).
  by apply (layout_only_positions now S D D' startY).
Qed.

Lemma chat_layout_only_positions_witness :
  ∃ r, applyChatDelta 1000 "t1" state_ab delta_add_x = Some r
    ∧ edges (graphState r) = edges (mergeGraphDelta "t1" state_ab delta_add_x).
Proof.
  destruct (applyChatDelta 1000 "t1" state_ab delta_add_x) as [r|] eqn:Hr.
  - exists r. split; [reflexivity|].
    apply (chat_layout_only_positions 1000 "t1" state_ab delta_add_x r Hr).
  - exfalso. vm_compute in Hr. discriminate Hr.
Defined.

(** ** Change summarizer, again *)

(** X15: the fixed sentence is the summary of the deltas without
    operations and of no other delta. *)
Theorem summary_no_changes_iff delta :
  generateChangeSummary delta = "No changes were made to the graph."
  ↔ noOperations delta.
Proof.
  split.
  - destruct delta as [[[|? ?]|] [[|? ?]|] [[|? ?]|] [[|? ?]|] [[|? ?]|]];
      unfold generateChangeSummary, noOperations; simpl;
      first [done | intros H; exfalso; discriminate H].
  - intros (H1 & H2 & H3 & H4 & H5). unfold generateChangeSummary.
    by rewrite H1 H2 H3 H4 H5.
Qed.

(** ** Canvas handlers *)

(** X16: renaming a node on the canvas gives the state that merging the
    one-entry delta [{updateNodes: [{id, label}]}] gives; with an id no
    node has, nodes and edges are unchanged. *)
Theorem handleLabelChange_is_merge now S nodeId newLabel :
  handleLabelChange now S nodeId newLabel
  = mergeGraphDelta now S
      (mkDelta None (Some [mkUpdate nodeId (Some newLabel) None None]) None None None)
  ∧ (nodeId ∉ node_ids (nodes S) →
     nodes (handleLabelChange now S nodeId newLabel) = nodes S
     ∧ edges (handleLabelChange now S nodeId newLabel) = edges S).
Proof.
  split.
  - unfold handleLabelChange, mergeGraphDelta; simpl. f_equal.
    apply list_fmap_ext. intros i n _. unfold updateNode, Map_of; simpl.
    destruct (decide (node_id n = nodeId)) as [<-|Hne].
    + by rewrite lookup_insert_eq.
    + by rewrite lookup_insert_ne.
  - intros Hno. split; [|done]. unfold handleLabelChange; simpl.
    rewrite -{2}(list_fmap_id (nodes S)). apply list_fmap_ext. intros i n Hn.
    rewrite decide_False; [done|]. intros <-. apply Hno.
    apply list_elem_of_fmap. exists n. split; [done|]. by eapply list_elem_of_lookup_2.
Qed.

Lemma handleLabelChange_is_merge_witness :
  nodes (handleLabelChange "t1" state_ab "nope" "N") = nodes state_ab.
Proof.
  apply (proj2 (handleLabelChange_is_merge "t1" state_ab "nope" "N")).
  by apply (bool_decide_eq_true_1 _).
Defined.

Lemma savePositions_node (currentNodes : list ArchitectureNode) n :
  nodeContent
    match list_find (λ f, flow_id f = node_id n) currentNodes with
    | Some (_, rfNode) =>
        {| node_id := node_id n; node_kind := node_kind n;
           node_label := node_label n; node_position := flow_position rfNode;
           node_data := node_data n |}
    | None => n
    end
  = nodeContent n.
Proof. by destruct (list_find _ _) as [[? ?]|]. Qed.

(** X17: saving positions from the canvas changes positions only, and
    saving the canvas nodes built from a state with distinct node ids
    gives the state's nodes back. *)
Theorem savePositions_round_trip now S :
  (∀ currentNodes,
     nodeContent <$> nodes (savePositions now S currentNodes) = nodeContent <$> nodes S
     ∧ edges (savePositions now S currentNodes) = edges S)
  ∧ (NoDup (node_ids (nodes S)) →
     nodes (savePositions now S (toFlowNodes S)) = nodes S).
Proof.
  split.
  - intros currentNodes. split; [|done]. unfold savePositions; simpl.
    rewrite -list_fmap_compose. apply list_fmap_ext. intros i n _.
    apply savePositions_node.
  - intros Hnd. unfold savePositions; simpl.
    rewrite -{2}(list_fmap_id (nodes S)). apply list_fmap_ext. intros i n Hn.
    destruct (list_find _ _) as [[j f]|] eqn:Hf; [|done].
    apply list_find_Some in Hf as (Hj & Hid & _).
    unfold toFlowNodes in Hj. rewrite list_lookup_fmap in Hj.
    destruct (nodes S !! j) as [m|] eqn:Hm; simpl in Hj; [|done].
    injection Hj as <-. simpl in *.
    assert (j = i) as ->.
    { eapply NoDup_lookup; [exact Hnd| |].
      - unfold node_ids. by rewrite list_lookup_fmap Hm /= Hid.
      - unfold node_ids. by rewrite list_lookup_fmap Hn. }
    rewrite Hn in Hm. injection Hm as <-. by destruct n.
Qed.

(** With a repeated id the save moves the later node onto the first. *)
Example savePositions_twins :
  node_position <$> nodes (savePositions "t1" state_twins (toFlowNodes state_twins))
  = [pt 1 1; pt 1 1].
Proof. by vm_compute. Qed.

Lemma savePositions_round_trip_witness :
  nodes (savePositions "t1" state_ab (toFlowNodes state_ab)) = nodes state_ab.
Proof.
  apply (proj2 (savePositions_round_trip "t1" state_ab)).
  by apply (bool_decide_eq_true_1 _).
Defined.

(** X18: the state after a canvas connection passes the validator
    exactly when the state before did, both ends are node ids and the
    generated edge id is not taken: the handler itself checks none of
    these. *)
Theorem onConnect_valid_iff nowMs now S source target :
  valid (validateGraphState (onConnect nowMs now S source target)) = true
  ↔ valid (validateGraphState S) = true
    ∧ source ∈ node_ids (nodes S) ∧ target ∈ node_ids (nodes S)
    ∧ "edge-" +:+ NilZero.string_of_uint (N.to_uint nowMs) ∉ edge_ids (edges S).
Proof.
  rewrite !validate_valid_iff. unfold validState, noDanglingEdges, onConnect; simpl.
  unfold edge_ids. rewrite fmap_app /= NoDup_app Forall_app Forall_singleton /=.
  split.
  - intros (Hn & (He & Hfresh & _) & Hd & Hs & Ht).
    repeat split; try done. intros Hin. apply (Hfresh _ Hin). by left.
  - intros ((Hn & He & Hd) & Hs & Ht & Hfresh).
    repeat split; try done.
    + intros i Hi [->|[]%elem_of_nil]%elem_of_cons. done.
    + apply NoDup_singleton.
Qed.

(** Two connections in one millisecond take the same edge id. *)
Example onConnect_same_millisecond :
  let S1 := onConnect 1700000000000%N "t1" state_ab "a" "b" in
  let S2 := onConnect 1700000000000%N "t2" S1 "b" "a" in
  valid (validateGraphState S1) = true ∧ valid (validateGraphState S2) = false.
Proof. by vm_compute. Qed.

(** ** Chat route after the model call *)

Section ChatRouteFacts.
Context {JSON : Type}.
Variable JSON_parse : text → option JSON.
Variable safeParse : JSON → string + GraphDelta.
Variable syntaxErrorMessage : text → string.

End ChatRouteFacts.

(** A graph with more nodes than one call takes arguments: a delta that
    adds a node is answered with status 500 and nothing is written; a
    delta that adds none goes through. *)
Example chatAfterLLM_range_error :
  let S := mkState [nd0 "a"; nd0 "b"; nd0 "c"] [] (mkMeta "p" "t0") in
  chatAfterLLM (λ _, Some tt) (λ _, inr delta_add_x) (λ _, "bad JSON") 2 "t1" S []
  = mkChatOutcome InternalServerError None
  ∧ persisted
      (chatAfterLLM (λ _, Some tt) (λ _, inr emptyDelta) (λ _, "bad JSON") 2 "t1" S [])
    = Some (mergeGraphDelta "t1" S emptyDelta).
Proof. by vm_compute. Qed.


(** ** Browser storage *)

Section StorageFacts.
Variable JSON_stringify : GraphState → string.
Variable JSON_parseState : string → option GraphState.

Lemma probe_lookup (m : gmap string string) k :
  k ≠ "__test__" → delete "__test__" (<["__test__" := "test"]> m) !! k = m !! k.
Proof. intros Hk. by rewrite lookup_delete_ne // lookup_insert_ne. Qed.

Lemma get_stored now w :
  (getGraphState JSON_parseState now w).1 =
  match storedData w with
  | Some d =>
      if decide (d = EmptyString) then createEmptyGraphState now DEFAULT_PROJECT_ID
      else default (createEmptyGraphState now DEFAULT_PROJECT_ID) (JSON_parseState d)
  | None => createEmptyGraphState now DEFAULT_PROJECT_ID
  end.
Proof.
  unfold getGraphState, storedData, getStorage, isLocalStorageAvailable.
  destruct w as [[[] [m|]] mem]; simpl; rewrite ?probe_lookup //;
    (destruct (_ !! _) as [d|]; simpl; [|done]);
    (destruct (decide _); [done|]); by destruct (JSON_parseState d).
Qed.

Lemma save_stored s w : storedData (saveGraphState JSON_stringify s w) = Some (JSON_stringify s).
Proof.
  unfold saveGraphState, storedData, getStorage, isLocalStorageAvailable.
  destruct w as [[[] [m|]] mem]; simpl; by rewrite lookup_insert_eq.
Qed.

Lemma clear_stored w : storedData (clearGraphState w) = None.
Proof.
  unfold clearGraphState, storedData, getStorage, isLocalStorageAvailable.
  destruct w as [[[] [m|]] mem]; simpl; by rewrite lookup_delete_eq.
Qed.

(** X20: a saved state is the state read back, with [localStorage] and
    with the in-memory fallback, as long as [JSON.parse] undoes
    [JSON.stringify] on it. *)
Theorem storage_round_trip now s w :
  JSON_parseState (JSON_stringify s) = Some s →
  JSON_stringify s ≠ EmptyString →
  (getGraphState JSON_parseState now (saveGraphState JSON_stringify s w)).1 = s.
Proof.
  intros Hrt Hne. rewrite get_stored save_stored.
  rewrite decide_False //. by rewrite Hrt.
Qed.

(** X21: reading never fails: after a clear, with nothing stored, or
    with stored text that does not parse, the adapter returns the empty
    graph of the default project. *)
Theorem storage_empty_fallback now w :
  (getGraphState JSON_parseState now (clearGraphState w)).1 = emptyGraph now
  ∧ (storedData w = None →
     (getGraphState JSON_parseState now w).1 = emptyGraph now)
  ∧ (∀ d, storedData w = Some d → JSON_parseState d = None →
     (getGraphState JSON_parseState now w).1 = emptyGraph now).
Proof.
  split; [|split].
  - by rewrite get_stored clear_stored.
  - intros H. by rewrite get_stored H.
  - intros d H Hp. rewrite get_stored H Hp. by destruct (decide _).
Qed.

(** X22: the adapter touches the graph key and the probe key only:
    every other key of [localStorage] and of the in-memory map reads
    the same after a save, a clear or a read. *)
Theorem storage_frame now s w k :
  k ≠ STORAGE_KEY → k ≠ "__test__" →
  let other (w' : World) :=
    (localStorage (browser w') ≫= (λ m, m !! k), inMemoryStorage w' !! k) in
  other (saveGraphState JSON_stringify s w) = other w
  ∧ other (clearGraphState w) = other w
  ∧ other (getGraphState JSON_parseState now w).2 = other w.
Proof.
  intros Hk Ht other. subst other.
  unfold saveGraphState, clearGraphState, getGraphState, getStorage,
    isLocalStorageAvailable.
  destruct w as [[[] [m|]] mem]; simpl;
    rewrite ?lookup_insert_ne // ?lookup_delete_ne // ?probe_lookup //;
    repeat split; try done;
    repeat (case_match; simpl; try done);
    by rewrite ?probe_lookup // ?lookup_delete_ne // ?lookup_insert_ne.
Qed.
End StorageFacts.

Lemma storage_round_trip_witness :
  (getGraphState toyParseState "t1" (saveGraphState toyStringify state_ab
     (mkWorld browser_ok ∅))).1 = state_ab
  ∧ (getGraphState toyParseState "t1" (saveGraphState toyStringify state_ab
       (mkWorld browser_blocked ∅))).1 = state_ab.
Proof.
  split; apply (storage_round_trip toyStringify toyParseState); done.
Defined.

Lemma storage_empty_fallback_witness :
  (getGraphState toyParseState "t1"
     (mkWorld browser_blocked (<[STORAGE_KEY := "{broken"]> ∅))).1
  = emptyGraph "t1".
Proof.
  apply (proj2 (proj2 (storage_empty_fallback toyParseState "t1"
           (mkWorld browser_blocked (<[STORAGE_KEY := "{broken"]> ∅)))) "{broken");
    reflexivity.
Defined.

Lemma storage_frame_witness :
  localStorage (browser (saveGraphState toyStringify state_ab (mkWorld browser_ok ∅)))
    ≫= (λ m, m !! "theme")
  = Some "dark".
Proof.
  destruct (storage_frame toyStringify toyParseState "t1" state_ab
              (mkWorld browser_ok ∅) "theme") as (Hs & _); [done|done|].
  exact (f_equal fst Hs).
Defined.

(** ** Demo mode flag *)

(** X23: with [window] and working storage the flag reads back as it
    was set, unless the build enables demo mode, which wins; when
    storage throws, setting the flag has no effect and only the build
    setting counts; without [window] demo mode is off. *)
Theorem demo_mode_flag envDemoMode enabled b :
  (window_defined b = true → is_Some (localStorage b) →
   isDemoModeEnabled envDemoMode (setDemoMode enabled b)
   = enabled || bool_decide (envDemoMode = Some "true"))
  ∧ (window_defined b = true → localStorage b = None →
     isDemoModeEnabled envDemoMode (setDemoMode enabled b)
     = bool_decide (envDemoMode = Some "true"))
  ∧ (window_defined b = false →
     isDemoModeEnabled envDemoMode (setDemoMode enabled b) = false).
Proof.
  unfold isDemoModeEnabled, setDemoMode.
  destruct b as [[] [m|]], enabled; simpl; repeat split; intros; try done;
    try (by match goal with H : is_Some None |- _ => destruct H as [? [=]] end);
    repeat (case_decide || case_bool_decide); simplify_map_eq; done.
Qed.

Lemma demo_mode_flag_witness :
  isDemoModeEnabled None (setDemoMode true browser_ok) = true
  ∧ isDemoModeEnabled None (setDemoMode true browser_blocked) = false.
Proof.
  destruct (demo_mode_flag None true browser_ok) as (H1 & _).
  destruct (demo_mode_flag None true browser_blocked) as (_ & H2 & _).
  split; [apply H1|apply H2]; try reflexivity. by eexists.
Defined.

(** ** Model client from the environment *)

Lemma orElse_empty v d : d ≠ EmptyString → orElse v d ≠ EmptyString.
Proof. intros Hd. unfold orElse. destruct v as [s|]; [|done]. by destruct (decide _). Qed.

Lemma orElse_key_empty v :
  orElse v EmptyString = EmptyString ↔ v = None ∨ v = Some EmptyString.
Proof.
  unfold orElse. destruct v as [s|]; [|by split; [left|]].
  destruct (decide (s = EmptyString)) as [->|Hne].
  - split; [by right|done].
  - split; [done|]. intros [[=]|[= ->]]. done.
Qed.

(** X24: the client factory fails with the missing-key message exactly
    when [LLM_API_KEY] is unset or empty, whatever the other variables
    hold: the key is checked before the provider. *)
Theorem getLLMClientFromEnv_needs_key env :
  getLLMClientFromEnv env = inl "LLM_API_KEY environment variable is required"
  ↔ LLM_API_KEY env = None ∨ LLM_API_KEY env = Some EmptyString.
Proof.
  rewrite -orElse_key_empty. unfold getLLMClientFromEnv, createLLMClient; simpl.
  destruct (decide (orElse (LLM_API_KEY env) EmptyString = EmptyString)) as [He|He].
  - by split.
  - split; [|done]. by destruct (decide _).
Qed.

(** It returns a client exactly when the key is non-empty and
    [LLM_PROVIDER] is unset, empty or [openai-compatible]; unset and
    empty variables take their defaults. *)
Lemma getLLMClientFromEnv_client env c :
  getLLMClientFromEnv env = inr c
  ↔ orElse (LLM_API_KEY env) EmptyString ≠ EmptyString
    ∧ (LLM_PROVIDER env = None ∨ LLM_PROVIDER env = Some EmptyString
       ∨ LLM_PROVIDER env = Some "openai-compatible")
    ∧ c = mkClient (orElse (LLM_API_KEY env) EmptyString)
            (stripTrailingSlash (orElse (LLM_BASE_URL env) "https://api.openai.com/v1"))
            (orElse (LLM_MODEL env) "gpt-4o-mini").
Proof.
  unfold getLLMClientFromEnv, createLLMClient, newOpenAICompatibleClient; simpl.
  assert (orElse (LLM_PROVIDER env) "openai-compatible" = "openai-compatible"
          ↔ LLM_PROVIDER env = None ∨ LLM_PROVIDER env = Some EmptyString
            ∨ LLM_PROVIDER env = Some "openai-compatible") as Hp.
  { unfold orElse. destruct (LLM_PROVIDER env) as [p|]; [|by split; [left|]].
    destruct (decide (p = EmptyString)) as [->|Hne].
    - split; [by right; left|done].
    - split; [intros ->; by right; right|].
      intros [[=]|[[= ->]|[= ->]]]; done. }
  rewrite -Hp.
  destruct (decide (orElse (LLM_API_KEY env) EmptyString = EmptyString)) as [He|He].
  - split; [done|]. by intros [? _].
  - destruct (decide (orElse (LLM_PROVIDER env) "openai-compatible" = _)) as [Hq|Hq].
    + split; [intros [= <-]; done|]. by intros (_ & _ & ->).
    + split; [done|]. by intros (_ & ? & _).
Qed.

Lemma stripTrailingSlash_snoc b :
  stripTrailingSlash (b +:+ String SLASH EmptyString) = b.
Proof.
  induction b as [|c r IH]; [done|].
  simpl. rewrite IH. by destruct r.
Qed.

Lemma stripTrailingSlash_none s :
  (∀ b, s ≠ b +:+ String SLASH EmptyString) → stripTrailingSlash s = s.
Proof.
  induction s as [|c r IH]; intros Hno; [done|].
  destruct r as [|c' r'].
  - simpl. destruct (decide (c = SLASH)) as [->|]; [|done].
    by destruct (Hno EmptyString).
  - change (stripTrailingSlash (String c (String c' r')))
      with (String c (stripTrailingSlash (String c' r'))).
    rewrite IH; [done|]. intros b Hb. apply (Hno (String c b)). simpl. by rewrite Hb.
Qed.

(** X25: a base address with and without its closing slash give the
    same endpoint, the address followed by [/chat/completions]. *)
Theorem endpoint_normalised provider key model b :
  endpoint (newOpenAICompatibleClient
              (mkConfig provider key (b +:+ String SLASH EmptyString) model))
    = b +:+ "/chat/completions"
  ∧ ((∀ b', b ≠ b' +:+ String SLASH EmptyString) →
     endpoint (newOpenAICompatibleClient (mkConfig provider key b model))
       = b +:+ "/chat/completions").
Proof.
  unfold endpoint, newOpenAICompatibleClient; simpl. split.
  - by rewrite stripTrailingSlash_snoc.
  - intros Hno. by rewrite stripTrailingSlash_none.
Qed.

(** Only one slash is dropped. *)
Example endpoint_double_slash :
  endpoint (newOpenAICompatibleClient (mkConfig "openai-compatible" "k" "http://h//" "m"))
  = "http://h//chat/completions".
Proof. by vm_compute. Qed.

Example getLLMClientFromEnv_local :
  getLLMClientFromEnv env_local
  = inr (mkClient "sk-test" "http://localhost:11434/v1" "gpt-4o-mini").
Proof. by vm_compute. Qed.

Lemma endpoint_normalised_witness :
  endpoint (newOpenAICompatibleClient
              (mkConfig "openai-compatible" "k" "http://h/v1" "m"))
  = "http://h/v1/chat/completions".
Proof.
  apply (proj2 (endpoint_normalised "openai-compatible" "k" "m" "http://h/v1")).
  intros b' Hb.
  assert (stripTrailingSlash "http://h/v1" = b') as Hs
    by (rewrite Hb; apply stripTrailingSlash_snoc).
  vm_compute in Hs. subst b'. vm_compute in Hb. discriminate Hb.
Defined.
